(** * libloot: condition evaluator, database facade and plugin sorter

    A shallow embedding of the parts of libloot that decide its documented
    behaviour:

    - [api/metadata/condition_evaluator.cpp]: [validatePath], [evaluate],
      [evaluateAll], [fileExists], [compareVersions], [getCrc], ...;
    - [api/game/game_cache.cpp]: module [GameCache];
    - [api/api_database.cpp]: [LoadLists], [GetPluginMetadata];
    - [api/sorting/plugin_sorter.cpp]: [AddEdge], [EdgeCreatesCycle],
      [ComparePlugins] and the five edge-adding phases;
    - the group resolver that [tests/api/internals/sorting/group_sort_test.h]
      exercises: module [GroupSort].

    C++ exceptions are values of [exn] carried by [Result]; member state that
    a function mutates is passed explicitly ([StateExn]). Part I holds the
    program, Part II its properties. *)

From Stdlib Require Import ZArith Lia Ascii String OrdersEx.
From stdpp Require Import gmap strings list.

#[local] Set Warnings "-clear-no-such-hyp".

Open Scope string_scope.
Open Scope list_scope.

(** * Part I: the program *)

(** ** Exceptions and results *)

(** The edge types a cycle report names, and one step of a reported cycle
    ([Vertex::GetName], [Vertex::GetTypeOfEdgeToNextVertex]), as
    [group_sort_test.h] reads them. *)
Inductive CycleEdgeType : Type :=
| Hardcoded | MasterFlag | Master | Requirement | LoadAfter | GroupEdge
| Overlap | TieBreak.

Record Vertex : Type := {
  Vertex_GetName : string;
  GetTypeOfEdgeToNextVertex : CycleEdgeType;
}.

Inductive exn : Type :=
| ConditionSyntaxError (what : string)
| FileAccessError (what : string)
| UndefinedGroupError (group : string)
| CyclicInteractionError (cycle : list Vertex)
| FilesystemError (what : string)
| OutOfRange.

Inductive Result (A : Type) : Type :=
| Ok (a : A)
| Err (e : exn).
Arguments Ok {A} a.
Arguments Err {A} e.

(** ** Paths

    [std::filesystem::path] in its generic format, as the evaluator uses it:
    iterating a path yields the root directory (when the path starts with a
    separator), then the file names between separators, then an empty
    element when the path ends in a separator after a file name. *)

Module Path.

Fixpoint split_on_separator (cur : string) (s : string) : list string :=
  match s with
  | EmptyString => [cur]
  | String c rest =>
      if Ascii.eqb c "/"%char
      then cur :: split_on_separator "" rest
      else split_on_separator (cur +:+ String c "") rest
  end.

Definition nonempty (s : string) : bool := negb (String.eqb s "").

Definition starts_with_separator (s : string) : bool :=
  match s with
  | String c _ => Ascii.eqb c "/"%char
  | EmptyString => false
  end.

(** The elements [for (const auto& component : path)] visits. *)
Definition components (s : string) : list string :=
  let pieces := split_on_separator "" s in
  let names := List.filter nonempty pieces in
  let root := if starts_with_separator s then ["/"] else [] in
  let trailing :=
    match names, List.last pieces "x" with
    | _ :: _, EmptyString => [""]
    | _, _ => []
    end in
  root ++ names ++ trailing.

(** A path under construction is kept as the list of its elements;
    [temp /= component] adds one element. *)
Definition append (temp : list string) (component : string) : list string :=
  temp ++ [component].

(** [path::filename()]: the last element, which is empty for the root
    directory and after a trailing separator. *)
Definition filename (temp : list string) : string :=
  let f := List.last temp "" in
  if String.eqb f "/" then "" else f.

End Path.

(** ** ConditionEvaluator::validatePath *)

Definition invalid_file_path (path : string) : exn :=
  ConditionSyntaxError ("Invalid file path: " +:+ path).

Fixpoint validatePath_loop (path : string) (temp : list string)
    (components : list string) : Result unit :=
  match components with
  | [] => Ok tt
  | component :: rest =>
      if String.eqb component "." then validatePath_loop path temp rest
      else if String.eqb component ".." && String.eqb (Path.filename temp) ".."
      then Err (invalid_file_path path)
      else validatePath_loop path (Path.append temp component) rest
  end.

Definition validatePath (path : string) : Result unit :=
  validatePath_loop path [] (Path.components path).

(** The property the specification words: among the elements that are not
    ["."], some [".."] comes immediately after another [".."]. *)
Definition drop_dots (l : list string) : list string :=
  List.filter (fun c => negb (String.eqb c ".")) l.

Definition dotdot_after_dotdot (l : list string) : Prop :=
  exists l1 l2, l = l1 ++ ".." :: ".." :: l2.

(** ** Shared data types *)

Inductive GameType : Type := tes4 | tes5 | fo3 | fonv.

Definition GameType_eqb (a b : GameType) : bool :=
  match a, b with
  | tes4, tes4 | tes5, tes5 | fo3, fo3 | fonv, fonv => true
  | _, _ => false
  end.

(** Files the program looks at: a file below the game's data path
    ([dataPath_ / u8path(name)]) or the host executable
    ([std::filesystem::absolute("LOOT.exe")]). *)
Inductive fspath : Type :=
| in_data (name : string)
| loot_exe.

(** A [uint32_t] checksum. *)
Definition crc32 : Type := Z.

(** The plugin objects the game cache owns. *)
Record Plugin : Type := {
  plugin_name : string;
  plugin_is_master : bool;
  plugin_masters : list string;
  plugin_override_form_ids : list Z;
  plugin_version : option string;
  plugin_crc : option crc32;
}.

(** [boost::locale::to_lower], on ASCII file names. *)
Definition to_lower_ascii (c : ascii) : ascii :=
  let n := nat_of_ascii c in
  if (65 <=? n)%nat && (n <=? 90)%nat then ascii_of_nat (n + 32) else c.

Fixpoint to_lower (s : string) : string :=
  match s with
  | EmptyString => EmptyString
  | String c rest => String (to_lower_ascii c) (to_lower rest)
  end.

(** ** GameCache (game_cache.cpp) *)

Module GameCache.

Record t : Type := {
  conditions_ : gmap string bool;
  crcs_ : gmap string crc32;
  plugins_ : gmap string Plugin;
}.

Definition empty : t :=
  {| conditions_ := ∅; crcs_ := ∅; plugins_ := ∅ |}.

(** [std::unordered_map::insert] keeps an element that is already there. *)
Definition map_insert_new {V} (k : string) (v : V) (m : gmap string V) : gmap string V :=
  match m !! k with
  | Some _ => m
  | None => <[k := v]> m
  end.

Definition CacheCondition (condition : string) (result : bool) (c : t) : t :=
  {| conditions_ := map_insert_new condition result (conditions_ c);
     crcs_ := crcs_ c;
     plugins_ := plugins_ c |}.

Definition GetCachedCondition (condition : string) (c : t) : bool * bool :=
  match conditions_ c !! condition with
  | Some v => (v, true)
  | None => (false, false)
  end.

Definition GetCachedCrc (file : string) (c : t) : crc32 :=
  match crcs_ c !! to_lower file with
  | Some crc => crc
  | None => 0%Z
  end.

Definition CacheCrc (file : string) (crc : crc32) (c : t) : t :=
  {| conditions_ := conditions_ c;
     crcs_ := map_insert_new (to_lower file) crc (crcs_ c);
     plugins_ := plugins_ c |}.

Definition GetPlugin (pluginName : string) (c : t) : option Plugin :=
  plugins_ c !! to_lower pluginName.

Definition AddPlugin (plugin : Plugin) (c : t) : t :=
  let lowercasedName := to_lower (plugin_name plugin) in
  {| conditions_ := conditions_ c;
     crcs_ := crcs_ c;
     plugins_ := <[lowercasedName := plugin]> (delete lowercasedName (plugins_ c)) |}.

Definition ClearCachedConditions (c : t) : t :=
  {| conditions_ := ∅; crcs_ := ∅; plugins_ := plugins_ c |}.

Definition ClearCachedPlugins (c : t) : t :=
  {| conditions_ := conditions_ c; crcs_ := crcs_ c; plugins_ := ∅ |}.

End GameCache.

(** ** State and exceptions

    A member function that mutates an object and may throw takes the
    object's contents and returns a result or an exception with the new
    contents. The evaluator's member functions are [const] but reach the
    game cache through a shared pointer: for them the state is the cache. *)

Definition StateExn (S A : Type) : Type := S -> Result A * S.

Definition ret {S A} (a : A) : StateExn S A := fun s => (Ok a, s).

Definition throw {S A} (e : exn) : StateExn S A := fun s => (Err e, s).

Definition bind {S A B} (m : StateExn S A) (k : A -> StateExn S B) : StateExn S B :=
  fun s =>
    match m s with
    | (Ok a, s') => k a s'
    | (Err e, s') => (Err e, s')
    end.

Definition lift {S A} (r : Result A) : StateExn S A := fun s => (r, s).

Definition get {S} : StateExn S S := fun s => (Ok s, s).

Definition modify {S} (f : S -> S) : StateExn S unit := fun s => (Ok tt, f s).

Definition M (A : Type) : Type := StateExn GameCache.t A.

Definition get_cache : M GameCache.t := get.

Definition modify_cache (f : GameCache.t -> GameCache.t) : M unit := modify f.

Notation "x <- m ;; k" := (bind m (fun x => k))
  (at level 100, m at next level, right associativity).
Notation "m ;;; k" := (bind m (fun _ => k))
  (at level 100, right associativity).

(** The filtering loops of [evaluateAll]: keep the elements whose test
    evaluates to true, in order, stopping at the first exception. Inserting
    the kept elements of a set into an empty set, in the set's order, gives
    the list of the kept elements. *)
Fixpoint filterM {A} (test : A -> M bool) (l : list A) : M (list A) :=
  match l with
  | [] => ret []
  | x :: rest =>
      keep <- test x ;;
      kept <- filterM test rest ;;
      ret (if keep then x :: kept else kept)
  end.

(** ** Metadata records

    A [std::set] or [std::vector] member is the list of its elements in
    iteration order. *)

Module File.
Record t : Type := {
  GetName : string;
  GetDisplayName : string;
  GetCondition : string;
}.
End File.

Inductive MessageType : Type := say | warn | error.

Module Message.
Record t : Type := {
  GetType : MessageType;
  GetContent : list (string * string);
  GetCondition : string;
}.
End Message.

Module Tag.
Record t : Type := {
  GetName : string;
  IsAddition : bool;
  GetCondition : string;
}.
End Tag.

Module PluginCleaningData.
Record t : Type := {
  GetCRC : crc32;
  GetITMCount : nat;
  GetDeletedReferenceCount : nat;
  GetDeletedNavmeshCount : nat;
  GetCleaningUtility : string;
  GetInfo : list (string * string);
}.
End PluginCleaningData.

Module PluginMetadata.
Record t : Type := {
  GetName : string;
  GetGroup : option string;
  IsEnabled : bool;
  GetLoadAfterFiles : list File.t;
  GetRequirements : list File.t;
  GetIncompatibilities : list File.t;
  GetMessages : list Message.t;
  GetTags : list Tag.t;
  GetDirtyInfo : list PluginCleaningData.t;
  GetCleanInfo : list PluginCleaningData.t;
  GetLocations : list (string * string);
}.

(** [PluginMetadata(name)]. *)
Definition make (name : string) : t :=
  {| GetName := name; GetGroup := None; IsEnabled := true;
     GetLoadAfterFiles := []; GetRequirements := []; GetIncompatibilities := [];
     GetMessages := []; GetTags := []; GetDirtyInfo := []; GetCleanInfo := [];
     GetLocations := [] |}.

Definition SetEnabled (b : bool) (m : t) : t :=
  {| GetName := GetName m; GetGroup := GetGroup m; IsEnabled := b;
     GetLoadAfterFiles := GetLoadAfterFiles m; GetRequirements := GetRequirements m;
     GetIncompatibilities := GetIncompatibilities m; GetMessages := GetMessages m;
     GetTags := GetTags m; GetDirtyInfo := GetDirtyInfo m;
     GetCleanInfo := GetCleanInfo m; GetLocations := GetLocations m |}.

Definition SetLocations (l : list (string * string)) (m : t) : t :=
  {| GetName := GetName m; GetGroup := GetGroup m; IsEnabled := IsEnabled m;
     GetLoadAfterFiles := GetLoadAfterFiles m; GetRequirements := GetRequirements m;
     GetIncompatibilities := GetIncompatibilities m; GetMessages := GetMessages m;
     GetTags := GetTags m; GetDirtyInfo := GetDirtyInfo m;
     GetCleanInfo := GetCleanInfo m; GetLocations := l |}.

Definition SetGroup (g : string) (m : t) : t :=
  {| GetName := GetName m; GetGroup := Some g; IsEnabled := IsEnabled m;
     GetLoadAfterFiles := GetLoadAfterFiles m; GetRequirements := GetRequirements m;
     GetIncompatibilities := GetIncompatibilities m; GetMessages := GetMessages m;
     GetTags := GetTags m; GetDirtyInfo := GetDirtyInfo m;
     GetCleanInfo := GetCleanInfo m; GetLocations := GetLocations m |}.

Definition SetLoadAfterFiles (l : list File.t) (m : t) : t :=
  {| GetName := GetName m; GetGroup := GetGroup m; IsEnabled := IsEnabled m;
     GetLoadAfterFiles := l; GetRequirements := GetRequirements m;
     GetIncompatibilities := GetIncompatibilities m; GetMessages := GetMessages m;
     GetTags := GetTags m; GetDirtyInfo := GetDirtyInfo m;
     GetCleanInfo := GetCleanInfo m; GetLocations := GetLocations m |}.

Definition SetRequirements (l : list File.t) (m : t) : t :=
  {| GetName := GetName m; GetGroup := GetGroup m; IsEnabled := IsEnabled m;
     GetLoadAfterFiles := GetLoadAfterFiles m; GetRequirements := l;
     GetIncompatibilities := GetIncompatibilities m; GetMessages := GetMessages m;
     GetTags := GetTags m; GetDirtyInfo := GetDirtyInfo m;
     GetCleanInfo := GetCleanInfo m; GetLocations := GetLocations m |}.

Definition SetIncompatibilities (l : list File.t) (m : t) : t :=
  {| GetName := GetName m; GetGroup := GetGroup m; IsEnabled := IsEnabled m;
     GetLoadAfterFiles := GetLoadAfterFiles m; GetRequirements := GetRequirements m;
     GetIncompatibilities := l; GetMessages := GetMessages m;
     GetTags := GetTags m; GetDirtyInfo := GetDirtyInfo m;
     GetCleanInfo := GetCleanInfo m; GetLocations := GetLocations m |}.

Definition SetMessages (l : list Message.t) (m : t) : t :=
  {| GetName := GetName m; GetGroup := GetGroup m; IsEnabled := IsEnabled m;
     GetLoadAfterFiles := GetLoadAfterFiles m; GetRequirements := GetRequirements m;
     GetIncompatibilities := GetIncompatibilities m; GetMessages := l;
     GetTags := GetTags m; GetDirtyInfo := GetDirtyInfo m;
     GetCleanInfo := GetCleanInfo m; GetLocations := GetLocations m |}.

Definition SetTags (l : list Tag.t) (m : t) : t :=
  {| GetName := GetName m; GetGroup := GetGroup m; IsEnabled := IsEnabled m;
     GetLoadAfterFiles := GetLoadAfterFiles m; GetRequirements := GetRequirements m;
     GetIncompatibilities := GetIncompatibilities m; GetMessages := GetMessages m;
     GetTags := l; GetDirtyInfo := GetDirtyInfo m;
     GetCleanInfo := GetCleanInfo m; GetLocations := GetLocations m |}.

Definition SetDirtyInfo (l : list PluginCleaningData.t) (m : t) : t :=
  {| GetName := GetName m; GetGroup := GetGroup m; IsEnabled := IsEnabled m;
     GetLoadAfterFiles := GetLoadAfterFiles m; GetRequirements := GetRequirements m;
     GetIncompatibilities := GetIncompatibilities m; GetMessages := GetMessages m;
     GetTags := GetTags m; GetDirtyInfo := l;
     GetCleanInfo := GetCleanInfo m; GetLocations := GetLocations m |}.

Definition SetCleanInfo (l : list PluginCleaningData.t) (m : t) : t :=
  {| GetName := GetName m; GetGroup := GetGroup m; IsEnabled := IsEnabled m;
     GetLoadAfterFiles := GetLoadAfterFiles m; GetRequirements := GetRequirements m;
     GetIncompatibilities := GetIncompatibilities m; GetMessages := GetMessages m;
     GetTags := GetTags m; GetDirtyInfo := GetDirtyInfo m;
     GetCleanInfo := l; GetLocations := GetLocations m |}.

End PluginMetadata.

(** ** ConditionEvaluator (condition_evaluator.cpp) *)

Record LoadOrderHandler : Type := {
  IsPluginActive : string -> bool;
  GetImplicitlyActivePlugins : list string;
  GetLoadOrder : list string;
}.

(** A [std::shared_ptr<GameCache>]: null, or a pointer to the cache whose
    contents the monad [M] threads. *)
Inductive cache_ptr : Type := null_cache | shared_cache.

Record ConditionEvaluator : Type := {
  gameType_ : GameType;
  gameCache_ : cache_ptr;
  loadOrderHandler_ : option LoadOrderHandler;
}.

(** [ConditionEvaluator()]. *)
Definition default_evaluator : ConditionEvaluator :=
  {| gameType_ := tes4; gameCache_ := null_cache; loadOrderHandler_ := None |}.

(** What the evaluator calls outside this translation unit: the file
    system, the CRC and plugin readers, the [Version] class, the plugin
    metadata's regex test and the Boost.Spirit grammar of
    [condition_grammar.h]. [phrase_parse] gives the parser's success flag,
    the input left unconsumed and the evaluation; it runs in [M] because the
    grammar's actions call back into the evaluator. *)
Record Host : Type := {
  Version : Type;
  Version_of_string : string -> Version;
  Version_of_file : fspath -> Result Version;
  Version_eq : Version -> Version -> bool;
  Version_ne : Version -> Version -> bool;
  Version_lt : Version -> Version -> bool;
  Version_gt : Version -> Version -> bool;
  Version_le : Version -> Version -> bool;
  Version_ge : Version -> Version -> bool;
  fs_exists : fspath -> bool;
  GetCrc32 : fspath -> Result crc32;
  hasPluginFileExtension : string -> GameType -> bool;
  Plugin_IsValid : GameType -> fspath -> bool;
  Plugin_header : GameType -> fspath -> Result Plugin;
  IsRegexPlugin : string -> bool;
  phrase_parse : ConditionEvaluator -> string -> M (bool * string * bool);
}.

Definition dquote : string := String (ascii_of_nat 34) "".

Section Evaluator.

Context (host : Host).

Definition is_nullptr (p : cache_ptr) : bool :=
  match p with null_cache => true | shared_cache => false end.

Definition shouldParseOnly (ev : ConditionEvaluator) : bool :=
  is_nullptr (gameCache_ ev) ||
  match loadOrderHandler_ ev with None => true | Some _ => false end.

Definition partial_parse (condition : string) : exn :=
  ConditionSyntaxError
    ("Failed to parse condition " +:+ dquote +:+ condition +:+ dquote +:+
     ": only partially matched expected syntax.").

Definition parseCondition (ev : ConditionEvaluator) (condition : string) : M bool :=
  if String.eqb condition "" then ret true
  else
    r <- phrase_parse host ev condition ;;
    let '(parseResult, unconsumed, evaluation) := r in
    if negb parseResult || negb (String.eqb unconsumed "")
    then throw (partial_parse condition)
    else ret evaluation.

Definition evaluate (ev : ConditionEvaluator) (condition : string) : M bool :=
  if shouldParseOnly ev then
    (* Still check that the syntax is valid. *)
    parseCondition ev condition ;;; ret false
  else if String.eqb condition "" then ret true
  else
    c <- get_cache ;;
    let cachedValue := GameCache.GetCachedCondition condition c in
    if snd cachedValue then ret (fst cachedValue)
    else
      result <- parseCondition ev condition ;;
      modify_cache (GameCache.CacheCondition condition result) ;;;
      ret result.

Definition getCrc (ev : ConditionEvaluator) (file : string) : M crc32 :=
  c <- get_cache ;;
  let crc := GameCache.GetCachedCrc file c in
  if negb (Z.eqb crc 0) then ret crc
  else if String.eqb file "LOOT" then
    crc <- lift (GetCrc32 host loot_exe) ;;
    modify_cache (GameCache.CacheCrc file crc) ;;;
    ret crc
  else
    (* Get the CRC from the game plugin cache if possible. *)
    let crc :=
      match GameCache.GetPlugin file c with
      | Some plugin => default 0%Z (plugin_crc plugin)
      | None => crc
      end in
    (* Otherwise calculate it from the file. *)
    crc <- (if Z.eqb crc 0 then
              if fs_exists host (in_data file)
              then lift (GetCrc32 host (in_data file))
              else if hasPluginFileExtension host file (gameType_ ev) &&
                      fs_exists host (in_data (file +:+ ".ghost"))
              then lift (GetCrc32 host (in_data (file +:+ ".ghost")))
              else ret crc
            else ret crc) ;;
    (if negb (Z.eqb crc 0)
     then modify_cache (GameCache.CacheCrc file crc)
     else ret tt) ;;;
    ret crc.

Definition evaluate_cleaning (ev : ConditionEvaluator)
    (cleaningData : PluginCleaningData.t) (pluginName : string) : M bool :=
  if shouldParseOnly ev || String.eqb pluginName "" then ret false
  else
    crc <- getCrc ev pluginName ;;
    ret (Z.eqb (PluginCleaningData.GetCRC cleaningData) crc).

Definition evaluateAll (ev : ConditionEvaluator) (pluginMetadata : PluginMetadata.t)
    : M PluginMetadata.t :=
  if shouldParseOnly ev then ret pluginMetadata
  else
    let evaluatedMetadata := PluginMetadata.make (PluginMetadata.GetName pluginMetadata) in
    let evaluatedMetadata :=
      PluginMetadata.SetEnabled (PluginMetadata.IsEnabled pluginMetadata) evaluatedMetadata in
    let evaluatedMetadata :=
      PluginMetadata.SetLocations (PluginMetadata.GetLocations pluginMetadata) evaluatedMetadata in
    let evaluatedMetadata :=
      match PluginMetadata.GetGroup pluginMetadata with
      | Some g => PluginMetadata.SetGroup g evaluatedMetadata
      | None => evaluatedMetadata
      end in
    fileSet <- filterM (fun file => evaluate ev (File.GetCondition file))
                 (PluginMetadata.GetLoadAfterFiles pluginMetadata) ;;
    let evaluatedMetadata := PluginMetadata.SetLoadAfterFiles fileSet evaluatedMetadata in
    fileSet <- filterM (fun file => evaluate ev (File.GetCondition file))
                 (PluginMetadata.GetRequirements pluginMetadata) ;;
    let evaluatedMetadata := PluginMetadata.SetRequirements fileSet evaluatedMetadata in
    fileSet <- filterM (fun file => evaluate ev (File.GetCondition file))
                 (PluginMetadata.GetIncompatibilities pluginMetadata) ;;
    let evaluatedMetadata := PluginMetadata.SetIncompatibilities fileSet evaluatedMetadata in
    messages <- filterM (fun message => evaluate ev (Message.GetCondition message))
                  (PluginMetadata.GetMessages pluginMetadata) ;;
    let evaluatedMetadata := PluginMetadata.SetMessages messages evaluatedMetadata in
    tagSet <- filterM (fun tag => evaluate ev (Tag.GetCondition tag))
                (PluginMetadata.GetTags pluginMetadata) ;;
    let evaluatedMetadata := PluginMetadata.SetTags tagSet evaluatedMetadata in
    if negb (IsRegexPlugin host (PluginMetadata.GetName evaluatedMetadata)) then
      infoSet <- filterM
                   (fun info => evaluate_cleaning ev info (PluginMetadata.GetName pluginMetadata))
                   (PluginMetadata.GetDirtyInfo pluginMetadata) ;;
      let evaluatedMetadata := PluginMetadata.SetDirtyInfo infoSet evaluatedMetadata in
      infoSet <- filterM
                   (fun info => evaluate_cleaning ev info (PluginMetadata.GetName pluginMetadata))
                   (PluginMetadata.GetCleanInfo pluginMetadata) ;;
      let evaluatedMetadata := PluginMetadata.SetCleanInfo infoSet evaluatedMetadata in
      ret evaluatedMetadata
    else ret evaluatedMetadata.

Definition fileExists (ev : ConditionEvaluator) (filePath : string) : M bool :=
  lift (validatePath filePath) ;;;
  if shouldParseOnly ev then ret false
  else if String.eqb filePath "LOOT" then ret true
  else
    c <- get_cache ;;
    (* Try first checking the plugin cache. *)
    match GameCache.GetPlugin filePath c with
    | Some _ => ret true
    | None =>
        (* Not a loaded plugin, check the filesystem. *)
        if hasPluginFileExtension host filePath (gameType_ ev)
        then ret (fs_exists host (in_data filePath) ||
                  fs_exists host (in_data (filePath +:+ ".ghost")))
        else ret (fs_exists host (in_data filePath))
    end.

Definition checksumMatches (ev : ConditionEvaluator) (filePath : string)
    (checksum : crc32) : M bool :=
  lift (validatePath filePath) ;;;
  if shouldParseOnly ev then ret false
  else
    crc <- getCrc ev filePath ;;
    ret (Z.eqb checksum crc).

Definition isPluginActive (ev : ConditionEvaluator) (pluginName : string) : M bool :=
  lift (validatePath pluginName) ;;;
  if shouldParseOnly ev then ret false
  else if String.eqb pluginName "LOOT" then ret false
  else
    match loadOrderHandler_ ev with
    | Some loadOrderHandler => ret (IsPluginActive loadOrderHandler pluginName)
    | None => ret false (* excluded by [shouldParseOnly] *)
    end.

Definition getVersion (ev : ConditionEvaluator) (filePath : string)
    : M (Version host) :=
  if String.eqb filePath "LOOT" then lift (Version_of_file host loot_exe)
  else
    c <- get_cache ;;
    match GameCache.GetPlugin filePath c with
    | Some plugin => ret (Version_of_string host (default "" (plugin_version plugin)))
    | None =>
        let pluginPath := in_data filePath in
        if Plugin_IsValid host (gameType_ ev) pluginPath then
          plugin <- lift (Plugin_header host (gameType_ ev) pluginPath) ;;
          ret (Version_of_string host (default "" (plugin_version plugin)))
        else lift (Version_of_file host pluginPath)
    end.

Definition compareVersions (ev : ConditionEvaluator) (filePath testVersion comparator : string)
    : M bool :=
  found <- fileExists ev filePath ;;
  if negb found
  then ret (String.eqb comparator "!=" || String.eqb comparator "<" ||
            String.eqb comparator "<=")
  else
    let givenVersion := Version_of_string host testVersion in
    trueVersion <- getVersion ev filePath ;;
    ret ((String.eqb comparator "==" && Version_eq host trueVersion givenVersion) ||
         (String.eqb comparator "!=" && Version_ne host trueVersion givenVersion) ||
         (String.eqb comparator "<" && Version_lt host trueVersion givenVersion) ||
         (String.eqb comparator ">" && Version_gt host trueVersion givenVersion) ||
         (String.eqb comparator "<=" && Version_le host trueVersion givenVersion) ||
         (String.eqb comparator ">=" && Version_ge host trueVersion givenVersion)).

End Evaluator.

(** *** A small host for the worked examples

    A data directory holding [Skyrim.esm], [Update.esm], [Foo.esp] and a
    ghosted [Bar.esp]; versions are compared as strings; the grammar knows
    the single production [file("path")]. The name [Foo.*\.esp] stands for a
    regex entry, as in the specification's merge scenario. *)

Definition fspath_eqb (a b : fspath) : bool :=
  match a, b with
  | in_data x, in_data y => String.eqb x y
  | loot_exe, loot_exe => true
  | _, _ => false
  end.

Definition sample_files : list (fspath * crc32) :=
  [(in_data "Skyrim.esm", 305419896%Z); (in_data "Update.esm", 2596069104%Z);
   (in_data "Foo.esp", 3735928559%Z); (in_data "Bar.esp.ghost", 4276994270%Z);
   (loot_exe, 11259375%Z)].

Definition sample_fs_exists (p : fspath) : bool :=
  existsb (fun f => fspath_eqb (fst f) p) sample_files.

Definition sample_GetCrc32 (p : fspath) : Result crc32 :=
  match List.find (fun f => fspath_eqb (fst f) p) sample_files with
  | Some f => Ok (snd f)
  | None => Err (FileAccessError "Unable to open file for CRC calculation")
  end.

Definition ends_with (suffix s : string) : bool :=
  let n := String.length s in
  let k := String.length suffix in
  (k <=? n)%nat && String.eqb (String.substring (n - k) k s) suffix.

Definition sample_hasPluginFileExtension (file : string) (_ : GameType) : bool :=
  ends_with ".esp" (to_lower file) || ends_with ".esm" (to_lower file).

Definition sample_host_without_grammar : Host :=
  {| Version := string;
     Version_of_string := fun s => s;
     Version_of_file := fun p =>
       if sample_fs_exists p then Ok "1.0" else Err (FileAccessError "no version");
     Version_eq := String.eqb;
     Version_ne := fun a b => negb (String.eqb a b);
     Version_lt := String.ltb;
     Version_gt := fun a b => String.ltb b a;
     Version_le := String.leb;
     Version_ge := fun a b => String.leb b a;
     fs_exists := sample_fs_exists;
     GetCrc32 := sample_GetCrc32;
     hasPluginFileExtension := sample_hasPluginFileExtension;
     Plugin_IsValid := fun _ _ => false;
     Plugin_header := fun _ _ => Err (FileAccessError "not a plugin");
     IsRegexPlugin := fun name => String.eqb name "Foo.*\.esp";
     phrase_parse := fun _ condition => ret (false, condition, false) |}.

Definition sample_phrase_parse (ev : ConditionEvaluator) (condition : string)
    : M (bool * string * bool) :=
  let opening := "file(" +:+ dquote in
  let closing := dquote +:+ ")" in
  let n := String.length condition in
  if String.prefix opening condition && ends_with closing condition then
    found <- fileExists sample_host_without_grammar ev
               (String.substring 6 (n - 8) condition) ;;
    ret (true, "", found)
  else ret (false, condition, false).

Definition sample_host : Host :=
  {| Version := string;
     Version_of_string := Version_of_string sample_host_without_grammar;
     Version_of_file := Version_of_file sample_host_without_grammar;
     Version_eq := Version_eq sample_host_without_grammar;
     Version_ne := Version_ne sample_host_without_grammar;
     Version_lt := Version_lt sample_host_without_grammar;
     Version_gt := Version_gt sample_host_without_grammar;
     Version_le := Version_le sample_host_without_grammar;
     Version_ge := Version_ge sample_host_without_grammar;
     fs_exists := sample_fs_exists;
     GetCrc32 := sample_GetCrc32;
     hasPluginFileExtension := sample_hasPluginFileExtension;
     Plugin_IsValid := fun _ _ => false;
     Plugin_header := fun _ _ => Err (FileAccessError "not a plugin");
     IsRegexPlugin := IsRegexPlugin sample_host_without_grammar;
     phrase_parse := sample_phrase_parse |}.

Definition sample_loadOrderHandler : LoadOrderHandler :=
  {| IsPluginActive := fun name =>
       existsb (String.eqb (to_lower name)) ["skyrim.esm"; "update.esm"; "foo.esp"];
     GetImplicitlyActivePlugins := ["Skyrim.esm"; "Update.esm"];
     GetLoadOrder := ["Skyrim.esm"; "Update.esm"; "Foo.esp"] |}.

Definition live_evaluator : ConditionEvaluator :=
  {| gameType_ := tes5; gameCache_ := shared_cache;
     loadOrderHandler_ := Some sample_loadOrderHandler |}.

Definition file_condition (path : string) : string :=
  "file(" +:+ dquote +:+ path +:+ dquote +:+ ")".

(** *** Definitions used to state the evaluator's properties *)

(** A host whose version readers always fail: any call of [getVersion] that
    reaches the file or the plugin header shows as an exception. *)
Definition without_version_readers (host : Host) : Host :=
  {| Version := Version host;
     Version_of_string := Version_of_string host;
     Version_of_file := fun _ => Err (FileAccessError "version reader called");
     Version_eq := Version_eq host;
     Version_ne := Version_ne host;
     Version_lt := Version_lt host;
     Version_gt := Version_gt host;
     Version_le := Version_le host;
     Version_ge := Version_ge host;
     fs_exists := fs_exists host;
     GetCrc32 := GetCrc32 host;
     hasPluginFileExtension := hasPluginFileExtension host;
     Plugin_IsValid := Plugin_IsValid host;
     Plugin_header := fun _ _ => Err (FileAccessError "plugin reader called");
     IsRegexPlugin := IsRegexPlugin host;
     phrase_parse := phrase_parse host |}.

Definition true_when_absent (comparator : string) : bool :=
  String.eqb comparator "!=" || String.eqb comparator "<" || String.eqb comparator "<=".

(** *** The CRC the evaluator computes for a file *)

(** The part of [getCrc] after a cache miss, for a file other than [LOOT]. *)
Definition fresh_crc (host : Host) (ev : ConditionEvaluator) (file : string)
    (plugin : option Plugin) : Result crc32 :=
  let crc := match plugin with
             | Some p => default 0%Z (plugin_crc p)
             | None => 0%Z
             end in
  if Z.eqb crc 0 then
    if fs_exists host (in_data file) then GetCrc32 host (in_data file)
    else if hasPluginFileExtension host file (gameType_ ev) &&
            fs_exists host (in_data (file +:+ ".ghost"))
    then GetCrc32 host (in_data (file +:+ ".ghost"))
    else Ok crc
  else Ok crc.


Definition dirty_record (crc : crc32) : PluginCleaningData.t :=
  {| PluginCleaningData.GetCRC := crc;
     PluginCleaningData.GetITMCount := 2%nat;
     PluginCleaningData.GetDeletedReferenceCount := 10%nat;
     PluginCleaningData.GetDeletedNavmeshCount := 0%nat;
     PluginCleaningData.GetCleaningUtility := "TES5Edit";
     PluginCleaningData.GetInfo := [] |}.

Definition with_cleaning_info (name : string) (dirty clean : list PluginCleaningData.t)
    : PluginMetadata.t :=
  PluginMetadata.SetCleanInfo clean
    (PluginMetadata.SetDirtyInfo dirty (PluginMetadata.make name)).

Definition foo_metadata : PluginMetadata.t :=
  with_cleaning_info "Foo.esp"
    [dirty_record 3735928559%Z; dirty_record 4%Z]
    [dirty_record 5%Z; dirty_record 3735928559%Z].


(** ** MetadataList (metadata_list.h) and ApiDatabase (api_database.cpp) *)

Record Group : Type := {
  group_name : string;
  group_after : list string;
}.

Module MetadataList.
Record t : Type := {
  groups_ : list Group;
  bashTags_ : list string;
  plugins_ : list PluginMetadata.t;
  regexPlugins_ : list PluginMetadata.t;
  messages_ : list Message.t;
  unevaluatedPlugins_ : list PluginMetadata.t;
  unevaluatedRegexPlugins_ : list PluginMetadata.t;
  unevaluatedMessages_ : list Message.t;
}.

(** A default-constructed list. *)
Definition empty : t :=
  {| groups_ := []; bashTags_ := []; plugins_ := []; regexPlugins_ := [];
     messages_ := []; unevaluatedPlugins_ := []; unevaluatedRegexPlugins_ := [];
     unevaluatedMessages_ := [] |}.
End MetadataList.

(** [class Masterlist : public MetadataList]. *)
Definition Masterlist : Type := MetadataList.t.

(** What the database calls outside its translation unit: the file system,
    the documents' loaders and lookup, the metadata merge and the
    evaluator's [EvaluateAll]. A loader is given the object it fills. *)
Record DatabaseHost : Type := {
  path_exists : string -> bool;
  Masterlist_Load : Masterlist -> string -> Result Masterlist;
  MetadataList_Load : MetadataList.t -> string -> Result MetadataList.t;
  FindPlugin : MetadataList.t -> string -> option PluginMetadata.t;
  MergeMetadata : PluginMetadata.t -> PluginMetadata.t -> PluginMetadata.t;
  EvaluateAll : ConditionEvaluator -> PluginMetadata.t -> M PluginMetadata.t;
}.

Record ApiDatabase : Type := {
  masterlist_ : Masterlist;
  userlist_ : MetadataList.t;
  conditionEvaluator_ : ConditionEvaluator;
}.

Definition assign_masterlist (m : Masterlist) (db : ApiDatabase) : ApiDatabase :=
  {| masterlist_ := m; userlist_ := userlist_ db;
     conditionEvaluator_ := conditionEvaluator_ db |}.

Definition assign_userlist (u : MetadataList.t) (db : ApiDatabase) : ApiDatabase :=
  {| masterlist_ := masterlist_ db; userlist_ := u;
     conditionEvaluator_ := conditionEvaluator_ db |}.

Section Database.

Context (dh : DatabaseHost).

Definition masterlist_missing (masterlistPath : string) : exn :=
  FileAccessError ("The given masterlist path does not exist: " +:+ masterlistPath).

Definition userlist_missing (userlistPath : string) : exn :=
  FileAccessError ("The given userlist path does not exist: " +:+ userlistPath).

Definition LoadLists (masterlistPath userlistPath : string) : StateExn ApiDatabase unit :=
  let temp := MetadataList.empty in
  let userTemp := MetadataList.empty in
  temp <- (if negb (String.eqb masterlistPath "") then
             if path_exists dh masterlistPath
             then lift (Masterlist_Load dh temp masterlistPath)
             else throw (masterlist_missing masterlistPath)
           else ret temp) ;;
  userTemp <- (if negb (String.eqb userlistPath "") then
                 if path_exists dh userlistPath
                 then lift (MetadataList_Load dh userTemp userlistPath)
                 else throw (userlist_missing userlistPath)
               else ret userTemp) ;;
  modify (assign_masterlist temp) ;;;
  modify (assign_userlist userTemp).

Definition GetPluginMetadata (db : ApiDatabase) (plugin : string)
    (includeUserMetadata evaluateConditions : bool) : M (option PluginMetadata.t) :=
  let metadata := FindPlugin dh (masterlist_ db) plugin in
  let metadata :=
    if includeUserMetadata then
      let userMetadata := FindPlugin dh (userlist_ db) plugin in
      match metadata, userMetadata with
      | Some m, Some u => Some (MergeMetadata dh m u)
      | _, Some u => Some u
      | _, None => metadata
      end
    else metadata in
  match evaluateConditions, metadata with
  | true, Some m =>
      evaluated <- EvaluateAll dh (conditionEvaluator_ db) m ;;
      ret (Some evaluated)
  | _, _ => ret metadata
  end.

Definition GetPluginUserMetadata (db : ApiDatabase) (plugin : string)
    (evaluateConditions : bool) : M (option PluginMetadata.t) :=
  let metadata := FindPlugin dh (userlist_ db) plugin in
  match evaluateConditions, metadata with
  | true, Some m =>
      evaluated <- EvaluateAll dh (conditionEvaluator_ db) m ;;
      ret (Some evaluated)
  | _, _ => ret metadata
  end.

End Database.

(** ** Plugin sorter (plugin_sorter.cpp) *)

(** *** Strings as the sorter uses them *)

(** [size_t] subtraction, which wraps around. *)
Definition size_t_modulus : Z := 2 ^ 64.

Definition size_t_sub (a b : Z) : Z := (a - b) mod size_t_modulus.

Definition string_size (s : string) : Z := Z.of_nat (String.length s).

(** [std::string::substr(pos, count)]: throws [std::out_of_range] when
    [pos] is past the end, and clips [count] to the characters that are
    left; [count] is [npos] when it is not given. *)
Definition substr (s : string) (pos : Z) (count : option Z) : Result string :=
  if (string_size s <? pos)%Z then Err OutOfRange
  else
    let left := (string_size s - pos)%Z in
    let n := match count with
             | Some k => Z.min k left
             | None => left
             end in
    Ok (String.substring (Z.to_nat pos) (Z.to_nat n) s).

(** Modelled from the spec: [CompareFilenames] is declared in
    [api/helpers/text.h], which is not under src/. The specification has it
    compare two names case-insensitively; the model compares the lowercased
    names byte by byte and answers -1, 0 or 1. *)
Definition CompareFilenames (lhs rhs : string) : Z :=
  match String_as_OT.compare (to_lower lhs) (to_lower rhs) with
  | Lt => (-1)%Z
  | Eq => 0%Z
  | Gt => 1%Z
  end.

(** Modelled from the spec: [Group().GetName()] comes from
    [loot/metadata/group.h], which is not under src/; the specification
    gives the default group the empty name. *)
Definition default_group_name : string := "".

Module PluginSortingData.
Record t : Type := {
  GetName : string;
  IsMaster : bool;
  GetMasters : list string;
  GetLoadOrderIndex : option nat;
  GetGroup : string;
  GetAfterGroupPlugins : list string;
  GetMasterlistRequirements : list File.t;
  GetUserRequirements : list File.t;
  GetMasterlistLoadAfterFiles : list File.t;
  GetUserLoadAfterFiles : list File.t;
  GetOverrideFormIDs : list Z;
}.

Definition NumOverrideFormIDs (p : t) : nat := List.length (GetOverrideFormIDs p).

Definition DoFormIDsOverlap (p q : t) : bool :=
  existsb (fun id => existsb (Z.eqb id) (GetOverrideFormIDs q)) (GetOverrideFormIDs p).

Definition SetAfterGroupPlugins (plugins : list string) (p : t) : t :=
  {| GetName := GetName p; IsMaster := IsMaster p; GetMasters := GetMasters p;
     GetLoadOrderIndex := GetLoadOrderIndex p; GetGroup := GetGroup p;
     GetAfterGroupPlugins := plugins;
     GetMasterlistRequirements := GetMasterlistRequirements p;
     GetUserRequirements := GetUserRequirements p;
     GetMasterlistLoadAfterFiles := GetMasterlistLoadAfterFiles p;
     GetUserLoadAfterFiles := GetUserLoadAfterFiles p;
     GetOverrideFormIDs := GetOverrideFormIDs p |}.

(** A plugin with nothing but a name, a master flag and a load order
    position, in the default group. *)
Definition plain (name : string) (master : bool) (index : option nat) : t :=
  {| GetName := name; IsMaster := master; GetMasters := [];
     GetLoadOrderIndex := index; GetGroup := default_group_name;
     GetAfterGroupPlugins := [];
     GetMasterlistRequirements := []; GetUserRequirements := [];
     GetMasterlistLoadAfterFiles := []; GetUserLoadAfterFiles := [];
     GetOverrideFormIDs := [] |}.
End PluginSortingData.

Definition ComparePlugins (plugin1 plugin2 : PluginSortingData.t) : Result Z :=
  match PluginSortingData.GetLoadOrderIndex plugin1,
        PluginSortingData.GetLoadOrderIndex plugin2 with
  | Some _, None => Ok (-1)%Z
  | None, Some _ => Ok 1%Z
  | Some index1, Some index2 =>
      if (index1 <? index2)%nat then Ok (-1)%Z else Ok 1%Z
  | None, None =>
      (* Neither plugin has a load order position. Compare plugin basenames
         to get an ordering. *)
      let name1 := PluginSortingData.GetName plugin1 in
      let name2 := PluginSortingData.GetName plugin2 in
      match substr name1 0 (Some (size_t_sub (string_size name1) 4)) with
      | Err e => Err e
      | Ok basename1 =>
      match substr name2 0 (Some (size_t_sub (string_size name2) 4)) with
      | Err e => Err e
      | Ok basename2 =>
          let result := CompareFilenames basename1 basename2 in
          if negb (Z.eqb result 0) then Ok result
          else
            (* Could be a .esp and .esm plugin with the same basename,
               compare their extensions. *)
            match substr name1 (size_t_sub (string_size name1) 4) None with
            | Err e => Err e
            | Ok ext1 =>
            match substr name2 (size_t_sub (string_size name2) 4) None with
            | Err e => Err e
            | Ok ext2 => Ok (CompareFilenames ext1 ext2)
            end end
      end end
  end.

(** [ComparePlugins(a, b) < 0], the test [AddTieBreakEdges] makes. *)
Definition orders_before (plugin1 plugin2 : PluginSortingData.t) : Prop :=
  exists r, ComparePlugins plugin1 plugin2 = Ok r /\ (r < 0)%Z.

(** The specification's wording of the comparison: the name minus its last
    four characters, then the last four characters. *)
Definition basename (name : string) : string :=
  String.substring 0 (String.length name - 4) name.

Definition extension (name : string) : string :=
  String.substring (String.length name - 4) 4 name.

Definition compare_as_specified (plugin1 plugin2 : PluginSortingData.t) : Z :=
  match PluginSortingData.GetLoadOrderIndex plugin1,
        PluginSortingData.GetLoadOrderIndex plugin2 with
  | Some _, None => (-1)%Z
  | None, Some _ => 1%Z
  | Some index1, Some index2 => if (index1 <? index2)%nat then (-1)%Z else 1%Z
  | None, None =>
      let by_basename :=
        CompareFilenames (basename (PluginSortingData.GetName plugin1))
                         (basename (PluginSortingData.GetName plugin2)) in
      if Z.eqb by_basename 0
      then CompareFilenames (extension (PluginSortingData.GetName plugin1))
                            (extension (PluginSortingData.GetName plugin2))
      else by_basename
  end.

(** *** The order [ComparePlugins] decides *)

(** A plugin whose name has room for the four-character extension and fits
    a [std::string]. *)
Definition named_plugin (p : PluginSortingData.t) : Prop :=
  (4 <= string_size (PluginSortingData.GetName p) < size_t_modulus)%Z.

(** The order [compare_as_specified] decides, written out. *)
Definition name_key_lt (name1 name2 : string) : Prop :=
  String_as_OT.compare (to_lower (basename name1)) (to_lower (basename name2)) = Lt \/
  (to_lower (basename name1) = to_lower (basename name2) /\
   String_as_OT.compare (to_lower (extension name1)) (to_lower (extension name2)) = Lt).

Definition specified_before (p1 p2 : PluginSortingData.t) : Prop :=
  match PluginSortingData.GetLoadOrderIndex p1,
        PluginSortingData.GetLoadOrderIndex p2 with
  | Some _, None => True
  | None, Some _ => False
  | Some index1, Some index2 => (index1 < index2)%nat
  | None, None =>
      name_key_lt (PluginSortingData.GetName p1) (PluginSortingData.GetName p2)
  end.

(** Two different plugins of one sort: their names differ, case aside, and
    so do their positions in the current load order when both have one. *)
Definition distinct_plugins (p1 p2 : PluginSortingData.t) : Prop :=
  CompareFilenames (PluginSortingData.GetName p1) (PluginSortingData.GetName p2) <> 0%Z /\
  (forall i j,
     PluginSortingData.GetLoadOrderIndex p1 = Some i ->
     PluginSortingData.GetLoadOrderIndex p2 = Some j -> i <> j).

Definition plug_esm : PluginSortingData.t := PluginSortingData.plain "plug.esm" true None.
Definition plug_esp : PluginSortingData.t := PluginSortingData.plain "plug.esp" false None.
Definition skyrim_esm : PluginSortingData.t :=
  PluginSortingData.plain "Skyrim.esm" true (Some 0%nat).

(** *** The plugin graph and the paths cache *)

Inductive EdgeType : Type :=
| hardcoded | masterFlag | master | masterlistRequirement | userRequirement
| masterlistLoadAfter | userLoadAfter | group | overlap | tieBreak.

(** A vertex descriptor is the vertex's position in the vertex list. *)
Definition vertex_t : Type := nat.

Record PluginGraph : Type := {
  vertices : list PluginSortingData.t;
  edges : list (vertex_t * vertex_t * EdgeType);
}.

Record PluginSorter : Type := {
  graph_ : PluginGraph;
  pathsCache_ : gset (vertex_t * vertex_t);
  groups_ : list Group;
  logger_ : bool;
}.

Definition source (e : vertex_t * vertex_t * EdgeType) : vertex_t := fst (fst e).
Definition target (e : vertex_t * vertex_t * EdgeType) : vertex_t := snd (fst e).

(** [boost::adjacent_vertices] and [boost::inv_adjacent_vertices]. *)
Definition adjacent_vertices (v : vertex_t) (g : PluginGraph) : list vertex_t :=
  List.map target (List.filter (fun e => Nat.eqb (source e) v) (edges g)).

Definition inv_adjacent_vertices (v : vertex_t) (g : PluginGraph) : list vertex_t :=
  List.map source (List.filter (fun e => Nat.eqb (target e) v) (edges g)).

(** [boost::edge(u, v, graph_).second]. *)
Definition has_edge (u v : vertex_t) (g : PluginGraph) : bool :=
  existsb (fun e => Nat.eqb (source e) u && Nat.eqb (target e) v) (edges g).

(** [boost::add_edge]. *)
Definition add_edge (u v : vertex_t) (edgeType : EdgeType) (g : PluginGraph) : PluginGraph :=
  {| vertices := vertices g; edges := edges g ++ [(u, v, edgeType)] |}.

Definition with_cache (cache : gset (vertex_t * vertex_t)) (s : PluginSorter) : PluginSorter :=
  {| graph_ := graph_ s; pathsCache_ := cache; groups_ := groups_ s; logger_ := logger_ s |}.

Definition AddEdge (fromVertex toVertex : vertex_t) (edgeType : EdgeType)
    (s : PluginSorter) : PluginSorter :=
  let graphPath := (fromVertex, toVertex) in
  if decide (graphPath ∈ pathsCache_ s) then s
  else
    {| graph_ := add_edge fromVertex toVertex edgeType (graph_ s);
       pathsCache_ := {[graphPath]} ∪ pathsCache_ s;
       groups_ := groups_ s;
       logger_ := logger_ s |}.

(** The state of the two breadth-first searches of [EdgeCreatesCycle]. *)
Record Search : Type := {
  forwardQueue : list vertex_t;
  reverseQueue : list vertex_t;
  forwardVisited : gset vertex_t;
  reverseVisited : gset vertex_t;
  searchCache : gset (vertex_t * vertex_t);
}.

(** The [for] loop over the vertices adjacent to the one taken from the
    forward queue. *)
Fixpoint expand_forward (start : vertex_t) (adjacent : list vertex_t)
    (queue : list vertex_t) (visited : gset vertex_t) (cache : gset (vertex_t * vertex_t))
    : list vertex_t * gset vertex_t * gset (vertex_t * vertex_t) :=
  match adjacent with
  | [] => (queue, visited, cache)
  | adjacentV :: rest =>
      if decide (adjacentV ∈ visited) then expand_forward start rest queue visited cache
      else expand_forward start rest (queue ++ [adjacentV]) ({[adjacentV]} ∪ visited)
             ({[(start, adjacentV)]} ∪ cache)
  end.

(** The same over the vertices with an edge into the one taken from the
    reverse queue. *)
Fixpoint expand_reverse (end_ : vertex_t) (adjacent : list vertex_t)
    (queue : list vertex_t) (visited : gset vertex_t) (cache : gset (vertex_t * vertex_t))
    : list vertex_t * gset vertex_t * gset (vertex_t * vertex_t) :=
  match adjacent with
  | [] => (queue, visited, cache)
  | adjacentV :: rest =>
      if decide (adjacentV ∈ visited) then expand_reverse end_ rest queue visited cache
      else expand_reverse end_ rest (queue ++ [adjacentV]) ({[adjacentV]} ∪ visited)
             ({[(adjacentV, end_)]} ∪ cache)
  end.

(** The [while] loop; [None] when the iteration budget is used up. *)
Fixpoint search_loop (fuel : nat) (g : PluginGraph) (start end_ : vertex_t) (st : Search)
    : option (bool * gset (vertex_t * vertex_t)) :=
  match fuel with
  | O => None
  | S fuel' =>
      match forwardQueue st, reverseQueue st with
      | v :: forwardRest, w :: reverseRest =>
          if Nat.eqb v end_ || bool_decide (v ∈ reverseVisited st)
          then Some (true, searchCache st)
          else
            let '(fq, fv, cache) :=
              expand_forward start (adjacent_vertices v g) forwardRest
                (forwardVisited st) (searchCache st) in
            if Nat.eqb w start || bool_decide (w ∈ fv)
            then Some (true, cache)
            else
              let '(rq, rv, cache) :=
                expand_reverse end_ (inv_adjacent_vertices w g) reverseRest
                  (reverseVisited st) cache in
              search_loop fuel' g start end_
                {| forwardQueue := fq; reverseQueue := rq;
                   forwardVisited := fv; reverseVisited := rv;
                   searchCache := cache |}
      | _, _ => Some (false, searchCache st)
      end
  end.

(** Every iteration takes one vertex off the forward queue and a vertex
    enters that queue once: the number of edges bounds the iterations. *)
Definition search_fuel (g : PluginGraph) : nat := S (S (List.length (edges g))).

Definition EdgeCreatesCycle (fromVertex toVertex : vertex_t) (s : PluginSorter)
    : bool * PluginSorter :=
  if decide ((toVertex, fromVertex) ∈ pathsCache_ s) then (true, s)
  else
    let start := toVertex in
    let end_ := fromVertex in
    let st := {| forwardQueue := [start]; reverseQueue := [end_];
                 forwardVisited := {[start]}; reverseVisited := {[end_]};
                 searchCache := pathsCache_ s |} in
    match search_loop (search_fuel (graph_ s)) (graph_ s) start end_ st with
    | Some (answer, cache) => (answer, with_cache cache s)
    | None => (false, s)
    end.

Definition empty_sorter (plugins : list PluginSortingData.t) (groups : list Group)
    (logger : bool) : PluginSorter :=
  {| graph_ := {| vertices := plugins; edges := [] |};
     pathsCache_ := ∅; groups_ := groups; logger_ := logger |}.

Definition three_plugins : list PluginSortingData.t :=
  [PluginSortingData.plain "A.esm" true None;
   PluginSortingData.plain "B.esp" false None;
   PluginSortingData.plain "C.esp" false None].

Definition chain_sorter : PluginSorter :=
  AddEdge 1 2 master (AddEdge 0 1 masterFlag (empty_sorter three_plugins [] false)).

Definition four_plugins : list PluginSortingData.t :=
  three_plugins ++ [PluginSortingData.plain "D.esp" false None].

Definition long_chain_sorter : PluginSorter :=
  AddEdge 2 3 master
    (AddEdge 1 2 master (AddEdge 0 1 masterFlag (empty_sorter four_plugins [] false))).

(** *** Paths in the plugin graph *)

Definition edge (g : PluginGraph) (a b : vertex_t) : Prop :=
  exists edgeType, (a, b, edgeType) ∈ edges g.

(** A directed path with at least one edge, and one with any number. *)
Definition path (g : PluginGraph) : vertex_t -> vertex_t -> Prop := tc (edge g).
Definition reaches (g : PluginGraph) : vertex_t -> vertex_t -> Prop := rtc (edge g).

Definition sound_cache (g : PluginGraph) (cache : gset (vertex_t * vertex_t)) : Prop :=
  forall a b, (a, b) ∈ cache -> path g a b.

(** The invariant of the sorter: every cached pair is joined by a path. *)
Definition cache_sound (s : PluginSorter) : Prop :=
  sound_cache (graph_ s) (pathsCache_ s).

Record search_invariant (g : PluginGraph) (start end_ : vertex_t) (st : Search) : Prop := {
  forward_queue_reached : forall x, x ∈ forwardQueue st -> reaches g start x;
  forward_visited_reached : forall x, x ∈ forwardVisited st -> reaches g start x;
  reverse_queue_reaches : forall x, x ∈ reverseQueue st -> reaches g x end_;
  reverse_visited_reaches : forall x, x ∈ reverseVisited st -> reaches g x end_;
  search_cache_sound : sound_cache g (searchCache st);
}.

(** The vertices some edge leads to: all a forward search can add to its
    queue. *)
Definition targets (g : PluginGraph) : gset vertex_t :=
  list_to_set (List.map target (edges g)).

(** *** What one sorter operation may change *)

(** Vertices, groups and the logger stay; edges are only added; a sound
    paths cache stays sound. *)
Record sorter_step (s s' : PluginSorter) : Prop := {
  step_vertices : vertices (graph_ s') = vertices (graph_ s);
  step_groups : groups_ s' = groups_ s;
  step_logger : logger_ s' = logger_ s;
  step_edges : exists added, edges (graph_ s') = edges (graph_ s) ++ added;
  step_cache : cache_sound s -> cache_sound s';
}.

(** *** The edge-adding phases *)

Fixpoint find_vertex (name : string) (plugins : list PluginSortingData.t) (v : vertex_t)
    : option vertex_t :=
  match plugins with
  | [] => None
  | plugin :: rest =>
      if Z.eqb (CompareFilenames (PluginSortingData.GetName plugin) name) 0
      then Some v
      else find_vertex name rest (S v)
  end.

Definition GetVertexByName (name : string) (s : PluginSorter) : option vertex_t :=
  find_vertex name (vertices (graph_ s)) 0.

(** [boost::vertices(graph_)] with the property of each vertex. *)
Definition indexed_vertices (s : PluginSorter) : list (vertex_t * PluginSortingData.t) :=
  List.combine (List.seq 0 (List.length (vertices (graph_ s)))) (vertices (graph_ s)).

(** [graph_[v]], for a descriptor the graph handed out. *)
Definition vertex_property (s : PluginSorter) (v : vertex_t) : PluginSortingData.t :=
  List.nth v (vertices (graph_ s)) (PluginSortingData.plain "" false None).

(** The loops of the form "for every name, add an edge from the vertex of
    that name, if there is one". *)
Definition add_edges_from_named (names : list string) (vertex : vertex_t)
    (edgeType : EdgeType) (s : PluginSorter) : PluginSorter :=
  List.fold_left
    (fun s name =>
       match GetVertexByName name s with
       | Some parentVertex => AddEdge parentVertex vertex edgeType s
       | None => s
       end)
    names s.

Definition add_master_flag_edges (vit : vertex_t * PluginSortingData.t)
    (from_vit : list (vertex_t * PluginSortingData.t)) (s : PluginSorter) : PluginSorter :=
  List.fold_left
    (fun s vit2 =>
       if Bool.eqb (PluginSortingData.IsMaster (snd vit)) (PluginSortingData.IsMaster (snd vit2))
       then s
       else if PluginSortingData.IsMaster (snd vit2)
       then AddEdge (fst vit2) (fst vit) masterFlag s
       else AddEdge (fst vit) (fst vit2) masterFlag s)
    from_vit s.

Fixpoint AddSpecificEdges_from (vits : list (vertex_t * PluginSortingData.t))
    (s : PluginSorter) : PluginSorter :=
  match vits with
  | [] => s
  | vit :: rest =>
      let plugin := snd vit in
      let s := add_master_flag_edges vit (vit :: rest) s in
      let s := add_edges_from_named (PluginSortingData.GetMasters plugin) (fst vit) master s in
      let s := add_edges_from_named
                 (List.map File.GetName (PluginSortingData.GetMasterlistRequirements plugin))
                 (fst vit) masterlistRequirement s in
      let s := add_edges_from_named
                 (List.map File.GetName (PluginSortingData.GetUserRequirements plugin))
                 (fst vit) userRequirement s in
      let s := add_edges_from_named
                 (List.map File.GetName (PluginSortingData.GetMasterlistLoadAfterFiles plugin))
                 (fst vit) masterlistLoadAfter s in
      let s := add_edges_from_named
                 (List.map File.GetName (PluginSortingData.GetUserLoadAfterFiles plugin))
                 (fst vit) userLoadAfter s in
      AddSpecificEdges_from rest s
  end.

Definition AddSpecificEdges (s : PluginSorter) : PluginSorter :=
  AddSpecificEdges_from (indexed_vertices s) s.

(** The game as [AddHardcodedPluginEdges] sees it. A file is named
    relative to [game.DataPath()]; [canonical] is [None] where
    [std::filesystem::canonical] throws; [equivalent] is [loot::equivalent]. *)
Record Game : Type := {
  Type_ : GameType;
  GetLoadOrderHandler : LoadOrderHandler;
  file_exists : string -> bool;
  canonical : string -> option string;
  equivalent : string -> string -> bool;
}.

Definition no_canonical_path (file : string) : exn :=
  FilesystemError ("filesystem error: cannot make canonical path: " +:+ file).

(** The inner loop: edges from the hardcoded plugin to every vertex whose
    file is not among the processed ones. *)
Fixpoint add_hardcoded_edges_from (game : Game) (pluginVertex : vertex_t)
    (processedPluginPaths : list string)
    (vits : list (vertex_t * PluginSortingData.t)) : StateExn PluginSorter unit :=
  match vits with
  | [] => ret tt
  | vit :: rest =>
      let graphPluginPath := PluginSortingData.GetName (snd vit) in
      let graphPluginPath :=
        if negb (file_exists game graphPluginPath)
        then graphPluginPath +:+ ".ghost" else graphPluginPath in
      if negb (file_exists game graphPluginPath)
      then add_hardcoded_edges_from game pluginVertex processedPluginPaths rest
      else
        match canonical game graphPluginPath with
        | None => throw (no_canonical_path graphPluginPath)
        | Some canonicalPath =>
            (if existsb (String.eqb canonicalPath) processedPluginPaths
             then ret tt
             else modify (AddEdge pluginVertex (fst vit) hardcoded)) ;;;
            add_hardcoded_edges_from game pluginVertex processedPluginPaths rest
        end
  end.

Fixpoint AddHardcodedPluginEdges_loop (game : Game) (implicitlyActivePlugins : list string)
    (processedPluginPaths : list string) : StateExn PluginSorter unit :=
  match implicitlyActivePlugins with
  | [] => ret tt
  | plugin :: rest =>
      match canonical game plugin with
      | None =>
          (* the canonical path could not be determined *)
          AddHardcodedPluginEdges_loop game rest processedPluginPaths
      | Some canonicalPath =>
          let processedPluginPaths := canonicalPath :: processedPluginPaths in
          s <- get ;;
          let add_edges :=
            match GetVertexByName plugin s with
            | None =>
                (* the plugin has not been loaded *)
                AddHardcodedPluginEdges_loop game rest processedPluginPaths
            | Some pluginVertex =>
                add_hardcoded_edges_from game pluginVertex processedPluginPaths
                  (indexed_vertices s) ;;;
                AddHardcodedPluginEdges_loop game rest processedPluginPaths
            end in
          if GameType_eqb (Type_ game) tes5 && equivalent game plugin "update.esm"
          then
            if logger_ s
            then
              (* the trace message, then [continue] *)
              AddHardcodedPluginEdges_loop game rest processedPluginPaths
            else add_edges
          else add_edges
      end
  end.

Definition AddHardcodedPluginEdges (game : Game) : StateExn PluginSorter unit :=
  AddHardcodedPluginEdges_loop game
    (GetImplicitlyActivePlugins (GetLoadOrderHandler game)) [].

Definition find_group (name : string) (groups : list Group) : option Group :=
  List.find (fun g => String.eqb (group_name g) name) groups.

Definition shouldIgnorePlugin (group pluginName : string)
    (groupPluginsToIgnore : gmap string (gset string)) : bool :=
  match groupPluginsToIgnore !! group with
  | Some pluginsToIgnore => bool_decide (pluginName ∈ pluginsToIgnore)
  | None => false
  end.

Definition shouldIgnoreGroupEdge (fromPlugin toPlugin : PluginSortingData.t)
    (groupPluginsToIgnore : gmap string (gset string)) : bool :=
  shouldIgnorePlugin (PluginSortingData.GetGroup fromPlugin)
    (PluginSortingData.GetName toPlugin) groupPluginsToIgnore ||
  shouldIgnorePlugin (PluginSortingData.GetGroup toPlugin)
    (PluginSortingData.GetName fromPlugin) groupPluginsToIgnore.

Definition ignorePlugin (pluginName : string) (groups : list string)
    (groupPluginsToIgnore : gmap string (gset string)) : gmap string (gset string) :=
  List.fold_left
    (fun ignored group =>
       match ignored !! group with
       | Some pluginsToIgnore => <[group := {[pluginName]} ∪ pluginsToIgnore]> ignored
       | None => <[group := {[pluginName]}]> ignored
       end)
    groups groupPluginsToIgnore.

(** [pathfinder] recurses along after-groups. The result is [None] where
    the C++ has no defined result: an after-group that [groups.find] does
    not find is dereferenced, and on a cyclic group graph the recursion does
    not end (the budget is one call per group and one more). *)
Fixpoint pathfinder (fuel : nat) (group : Group) (targetGroupName : string)
    (groups : list Group) (visitedGroups : gset string) : option (gset string) :=
  match fuel with
  | O => None
  | S fuel' =>
      if String.eqb (group_name group) targetGroupName then Some visitedGroups
      else
        match group_after group with
        | [] => Some ∅
        | afterGroups =>
            let visitedGroups := {[group_name group]} ∪ visitedGroups in
            let merged :=
              List.fold_left
                (fun mergedVisitedGroups afterGroupName =>
                   match mergedVisitedGroups, find_group afterGroupName groups with
                   | Some merged, Some afterGroup =>
                       match pathfinder fuel' afterGroup targetGroupName groups
                               visitedGroups with
                       | Some recursedVisitedGroups => Some (merged ∪ recursedVisitedGroups)
                       | None => None
                       end
                   | _, _ => None
                   end)
                afterGroups (Some ∅) in
            match merged with
            | None => None
            | Some mergedVisitedGroups =>
                if decide (mergedVisitedGroups = ∅) then Some mergedVisitedGroups
                else Some (visitedGroups ∪ mergedVisitedGroups)
            end
        end
  end.

Definition getGroupsInPaths (groups : list Group) (firstGroupName lastGroupName : string)
    : option (gset string) :=
  match find_group lastGroupName groups with
  | None => None
  | Some lastGroup =>
      match pathfinder (S (List.length groups)) lastGroup firstGroupName groups ∅ with
      | None => None
      | Some groupsInPaths => Some (groupsInPaths ∖ {[lastGroupName]})
      end
  end.

(** The state of the first loop of [AddGroupEdges]. *)
Record GroupScan : Type := {
  scanSorter : PluginSorter;
  acyclicEdgePairs : list (vertex_t * vertex_t);
  groupPluginsToIgnore : gmap string (gset string);
}.

Definition scan_after_group_plugin (vertex : vertex_t) (scan : option GroupScan)
    (pluginName : string) : option GroupScan :=
  match scan with
  | None => None
  | Some scan =>
      let s := scanSorter scan in
      match GetVertexByName pluginName s with
      | None => Some scan
      | Some parentVertex =>
          let '(cyclic, s) := EdgeCreatesCycle parentVertex vertex s in
          if cyclic then
            let fromPlugin := vertex_property s parentVertex in
            let toPlugin := vertex_property s vertex in
            let skipped :=
              {| scanSorter := s; acyclicEdgePairs := acyclicEdgePairs scan;
                 groupPluginsToIgnore := groupPluginsToIgnore scan |} in
            if negb (PluginSortingData.IsMaster fromPlugin) &&
               PluginSortingData.IsMaster toPlugin
            then Some skipped
            else
              let ignore pluginToIgnore :=
                match getGroupsInPaths (groups_ s)
                        (PluginSortingData.GetGroup fromPlugin)
                        (PluginSortingData.GetGroup toPlugin) with
                | None => None
                | Some groupsInPaths =>
                    Some {| scanSorter := s; acyclicEdgePairs := acyclicEdgePairs scan;
                            groupPluginsToIgnore :=
                              ignorePlugin pluginToIgnore (elements groupsInPaths)
                                (groupPluginsToIgnore scan) |}
                end in
              if String.eqb (PluginSortingData.GetGroup toPlugin) default_group_name
              then ignore (PluginSortingData.GetName toPlugin)
              else if String.eqb (PluginSortingData.GetGroup fromPlugin) default_group_name
              then ignore (PluginSortingData.GetName fromPlugin)
              else
                (* neither plugin is in the default group: ignore neither *)
                Some skipped
          else
            Some {| scanSorter := s;
                    acyclicEdgePairs := acyclicEdgePairs scan ++ [(parentVertex, vertex)];
                    groupPluginsToIgnore := groupPluginsToIgnore scan |}
      end
  end.

Definition scan_vertex (scan : option GroupScan) (vit : vertex_t * PluginSortingData.t)
    : option GroupScan :=
  List.fold_left (scan_after_group_plugin (fst vit))
    (PluginSortingData.GetAfterGroupPlugins (snd vit)) scan.

Definition add_acyclic_group_edge (ignored : gmap string (gset string))
    (s : PluginSorter) (edgePair : vertex_t * vertex_t) : PluginSorter :=
  let fromPlugin := vertex_property s (fst edgePair) in
  let toPlugin := vertex_property s (snd edgePair) in
  if negb (shouldIgnoreGroupEdge fromPlugin toPlugin ignored)
  then AddEdge (fst edgePair) (snd edgePair) group s
  else s.

Definition AddGroupEdges (s : PluginSorter) : option PluginSorter :=
  let start := {| scanSorter := s; acyclicEdgePairs := [];
                  groupPluginsToIgnore := ∅ |} in
  match List.fold_left scan_vertex (indexed_vertices s) (Some start) with
  | None => None
  | Some scan =>
      Some (List.fold_left (add_acyclic_group_edge (groupPluginsToIgnore scan))
              (acyclicEdgePairs scan) (scanSorter scan))
  end.

Definition add_overlap_edge (vit : vertex_t * PluginSortingData.t) (s : PluginSorter)
    (vit2 : vertex_t * PluginSortingData.t) : PluginSorter :=
  let vertex := fst vit in
  let otherVertex := fst vit2 in
  if Nat.eqb vertex otherVertex ||
     has_edge vertex otherVertex (graph_ s) ||
     has_edge otherVertex vertex (graph_ s) ||
     Nat.eqb (PluginSortingData.NumOverrideFormIDs (snd vit))
             (PluginSortingData.NumOverrideFormIDs (snd vit2)) ||
     negb (PluginSortingData.DoFormIDsOverlap (snd vit) (snd vit2))
  then s
  else
    let '(fromVertex, toVertex) :=
      if (PluginSortingData.NumOverrideFormIDs (snd vit2) <?
          PluginSortingData.NumOverrideFormIDs (snd vit))%nat
      then (vertex, otherVertex) else (otherVertex, vertex) in
    let '(cyclic, s) := EdgeCreatesCycle fromVertex toVertex s in
    if negb cyclic then AddEdge fromVertex toVertex overlap s else s.

Fixpoint AddOverlapEdges_from (vits : list (vertex_t * PluginSortingData.t))
    (s : PluginSorter) : PluginSorter :=
  match vits with
  | [] => s
  | vit :: rest =>
      if Nat.eqb (PluginSortingData.NumOverrideFormIDs (snd vit)) 0
      then AddOverlapEdges_from rest s
      else AddOverlapEdges_from rest (List.fold_left (add_overlap_edge vit) rest s)
  end.

Definition AddOverlapEdges (s : PluginSorter) : PluginSorter :=
  AddOverlapEdges_from (indexed_vertices s) s.

Fixpoint add_tie_break_edges (vit : vertex_t * PluginSortingData.t)
    (later : list (vertex_t * PluginSortingData.t)) : StateExn PluginSorter unit :=
  match later with
  | [] => ret tt
  | vit2 :: rest =>
      order <- lift (ComparePlugins (snd vit) (snd vit2)) ;;
      let '(fromVertex, toVertex) :=
        if (order <? 0)%Z then (fst vit, fst vit2) else (fst vit2, fst vit) in
      modify (fun s =>
                let '(cyclic, s) := EdgeCreatesCycle fromVertex toVertex s in
                if negb cyclic then AddEdge fromVertex toVertex tieBreak s else s) ;;;
      add_tie_break_edges vit rest
  end.

Fixpoint AddTieBreakEdges_from (vits : list (vertex_t * PluginSortingData.t))
    : StateExn PluginSorter unit :=
  match vits with
  | [] => ret tt
  | vit :: rest => add_tie_break_edges vit rest ;;; AddTieBreakEdges_from rest
  end.

Definition AddTieBreakEdges : StateExn PluginSorter unit :=
  s <- get ;; AddTieBreakEdges_from (indexed_vertices s).

(** A computation all of whose outcomes, normal or exceptional, are sorter
    steps away from where it started. *)
Definition preserves {A} (m : StateExn PluginSorter A) : Prop :=
  forall s r s', m s = (r, s') -> sorter_step s s'.

(** The edge construction of [PluginSorter::Sort], from [AddSpecificEdges]
    to [AddTieBreakEdges]. [None] stands for a run without a defined result
    (see [pathfinder]); an exception ends the run with the state reached. *)
Definition add_all_edges (game : Game) (s : PluginSorter)
    : option (Result unit * PluginSorter) :=
  let s := AddSpecificEdges s in
  match AddHardcodedPluginEdges game s with
  | (Err e, s) => Some (Err e, s)
  | (Ok _, s) =>
      match AddGroupEdges s with
      | None => None
      | Some s => Some (AddTieBreakEdges (AddOverlapEdges s))
      end
  end.

(** ** Group resolver

    [GetTransitiveAfterGroups] lives in [api/sorting/group_sort.cpp], which
    is not under src/; only its test is. *)

Module GroupSort.

(** The part of the visited stack that closes the cycle: from the repeated
    group to the top. *)
Fixpoint cycle_from (name : string) (stack : list string) : list string :=
  match stack with
  | [] => []
  | top :: rest => if String.eqb top name then stack else cycle_from name rest
  end.

Definition load_after_step (name : string) : Vertex :=
  {| Vertex_GetName := name; GetTypeOfEdgeToNextVertex := LoadAfter |}.

Definition on_stack (name : string) (stack : list string) : bool :=
  existsb (String.eqb name) stack.

(** Run [f] over a list, combining the results, until one call throws or
    runs out of budget. *)
Definition fold_results {A B C} (f : A -> option (Result B)) (combine : C -> A -> B -> C)
    (l : list A) (start : option (Result C)) : option (Result C) :=
  List.fold_left
    (fun acc x =>
       match acc with
       | Some (Ok c) =>
           match f x with
           | Some (Ok b) => Some (Ok (combine c x b))
           | Some (Err e) => Some (Err e)
           | None => None
           end
       | _ => acc
       end)
    l start.

(** Modelled from the spec: the depth-first traversal of
    [GetTransitiveAfterGroups], which is missing from src/. It keeps the
    stack of groups being visited; visiting a group that is on the stack
    raises [CyclicInteractionError] with the groups of the cycle in order,
    each annotated [LoadAfter]; an after-group that is not defined raises
    [UndefinedGroupError]; otherwise the result is the set of groups
    reached. [None] means the call budget ran out. *)
Fixpoint visit (fuel : nat) (groups : list Group) (stack : list string) (name : string)
    : option (Result (gset string)) :=
  match fuel with
  | O => None
  | S fuel' =>
      if on_stack name stack
      then Some (Err (CyclicInteractionError
                        (List.map load_after_step (cycle_from name stack))))
      else
        match find_group name groups with
        | None => Some (Err (UndefinedGroupError name))
        | Some g =>
            fold_results (visit fuel' groups (stack ++ [name]))
              (fun reached afterName further => reached ∪ {[afterName]} ∪ further)
              (group_after g) (Some (Ok ∅))
        end
  end.

(** Modelled from the spec: [GetTransitiveAfterGroups], missing from src/,
    maps every group to the transitive closure of its after-groups, visiting
    the groups in the order given. *)
Definition GetTransitiveAfterGroups (groups : list Group)
    : option (Result (gmap string (gset string))) :=
  fold_results (fun g => visit (S (List.length groups)) groups [] (group_name g))
    (fun mapped g reached => <[group_name g := reached]> mapped)
    groups (Some (Ok ∅)).

Definition make_group (name : string) (after : list string) : Group :=
  {| group_name := name; group_after := after |}.

Definition chain_groups : list Group :=
  [make_group "a" []; make_group "b" ["a"]; make_group "c" ["b"]].

Definition cyclic_groups : list Group :=
  [make_group "a" ["c"]; make_group "b" ["a"]; make_group "c" ["b"]].

(** A group that loads after itself beside one whose after-group is not
    defined. *)
Definition half_defined_groups : list Group :=
  [make_group "b" ["zzz"]; make_group "a" ["a"]].

(** *** The after-relation and chains of groups *)

Definition after (groups : list Group) (x y : string) : Prop :=
  exists g, find_group x groups = Some g /\ In y (group_after g).

Definition defined (groups : list Group) (name : string) : Prop :=
  exists g, find_group name groups = Some g.

(** Every after-group that is referred to is defined. *)
Definition all_defined (groups : list Group) : Prop :=
  forall x y, after groups x y -> defined groups y.

(** Each group of the list has the next one among its after-groups. *)
Fixpoint chained (groups : list Group) (names : list string) : Prop :=
  match names with
  | x :: (y :: _) as rest => after groups x y /\ chained groups rest
  | _ => True
  end.

(** A cycle of the after-relation, listed once around. *)
Definition after_cycle (groups : list Group) (names : list string) : Prop :=
  names <> [] /\ chained groups names /\
  after groups (List.last names "") (List.hd "" names).

End GroupSort.

(** ** Games, sorters and databases for the worked runs *)

(** A Skyrim installation with [Skyrim.esm], [Update.esm] and [Foo.esp] in
    the data directory, on a file system that tells names apart by case;
    [loot::equivalent] compares names without regard to case. *)
Definition skyrim_files : list string := ["Skyrim.esm"; "Update.esm"; "Foo.esp"].

Definition skyrim_game : Game :=
  {| Type_ := tes5;
     GetLoadOrderHandler := sample_loadOrderHandler;
     file_exists := fun file => existsb (String.eqb file) skyrim_files;
     canonical := fun file =>
       if existsb (String.eqb file) skyrim_files then Some file else None;
     equivalent := fun a b => Z.eqb (CompareFilenames a b) 0 |}.

Definition skyrim_plugins : list PluginSortingData.t :=
  [PluginSortingData.plain "Skyrim.esm" true (Some 0%nat);
   PluginSortingData.plain "Update.esm" true (Some 1%nat);
   PluginSortingData.plain "Foo.esp" false (Some 2%nat)].

Definition skyrim_sorter (logger : bool) : PluginSorter :=
  empty_sorter skyrim_plugins [] logger.

(** A Skyrim installation whose plugins are all masters: [Skyrim.esm],
    [Early.esm], newly installed and without a load order position yet, and
    [Update.esm]; the last two have [Skyrim.esm] as their master.
    [masters_sorter] is the sorter as [Sort] leaves it after
    [AddPluginVertices]: the vertices, no edge, an empty paths cache. *)
Definition masters_files : list string := ["Skyrim.esm"; "Early.esm"; "Update.esm"].

Definition masters_game : Game :=
  {| Type_ := tes5;
     GetLoadOrderHandler := sample_loadOrderHandler;
     file_exists := fun file => existsb (String.eqb file) masters_files;
     canonical := fun file =>
       if existsb (String.eqb file) masters_files then Some file else None;
     equivalent := fun a b => Z.eqb (CompareFilenames a b) 0 |}.

Definition master_plugin (name : string) (masters : list string) (index : option nat)
    : PluginSortingData.t :=
  {| PluginSortingData.GetName := name;
     PluginSortingData.IsMaster := true;
     PluginSortingData.GetMasters := masters;
     PluginSortingData.GetLoadOrderIndex := index;
     PluginSortingData.GetGroup := default_group_name;
     PluginSortingData.GetAfterGroupPlugins := [];
     PluginSortingData.GetMasterlistRequirements := [];
     PluginSortingData.GetUserRequirements := [];
     PluginSortingData.GetMasterlistLoadAfterFiles := [];
     PluginSortingData.GetUserLoadAfterFiles := [];
     PluginSortingData.GetOverrideFormIDs := [] |}.

Definition masters_plugins : list PluginSortingData.t :=
  [master_plugin "Skyrim.esm" [] (Some 0%nat);
   master_plugin "Early.esm" ["Skyrim.esm"] None;
   master_plugin "Update.esm" ["Skyrim.esm"] (Some 1%nat)].

Definition masters_sorter (logger : bool) : PluginSorter :=
  empty_sorter masters_plugins [] logger.

(** The vertex of an implicitly active plugin that is not equivalent to
    update.esm. *)
Definition hardcoded_source (game : Game) (s : PluginSorter) (v : vertex_t) : Prop :=
  exists plugin,
    In plugin (GetImplicitlyActivePlugins (GetLoadOrderHandler game)) /\
    equivalent game plugin "update.esm" = false /\
    GetVertexByName plugin s = Some v.

Record hardcoded_only (game : Game) (s0 s : PluginSorter) : Prop := {
  hardcoded_vertices : vertices (graph_ s) = vertices (graph_ s0);
  hardcoded_logger : logger_ s = logger_ s0;
  hardcoded_added : exists added,
    edges (graph_ s) = edges (graph_ s0) ++ added /\
    Forall (fun e => snd e = hardcoded /\ hardcoded_source game s0 (source e)) added;
}.

(** A database over two documents on disk, for the worked runs: lookup is by
    exact name without regard to case, and merging appends the user's
    messages to the masterlist's. *)
Definition with_message (name content : string) : PluginMetadata.t :=
  PluginMetadata.SetMessages
    [{| Message.GetType := say; Message.GetContent := [("en", content)];
        Message.GetCondition := "" |}]
    (PluginMetadata.make name).

Definition sample_masterlist : Masterlist :=
  {| MetadataList.groups_ := []; MetadataList.bashTags_ := [];
     MetadataList.plugins_ := [with_message "Foo.esp" "from the masterlist"];
     MetadataList.regexPlugins_ := []; MetadataList.messages_ := [];
     MetadataList.unevaluatedPlugins_ := [with_message "Foo.esp" "from the masterlist"];
     MetadataList.unevaluatedRegexPlugins_ := [];
     MetadataList.unevaluatedMessages_ := [] |}.

Definition sample_userlist : MetadataList.t :=
  {| MetadataList.groups_ := []; MetadataList.bashTags_ := [];
     MetadataList.plugins_ :=
       [with_message "Foo.esp" "from the user"; with_message "Bar.esp" "only the user"];
     MetadataList.regexPlugins_ := []; MetadataList.messages_ := [];
     MetadataList.unevaluatedPlugins_ :=
       [with_message "Foo.esp" "from the user"; with_message "Bar.esp" "only the user"];
     MetadataList.unevaluatedRegexPlugins_ := [];
     MetadataList.unevaluatedMessages_ := [] |}.

Definition sample_database_host : DatabaseHost :=
  {| path_exists := fun path =>
       String.eqb path "masterlist.yaml" || String.eqb path "userlist.yaml" ||
       String.eqb path "broken.yaml";
     Masterlist_Load := fun _ path =>
       if String.eqb path "masterlist.yaml" then Ok sample_masterlist
       else Err (FileAccessError "masterlist parsing failed");
     MetadataList_Load := fun _ path =>
       if String.eqb path "userlist.yaml" then Ok sample_userlist
       else Err (FileAccessError "userlist parsing failed");
     FindPlugin := fun list name =>
       List.find (fun m => Z.eqb (CompareFilenames (PluginMetadata.GetName m) name) 0)
         (MetadataList.plugins_ list);
     MergeMetadata := fun m u =>
       PluginMetadata.SetMessages
         (PluginMetadata.GetMessages m ++ PluginMetadata.GetMessages u) m;
     EvaluateAll := evaluateAll sample_host |}.

Definition empty_database : ApiDatabase :=
  {| masterlist_ := MetadataList.empty; userlist_ := MetadataList.empty;
     conditionEvaluator_ := live_evaluator |}.

Definition loaded_database : ApiDatabase :=
  {| masterlist_ := sample_masterlist; userlist_ := sample_userlist;
     conditionEvaluator_ := live_evaluator |}.

(** ** Further definitions for the sorter's properties *)

(** No vertex lies on a cycle. *)
Definition acyclic (g : PluginGraph) : Prop := forall v, ~ path g v v.

(** Two vertices joined by a path, one way or the other. *)
Definition connected (g : PluginGraph) (u v : vertex_t) : Prop :=
  path g u v \/ path g v u.

(** What the forward half of a search has established: the start is
    visited, and a visited vertex either waits in the queue or is not the
    end and has all its successors visited. *)
Record forward_progress (g : PluginGraph) (start end_ : vertex_t) (st : Search) : Prop := {
  forward_start : start ∈ forwardVisited st;
  forward_expanded : forall x, x ∈ forwardVisited st ->
    x ∈ forwardQueue st \/ (x <> end_ /\ forall y, edge g x y -> y ∈ forwardVisited st);
}.

Record reverse_progress (g : PluginGraph) (start end_ : vertex_t) (st : Search) : Prop := {
  reverse_end : end_ ∈ reverseVisited st;
  reverse_expanded : forall x, x ∈ reverseVisited st ->
    x ∈ reverseQueue st \/ (x <> start /\ forall y, edge g y x -> y ∈ reverseVisited st);
}.

(** The files a plugin is to load after, by its own masters and by its
    metadata, in the order [AddSpecificEdges] goes through them. *)
Definition specified_parents (plugin : PluginSortingData.t) : list string :=
  PluginSortingData.GetMasters plugin ++
  List.map File.GetName (PluginSortingData.GetMasterlistRequirements plugin) ++
  List.map File.GetName (PluginSortingData.GetUserRequirements plugin) ++
  List.map File.GetName (PluginSortingData.GetMasterlistLoadAfterFiles plugin) ++
  List.map File.GetName (PluginSortingData.GetUserLoadAfterFiles plugin).

(** What the overlap phase may add: overlap edges between two vertices of
    overlapping plugins, from the one that overrides more records. *)
Definition overlap_edge (s0 : PluginSorter) (e : vertex_t * vertex_t * EdgeType) : Prop :=
  snd e = overlap /\
  exists fromPlugin toPlugin,
    (source e, fromPlugin) ∈ indexed_vertices s0 /\
    (target e, toPlugin) ∈ indexed_vertices s0 /\
    (PluginSortingData.NumOverrideFormIDs toPlugin <
     PluginSortingData.NumOverrideFormIDs fromPlugin)%nat /\
    (PluginSortingData.DoFormIDsOverlap fromPlugin toPlugin = true \/
     PluginSortingData.DoFormIDsOverlap toPlugin fromPlugin = true).

Record overlap_only (s0 s : PluginSorter) : Prop := {
  overlap_vertices : vertices (graph_ s) = vertices (graph_ s0);
  overlap_added : exists added,
    edges (graph_ s) = edges (graph_ s0) ++ added /\ Forall (overlap_edge s0) added;
}.

(** Three plugins for the worked runs: a master, a plugin that names it as
    its master and overrides two of its records, and a plugin that
    overrides one of the two. *)
Definition with_masters_and_overrides (name : string) (master : bool)
    (masters : list string) (overrides : list Z) : PluginSortingData.t :=
  {| PluginSortingData.GetName := name;
     PluginSortingData.IsMaster := master;
     PluginSortingData.GetMasters := masters;
     PluginSortingData.GetLoadOrderIndex := None;
     PluginSortingData.GetGroup := default_group_name;
     PluginSortingData.GetAfterGroupPlugins := [];
     PluginSortingData.GetMasterlistRequirements := [];
     PluginSortingData.GetUserRequirements := [];
     PluginSortingData.GetMasterlistLoadAfterFiles := [];
     PluginSortingData.GetUserLoadAfterFiles := [];
     PluginSortingData.GetOverrideFormIDs := overrides |}.

Definition overriding_plugins : list PluginSortingData.t :=
  [with_masters_and_overrides "Small.esp" false ["base.esm"] [1%Z];
   with_masters_and_overrides "Large.esp" false ["BASE.ESM"] [1%Z; 2%Z];
   with_masters_and_overrides "Base.esm" true [] []].

Definition overriding_sorter : PluginSorter := empty_sorter overriding_plugins [] false.

(** What [name.substr(0, name.length() - 4)] yields for a name of any
    length: for a name of fewer than four characters the length wraps
    around and the count is clipped to the whole name. *)
Definition clipped_basename (name : string) : string :=
  if (string_size name <? 4)%Z then name else basename name.

(** ** Regular expressions in conditions (condition_evaluator.cpp) *)

(** [std::string::rfind(c)]: the position of the last [c], if there is one. *)
Fixpoint rfind (c : ascii) (s : string) : option nat :=
  match s with
  | EmptyString => None
  | String x rest =>
      match rfind c rest with
      | Some pos => Some (S pos)
      | None => if Ascii.eqb x c then Some 0%nat else None
      end
  end.

(** [substr(0, pos)] and [substr(pos + 1)] are taken at a position [rfind]
    found, which is inside the string: neither throws. *)
Definition getRegexParentPath (regexString : string) : string :=
  match rfind "/"%char regexString with
  | None => ""
  | Some pos => String.substring 0 pos regexString
  end.

Definition getRegexFilename (regexString : string) : string :=
  match rfind "/"%char regexString with
  | None => regexString
  | Some pos =>
      String.substring (pos + 1) (String.length regexString - (pos + 1)) regexString
  end.

(** What the regex conditions call outside this translation unit:
    [std::regex] (construction gives the compiled expression, or the
    [what()] of the [std::regex_error] it throws), [std::regex_match],
    [std::filesystem::is_directory] and the file names a
    [directory_iterator] yields, in its order; iterating a directory that
    was just found to exist is taken not to throw. *)
Record RegexHost : Type := {
  regex : Type;
  regex_compile : string -> regex + string;
  regex_match : string -> regex -> bool;
  is_directory : fspath -> bool;
  directory_entries : fspath -> list string;
}.

Definition invalid_regex (regexString what : string) : exn :=
  ConditionSyntaxError
    ("Invalid regex string " +:+ dquote +:+ regexString +:+ dquote +:+ ": " +:+ what).

(** [std::any_of] with a predicate that keeps state between its calls: the
    elements are tested in order up to the first that passes. *)
Fixpoint any_of {A S} (pred : A -> S -> bool * S) (l : list A) (st : S) : bool * S :=
  match l with
  | [] => (false, st)
  | x :: rest =>
      let '(found, st) := pred x st in
      if found then (true, st) else any_of pred rest st
  end.

Section RegexConditions.

Context (host : Host) (rhost : RegexHost).

Definition validateRegex (regexString : string) : Result unit :=
  match regex_compile rhost regexString with
  | inl _ => Ok tt
  | inr what => Err (invalid_regex regexString what)
  end.

Definition splitRegex (regexString : string) : Result (string * regex rhost) :=
  match validateRegex regexString with
  | Err e => Err e
  | Ok _ =>
      let filename := getRegexFilename regexString in
      let parent := getRegexParentPath regexString in
      match validatePath parent with
      | Err e => Err e
      | Ok _ =>
          match regex_compile rhost filename with
          | inr what => Err (invalid_regex filename what)
          | inl reg => Ok (parent, reg)
          end
      end
  end.

Definition isGameSubdirectory (path : string) : bool :=
  let parentPath := in_data path in
  fs_exists host parentPath && is_directory rhost parentPath.

(** [condition] is a [std::function] and may keep state of its own between
    calls, as the one [areRegexMatchesInDataDirectory] passes does; [&&]
    calls it only for a file name the expression matches. *)
Definition isRegexMatchInDataDirectory {S} (pathRegex : string * regex rhost)
    (condition : string -> S -> bool * S) (st : S) : bool * S :=
  (* Now we have a valid parent path and a regex filename. Check that the
     parent path exists and is a directory. *)
  if negb (isGameSubdirectory (fst pathRegex)) then (false, st)
  else
    any_of
      (fun filename st =>
         if regex_match rhost filename (snd pathRegex)
         then condition filename st
         else (false, st))
      (directory_entries rhost (in_data (fst pathRegex))) st.

Definition areRegexMatchesInDataDirectory (pathRegex : string * regex rhost)
    (condition : string -> bool) : bool :=
  let foundOneFile := false in
  fst (isRegexMatchInDataDirectory pathRegex
         (fun filename foundOneFile =>
            if condition filename
            then if foundOneFile : bool then (true, foundOneFile) else (false, true)
            else (false, foundOneFile))
         foundOneFile).

(** A [condition] without state. *)
Definition stateless (condition : string -> bool) (filename : string) (st : unit)
    : bool * unit :=
  (condition filename, st).

Definition regexMatchExists (ev : ConditionEvaluator) (regexString : string)
    : Result bool :=
  match splitRegex regexString with
  | Err e => Err e
  | Ok pathRegex =>
      if shouldParseOnly ev then Ok false
      else Ok (fst (isRegexMatchInDataDirectory pathRegex (stateless (fun _ => true)) tt))
  end.

Definition regexMatchesExist (ev : ConditionEvaluator) (regexString : string)
    : Result bool :=
  match splitRegex regexString with
  | Err e => Err e
  | Ok pathRegex =>
      if shouldParseOnly ev then Ok false
      else Ok (areRegexMatchesInDataDirectory pathRegex (fun _ => true))
  end.

(** [loadOrderHandler_->IsPluginActive(filename)], reached only when
    [shouldParseOnly] has found the handler present. *)
Definition handler_IsPluginActive (ev : ConditionEvaluator) (filename : string) : bool :=
  match loadOrderHandler_ ev with
  | Some loadOrderHandler => IsPluginActive loadOrderHandler filename
  | None => false
  end.

Definition isPluginMatchingRegexActive (ev : ConditionEvaluator) (regexString : string)
    : Result bool :=
  match splitRegex regexString with
  | Err e => Err e
  | Ok pathRegex =>
      if shouldParseOnly ev then Ok false
      else Ok (fst (isRegexMatchInDataDirectory pathRegex
                      (stateless (handler_IsPluginActive ev)) tt))
  end.

Definition arePluginsActive (ev : ConditionEvaluator) (regexString : string)
    : Result bool :=
  match splitRegex regexString with
  | Err e => Err e
  | Ok pathRegex =>
      if shouldParseOnly ev then Ok false
      else Ok (areRegexMatchesInDataDirectory pathRegex (handler_IsPluginActive ev))
  end.

(** The directory entries a regex condition counts. *)
Definition matching_entries (pathRegex : string * regex rhost)
    (condition : string -> bool) : list string :=
  List.filter (fun filename => regex_match rhost filename (snd pathRegex) && condition filename)
    (directory_entries rhost (in_data (fst pathRegex))).

End RegexConditions.

(** *** A host with a data directory to list

    The data directory of [sample_host] as a directory, and an expression
    engine that knows literal names and the pattern [.*\.esm], without
    regard to case; an opening bracket alone is not an expression. *)
Definition with_data_directory (host : Host) : Host :=
  {| Version := Version host;
     Version_of_string := Version_of_string host;
     Version_of_file := Version_of_file host;
     Version_eq := Version_eq host;
     Version_ne := Version_ne host;
     Version_lt := Version_lt host;
     Version_gt := Version_gt host;
     Version_le := Version_le host;
     Version_ge := Version_ge host;
     fs_exists := fun p => fspath_eqb p (in_data "") || fs_exists host p;
     GetCrc32 := GetCrc32 host;
     hasPluginFileExtension := hasPluginFileExtension host;
     Plugin_IsValid := Plugin_IsValid host;
     Plugin_header := Plugin_header host;
     IsRegexPlugin := IsRegexPlugin host;
     phrase_parse := phrase_parse host |}.

Definition sample_regex_host : RegexHost :=
  {| regex := string;
     regex_compile := fun s =>
       if String.eqb s "[" then inr "Unexpected character in bracket expression."
       else inl s;
     regex_match := fun filename reg =>
       if String.eqb reg ".*\.esm" then ends_with ".esm" (to_lower filename)
       else String.eqb (to_lower filename) (to_lower reg);
     is_directory := fun p => fspath_eqb p (in_data "");
     directory_entries := fun p =>
       if fspath_eqb p (in_data "")
       then ["Skyrim.esm"; "Update.esm"; "Foo.esp"; "Bar.esp.ghost"]
       else [] |}.

(** ** Groups and general messages (api_database.cpp) *)

(** What these queries call outside the database's translation unit: the
    lists' accessors and the evaluator's public interface. *)
Record ListHost : Type := {
  Groups : MetadataList.t -> list Group;
  Messages : MetadataList.t -> list Message.t;
  Evaluate : ConditionEvaluator -> string -> M bool;
  ClearConditionCache : ConditionEvaluator -> M unit;
}.

(** [Group()]. *)
Definition default_group : Group :=
  {| group_name := default_group_name; group_after := [] |}.

(** Modelled from the spec: a [std::unordered_set<Group>] holds one group
    of a name, as [loot/metadata/group.h] (not under src/) hashes and
    compares groups by name; [GetGroups] relies on it when it looks a group
    up by its name alone. The set is the list of its elements, and [insert]
    keeps a group of the same name that is already there. *)
Definition group_set_insert (g : Group) (groups : list Group) : list Group :=
  match find_group (group_name g) groups with
  | Some _ => groups
  | None => groups ++ [g]
  end.

(** [std::unordered_set<std::string>::insert] of one name and of a range. *)
Definition name_set_insert (name : string) (names : list string) : list string :=
  if existsb (String.eqb name) names then names else names ++ [name].

Definition name_set_insert_range (range names : list string) : list string :=
  List.fold_left (fun names name => name_set_insert name names) range names.

Section Queries.

Context (lh : ListHost).

Definition GetGroups (db : ApiDatabase) (includeUserMetadata : bool) : list Group :=
  if negb includeUserMetadata then
    let groups := Groups lh (masterlist_ db) in
    (* Insert the default group in case the masterlist hasn't been loaded. *)
    group_set_insert default_group groups
  else
    let mergedGroups := [] in
    let userlistGroups := Groups lh (userlist_ db) in
    let mergedGroups :=
      List.fold_left
        (fun mergedGroups group =>
           match find_group (group_name group) userlistGroups with
           | Some userlistGroup =>
               let afterGroups := group_after group in
               let userlistAfterGroups := group_after userlistGroup in
               let afterGroups := name_set_insert_range userlistAfterGroups afterGroups in
               group_set_insert
                 {| group_name := group_name group; group_after := afterGroups |}
                 mergedGroups
           | None => group_set_insert group mergedGroups
           end)
        (Groups lh (masterlist_ db)) mergedGroups in
    let mergedGroups :=
      List.fold_left (fun mergedGroups group => group_set_insert group mergedGroups)
        userlistGroups mergedGroups in
    (* Insert the default group if it's not already present. *)
    group_set_insert default_group mergedGroups.

Definition GetGeneralMessages (db : ApiDatabase) (evaluateConditions : bool)
    : M (list Message.t) :=
  let masterlistMessages := Messages lh (masterlist_ db) in
  let userlistMessages := Messages lh (userlist_ db) in
  let masterlistMessages :=
    match userlistMessages with
    | [] => masterlistMessages
    | _ :: _ => masterlistMessages ++ userlistMessages
    end in
  if evaluateConditions then
    (* Evaluate conditions from scratch. *)
    ClearConditionCache lh (conditionEvaluator_ db) ;;;
    filterM (fun message => Evaluate lh (conditionEvaluator_ db) (Message.GetCondition message))
      masterlistMessages
  else ret masterlistMessages.

End Queries.

(** The names of the groups of a set, and the after-groups a set gives a
    name. *)
Definition group_names (groups : list Group) : list string :=
  List.map group_name groups.

Definition after_in (groups : list Group) (name after : string) : Prop :=
  exists g, g ∈ groups /\ group_name g = name /\ after ∈ group_after g.

(** A database whose lists hold groups and messages, for the worked runs:
    the accessors read the members, [Evaluate] is the evaluator's
    [evaluate] and [ClearConditionCache] clears the cached conditions. *)
Definition sample_list_host : ListHost :=
  {| Groups := MetadataList.groups_;
     Messages := MetadataList.messages_;
     Evaluate := evaluate sample_host;
     ClearConditionCache := fun _ => modify_cache GameCache.ClearCachedConditions |}.

Definition list_with_groups (groups : list Group) : MetadataList.t :=
  {| MetadataList.groups_ := groups; MetadataList.bashTags_ := [];
     MetadataList.plugins_ := []; MetadataList.regexPlugins_ := [];
     MetadataList.messages_ := []; MetadataList.unevaluatedPlugins_ := [];
     MetadataList.unevaluatedRegexPlugins_ := [];
     MetadataList.unevaluatedMessages_ := [] |}.

Definition list_with_messages (messages : list Message.t) : MetadataList.t :=
  {| MetadataList.groups_ := []; MetadataList.bashTags_ := [];
     MetadataList.plugins_ := []; MetadataList.regexPlugins_ := [];
     MetadataList.messages_ := messages; MetadataList.unevaluatedPlugins_ := [];
     MetadataList.unevaluatedRegexPlugins_ := [];
     MetadataList.unevaluatedMessages_ := messages |}.

Definition general_message (content condition : string) : Message.t :=
  {| Message.GetType := say; Message.GetContent := [("en", content)];
     Message.GetCondition := condition |}.

(** A database with two general messages in the masterlist, one for a file
    that is there and one for a file that is not, and one in the userlist
    without a condition. *)
Definition messages_database : ApiDatabase :=
  {| masterlist_ :=
       list_with_messages
         [general_message "Foo is installed" (file_condition "Foo.esp");
          general_message "Baz is installed" (file_condition "Baz.esp")];
     userlist_ := list_with_messages [general_message "a note of the user" ""];
     conditionEvaluator_ := live_evaluator |}.

Definition grouped_database : ApiDatabase :=
  {| masterlist_ :=
       list_with_groups
         [{| group_name := "early"; group_after := [] |};
          {| group_name := "late"; group_after := ["early"] |}];
     userlist_ :=
       list_with_groups
         [{| group_name := "late"; group_after := ["mine"] |};
          {| group_name := "mine"; group_after := [] |}];
     conditionEvaluator_ := live_evaluator |}.

(** What the group phase may add: a group edge to a plugin's vertex from
    the vertex of one of its after-group plugins, where no path led back
    from the plugin to that vertex when the phase began. *)
Definition group_edge (s0 : PluginSorter) (e : vertex_t * vertex_t * EdgeType) : Prop :=
  snd e = group /\
  exists plugin pluginName,
    (target e, plugin) ∈ indexed_vertices s0 /\
    pluginName ∈ PluginSortingData.GetAfterGroupPlugins plugin /\
    GetVertexByName pluginName s0 = Some (source e) /\
    ~ reaches (graph_ s0) (target e) (source e).

(** The first loop of [AddGroupEdges] adds no edge: it collects pairs. *)
Record group_scan_ok (s0 : PluginSorter) (scan : GroupScan) : Prop := {
  scan_graph : graph_ (scanSorter scan) = graph_ s0;
  scan_pairs :
    Forall (fun edgePair => group_edge s0 (edgePair, group)) (acyclicEdgePairs scan);
}.

(** A sorter with a plugin of a later group: [Late.esp] is to load after
    the plugins [Early.esp] and [Absent.esp] of its after-groups. *)
Definition grouped_plugins : list PluginSortingData.t :=
  [PluginSortingData.plain "Early.esp" false None;
   PluginSortingData.SetAfterGroupPlugins ["early.esp"; "Absent.esp"]
     (PluginSortingData.plain "Late.esp" false None)].

Definition grouped_sorter : PluginSorter := empty_sorter grouped_plugins [] false.

(** One group names another, which the set holds, among its after-groups:
    the step [pathfinder] recurses along. *)
Definition after_group (groups : list Group) (g h : Group) : Prop :=
  exists afterGroupName,
    afterGroupName ∈ group_after g /\ find_group afterGroupName groups = Some h.

(** The groups of the test of [GetTransitiveAfterGroups], as a chain. *)
Definition three_groups : list Group :=
  [{| group_name := "a"; group_after := [] |};
   {| group_name := "b"; group_after := ["a"] |};
   {| group_name := "c"; group_after := ["b"] |}].

(** * Part II: properties *)

(** ** Path validation *)

Example components_plain : Path.components "a/./b/../c.esp" = ["a"; "."; "b"; ".."; "c.esp"].
Proof. reflexivity. Qed.

Example components_rooted : Path.components "/a//b/" = ["/"; "a"; "b"; ""].
Proof. reflexivity. Qed.

Example validatePath_single_dotdot : validatePath "../Skyrim.esm" = Ok tt.
Proof. reflexivity. Qed.

Example validatePath_separated_dotdot : validatePath "../a/../b.esp" = Ok tt.
Proof. reflexivity. Qed.

Example validatePath_double_dotdot :
  validatePath "../../b.esp" = Err (invalid_file_path "../../b.esp").
Proof. reflexivity. Qed.

Example validatePath_dot_between :
  validatePath ".././../b.esp" = Err (invalid_file_path ".././../b.esp").
Proof. reflexivity. Qed.

(** *** The loop and the adjacency property *)

Lemma filename_dotdot temp :
  Path.filename temp = ".." <-> List.last temp "" = "..".
Proof.
  unfold Path.filename. simpl.
  destruct (String.eqb_spec (List.last temp "") "/") as [->|_]; done.
Qed.

Lemma dotdot_after_dotdot_cons c l :
  dotdot_after_dotdot (c :: l) <->
  (c = ".." /\ List.hd "" l = ".." /\ l <> []) \/ dotdot_after_dotdot l.
Proof.
  split.
  - intros (l1 & l2 & E). destruct l1 as [|x l1]; simpl in E.
    + injection E as -> ->. left. done.
    + injection E as -> ->. right. by exists l1, l2.
  - intros [(-> & Hhd & Hne)|(l1 & l2 & ->)].
    + destruct l as [|d l]; [done|]. simpl in Hhd. subst d. by exists [], l.
    + by exists (c :: l1), l2.
Qed.

Lemma validatePath_loop_spec path comps : forall temp,
  validatePath_loop path temp comps = Err (invalid_file_path path) <->
  dotdot_after_dotdot
    ((if String.eqb (List.last temp "") ".." then [".."] else []) ++ drop_dots comps).
Proof.
  induction comps as [|c comps IH]; intros temp; simpl.
  - split; [done|]. intros (l1 & l2 & E).
    destruct (String.eqb _ _); destruct l1 as [|? [|? ?]]; simpl in E; done.
  - destruct (String.eqb_spec c ".") as [->|Hdot]; simpl; [apply IH|].
    destruct (String.eqb_spec c "..") as [->|Hdd]; simpl.
    + destruct (String.eqb_spec (Path.filename temp) "..") as [Hf|Hf].
      * apply filename_dotdot in Hf. rewrite Hf. simpl.
        split; [intros _|done]. by exists [], (drop_dots comps).
      * rewrite IH. unfold Path.append. rewrite List.last_last. simpl.
        assert (String.eqb (List.last temp "") ".." = false) as ->.
        { apply String.eqb_neq. by rewrite <- filename_dotdot. }
        reflexivity.
    + rewrite IH. unfold Path.append. rewrite List.last_last.
      assert (String.eqb c ".." = false) as -> by by apply String.eqb_neq.
      simpl. destruct (String.eqb (List.last temp "") ".."); simpl; [|].
      * rewrite (dotdot_after_dotdot_cons ".." (c :: _)).
        rewrite (dotdot_after_dotdot_cons c). simpl. intuition congruence.
      * rewrite (dotdot_after_dotdot_cons c). simpl. intuition congruence.
Qed.

Lemma validatePath_loop_result path comps : forall temp,
  validatePath_loop path temp comps = Ok tt \/
  validatePath_loop path temp comps = Err (invalid_file_path path).
Proof.
  induction comps as [|c comps IH]; intros temp; simpl; [by left|].
  repeat case_match; auto.
Qed.

(** C5: [validatePath] throws [ConditionSyntaxError] exactly when, with the
    ["."] elements dropped, the path has a [".."] element immediately after
    another [".."] element; every other path is accepted. *)
Theorem validatePath_throws_iff_dotdot_after_dotdot (path : string) :
  (validatePath path = Err (invalid_file_path path) <->
   dotdot_after_dotdot (drop_dots (Path.components path))) /\
  (~ dotdot_after_dotdot (drop_dots (Path.components path)) <->
   validatePath path = Ok tt).
Proof.
  unfold validatePath.
  pose proof (validatePath_loop_spec path (Path.components path) []) as H.
  simpl in H. split; [exact H|].
  destruct (validatePath_loop_result path (Path.components path) []) as [E|E];
    rewrite E in *; split; try done.
  - intros _ Hadj. apply H in Hadj. done.
  - intros Hnot. exfalso. apply Hnot, H. reflexivity.
Qed.

(** ** The game cache *)

Example to_lower_name : to_lower "Update.ESM" = "update.esm".
Proof. reflexivity. Qed.




(** ** Evaluating conditions *)

Example evaluate_live_file :
  fst (evaluate sample_host live_evaluator (file_condition "Foo.esp") GameCache.empty) = Ok true.
Proof. vm_compute. reflexivity. Qed.

Example evaluate_live_ghost :
  fst (evaluate sample_host live_evaluator (file_condition "Bar.esp") GameCache.empty) = Ok true.
Proof. vm_compute. reflexivity. Qed.

Example evaluate_live_missing :
  fst (evaluate sample_host live_evaluator (file_condition "Baz.esp") GameCache.empty) = Ok false.
Proof. vm_compute. reflexivity. Qed.

Example evaluate_live_empty :
  fst (evaluate sample_host live_evaluator "" GameCache.empty) = Ok true.
Proof. vm_compute. reflexivity. Qed.

Example evaluate_live_bad_syntax :
  fst (evaluate sample_host live_evaluator "file(Foo.esp" GameCache.empty) =
  Err (partial_parse "file(Foo.esp").
Proof. vm_compute. reflexivity. Qed.

Example evaluate_live_bad_path :
  fst (evaluate sample_host live_evaluator (file_condition "../../Foo.esp") GameCache.empty) =
  Err (invalid_file_path "../../Foo.esp").
Proof. vm_compute. reflexivity. Qed.

Example evaluate_caches_result :
  GameCache.GetCachedCondition (file_condition "Foo.esp")
    (snd (evaluate sample_host live_evaluator (file_condition "Foo.esp") GameCache.empty)) =
  (true, true).
Proof. vm_compute. reflexivity. Qed.

(** *** Reasoning about [M] *)

Lemma bind_ok {S A B} (m : StateExn S A) (k : A -> StateExn S B) c a c' :
  m c = (Ok a, c') -> bind m k c = k a c'.
Proof. unfold bind. by intros ->. Qed.

Lemma bind_err {S A B} (m : StateExn S A) (k : A -> StateExn S B) c e c' :
  m c = (Err e, c') -> bind m k c = (Err e, c').
Proof. unfold bind. by intros ->. Qed.

Lemma bind_inv_ok {S A B} (m : StateExn S A) (k : A -> StateExn S B) c b c2 :
  bind m k c = (Ok b, c2) ->
  exists a c1, m c = (Ok a, c1) /\ k a c1 = (Ok b, c2).
Proof.
  unfold bind. destruct (m c) as [[a|e] c1]; [|done]. intros H. by exists a, c1.
Qed.

Ltac inv_bind H :=
  let a := fresh "a" in
  let c1 := fresh "c" in
  let H1 := fresh "Hm" in
  apply bind_inv_ok in H; destruct H as (a & c1 & H1 & H).

(** *** Parse-only mode *)

Lemma shouldParseOnly_spec ev :
  shouldParseOnly ev = true <->
  gameCache_ ev = null_cache \/ loadOrderHandler_ ev = None.
Proof.
  unfold shouldParseOnly. destruct (gameCache_ ev), (loadOrderHandler_ ev);
    simpl; intuition congruence.
Qed.

Lemma parseCondition_rejects host ev condition c parseResult unconsumed evaluation c' :
  condition <> "" ->
  phrase_parse host ev condition c = (Ok (parseResult, unconsumed, evaluation), c') ->
  parseResult = false \/ unconsumed <> "" ->
  parseCondition host ev condition c = (Err (partial_parse condition), c').
Proof.
  intros Hne Hp Hbad. unfold parseCondition.
  destruct (String.eqb_spec condition "") as [|_]; [done|].
  rewrite (bind_ok _ _ _ _ _ Hp).
  destruct Hbad as [->|Hrest]; [reflexivity|].
  destruct (String.eqb_spec unconsumed "") as [|_]; [done|].
  by rewrite orb_true_r.
Qed.

(** C2 (as the code has it): in parse-only mode [evaluate] still runs the
    parser, so a condition that does not parse raises the parser's
    [ConditionSyntaxError]; every condition that does parse, the empty
    string included, evaluates to false. *)
Theorem evaluate_parse_only_validates_and_returns_false
    (host : Host) (ev : ConditionEvaluator) (condition : string) (c : GameCache.t) :
  shouldParseOnly ev = true ->
  (evaluate host ev condition c =
     match parseCondition host ev condition c with
     | (Ok _, c') => (Ok false, c')
     | (Err e, c') => (Err e, c')
     end) /\
  (forall parseResult unconsumed evaluation c',
     condition <> "" ->
     phrase_parse host ev condition c = (Ok (parseResult, unconsumed, evaluation), c') ->
     parseResult = false \/ unconsumed <> "" ->
     evaluate host ev condition c = (Err (partial_parse condition), c')) /\
  (forall b c', parseCondition host ev condition c = (Ok b, c') ->
     evaluate host ev condition c = (Ok false, c')) /\
  evaluate host ev "" c = (Ok false, c).
Proof.
  intros Hpo. unfold evaluate. rewrite Hpo. split; [|split; [|split]].
  - unfold bind. by destruct (parseCondition host ev condition c) as [[b|e] c'].
  - intros * Hne Hp Hbad.
    by rewrite (bind_err _ _ _ _ _ (parseCondition_rejects _ _ _ _ _ _ _ _ Hne Hp Hbad)).
  - intros b c' Hp. by rewrite (bind_ok _ _ _ _ _ Hp).
  - reflexivity.
Qed.

Lemma evaluate_parse_only_witness :
  shouldParseOnly default_evaluator = true /\
  evaluate sample_host default_evaluator (file_condition "Foo.esp") GameCache.empty =
    (Ok false, GameCache.empty) /\
  evaluate sample_host default_evaluator "file(Foo.esp" GameCache.empty =
    (Err (partial_parse "file(Foo.esp"), GameCache.empty) /\
  evaluate sample_host default_evaluator "" GameCache.empty = (Ok false, GameCache.empty).
Proof.
  pose proof (evaluate_parse_only_validates_and_returns_false sample_host
                default_evaluator (file_condition "Foo.esp") GameCache.empty eq_refl)
    as (_ & _ & Hvalid & Hempty).
  pose proof (evaluate_parse_only_validates_and_returns_false sample_host
                default_evaluator "file(Foo.esp" GameCache.empty eq_refl)
    as (_ & Hinvalid & _ & _).
  split; [reflexivity|]. split; [|split].
  - apply (Hvalid false). vm_compute. reflexivity.
  - apply (Hinvalid false "file(Foo.esp" false).
    + discriminate.
    + vm_compute. reflexivity.
    + left. reflexivity.
  - exact Hempty.
Defined.

(** C2, as stated, fails on the empty condition: a default-constructed
    evaluator (both handles null) is in parse-only mode and evaluates the
    empty string to false, not true. *)
Lemma evaluate_parse_only_empty_is_false :
  shouldParseOnly default_evaluator = true /\
  fst (evaluate sample_host default_evaluator "" GameCache.empty) = Ok false /\
  fst (evaluate sample_host default_evaluator "" GameCache.empty) <> Ok true.
Proof. repeat split. vm_compute. discriminate. Qed.

(** *** Comparing versions of an absent file *)

Lemma fileExists_without_version_readers host ev filePath :
  fileExists (without_version_readers host) ev filePath = fileExists host ev filePath.
Proof. reflexivity. Qed.

Lemma true_when_absent_spec comparator :
  true_when_absent comparator = true <->
  comparator = "!=" \/ comparator = "<" \/ comparator = "<=".
Proof.
  unfold true_when_absent. rewrite !orb_true_iff, !String.eqb_eq. tauto.
Qed.

(** C4: when [fileExists] is false for the path, [compareVersions] returns
    true exactly for the comparators [!=], [<] and [<=], hence false for
    [==], [>] and [>=], whatever the version literal; the cache is left as
    [fileExists] left it and no version reader is called. *)
Theorem compareVersions_absent_file
    (host : Host) (ev : ConditionEvaluator) (filePath testVersion comparator : string)
    (c c' : GameCache.t) :
  fileExists host ev filePath c = (Ok false, c') ->
  exists b,
    compareVersions host ev filePath testVersion comparator c = (Ok b, c') /\
    (b = true <-> comparator = "!=" \/ comparator = "<" \/ comparator = "<=") /\
    (comparator = "==" \/ comparator = ">" \/ comparator = ">=" -> b = false) /\
    compareVersions (without_version_readers host) ev filePath testVersion comparator c =
      (Ok b, c').
Proof.
  intros Hfe. exists (true_when_absent comparator). repeat split.
  - unfold compareVersions. by rewrite (bind_ok _ _ _ _ _ Hfe).
  - apply true_when_absent_spec.
  - apply true_when_absent_spec.
  - intros [->| [->| ->]]; reflexivity.
  - unfold compareVersions. rewrite fileExists_without_version_readers.
    by rewrite (bind_ok _ _ _ _ _ Hfe).
Qed.

Lemma compareVersions_absent_file_witness :
  compareVersions sample_host live_evaluator "nonexistent.esp" "1.0" "<" GameCache.empty =
    (Ok true, GameCache.empty) /\
  compareVersions sample_host live_evaluator "nonexistent.esp" "1.0" "==" GameCache.empty =
    (Ok false, GameCache.empty).
Proof.
  assert (fileExists sample_host live_evaluator "nonexistent.esp" GameCache.empty =
          (Ok false, GameCache.empty)) as Hfe by (vm_compute; reflexivity).
  split.
  - destruct (compareVersions_absent_file sample_host live_evaluator
                "nonexistent.esp" "1.0" "<" GameCache.empty GameCache.empty Hfe)
      as (b & Hrun & Hiff & _ & _).
    rewrite Hrun. f_equal. f_equal. apply Hiff. right. left. reflexivity.
  - destruct (compareVersions_absent_file sample_host live_evaluator
                "nonexistent.esp" "1.0" "==" GameCache.empty GameCache.empty Hfe)
      as (b & Hrun & _ & Hfalse & _).
    rewrite Hrun. f_equal. f_equal. apply Hfalse. left. reflexivity.
Defined.

(** *** Cleaning data and the CRC of the plugin *)

Lemma getCrc_unfold host ev file c :
  getCrc host ev file c =
  if negb (Z.eqb (GameCache.GetCachedCrc file c) 0)
  then (Ok (GameCache.GetCachedCrc file c), c)
  else
    match (if String.eqb file "LOOT" then GetCrc32 host loot_exe
           else fresh_crc host ev file (GameCache.GetPlugin file c)) with
    | Ok crc =>
        (Ok crc,
         if String.eqb file "LOOT" || negb (Z.eqb crc 0)
         then GameCache.CacheCrc file crc c else c)
    | Err e => (Err e, c)
    end.
Proof.
  unfold getCrc, fresh_crc, bind, get_cache, ret, lift, modify_cache, get, modify.
  destruct (Z.eqb_spec (GameCache.GetCachedCrc file c) 0) as [Hz|Hnz]; simpl; [|done].
  rewrite Hz.
  destruct (String.eqb file "LOOT"); simpl.
  { by destruct (GetCrc32 host loot_exe). }
  repeat case_match; simplify_eq/=; try done; congruence.
Qed.



Lemma filterM_cleaning_unnamed host ev (l : list PluginCleaningData.t) c l' c' :
  shouldParseOnly ev = false ->
  filterM (fun info => evaluate_cleaning host ev info "") l c = (Ok l', c') ->
  l' = [] /\ c' = c.
Proof.
  intros Hlive. revert l'. induction l as [|info l IH]; intros l' H; simpl in H.
  - by injection H as <- <-.
  - unfold bind in H. unfold evaluate_cleaning at 1 in H. rewrite Hlive in H.
    simpl in H. unfold ret at 1 in H.
    destruct (filterM _ l c) as [[kept|e] c1] eqn:E; [|done].
    injection H as <- <-. by apply IH.
Qed.




(** ** The database *)

(** C3: [GetPluginMetadata] starts from the masterlist's [FindPlugin]
    result; with [includeUserMetadata] a userlist match is merged into a
    masterlist match or stands alone when the masterlist has none; the
    result is absent when nothing matches; and with [evaluateConditions] a
    present result is passed through [EvaluateAll]. *)
Theorem GetPluginMetadata_composition
    (dh : DatabaseHost) (db : ApiDatabase) (plugin : string)
    (includeUserMetadata evaluateConditions : bool) :
  exists base : option PluginMetadata.t,
    (includeUserMetadata = false -> base = FindPlugin dh (masterlist_ db) plugin) /\
    (includeUserMetadata = true ->
       forall m u,
         FindPlugin dh (masterlist_ db) plugin = Some m ->
         FindPlugin dh (userlist_ db) plugin = Some u ->
         base = Some (MergeMetadata dh m u)) /\
    (includeUserMetadata = true ->
       forall u,
         FindPlugin dh (masterlist_ db) plugin = None ->
         FindPlugin dh (userlist_ db) plugin = Some u ->
         base = Some u) /\
    (includeUserMetadata = true ->
       FindPlugin dh (userlist_ db) plugin = None ->
       base = FindPlugin dh (masterlist_ db) plugin) /\
    (FindPlugin dh (masterlist_ db) plugin = None ->
     FindPlugin dh (userlist_ db) plugin = None ->
     base = None) /\
    (forall m, evaluateConditions = true -> base = Some m ->
       GetPluginMetadata dh db plugin includeUserMetadata evaluateConditions =
       (evaluated <- EvaluateAll dh (conditionEvaluator_ db) m ;; ret (Some evaluated))) /\
    (evaluateConditions = false \/ base = None ->
       GetPluginMetadata dh db plugin includeUserMetadata evaluateConditions = ret base).
Proof.
  unfold GetPluginMetadata.
  destruct includeUserMetadata;
    destruct (FindPlugin dh (masterlist_ db) plugin) as [m|] eqn:Em;
    destruct (FindPlugin dh (userlist_ db) plugin) as [u|] eqn:Eu;
    eexists; (split; [|split; [|split; [|split; [|split; [|split]]]]]);
    try (intros; simplify_eq; reflexivity); try done.
  all: try (intros m' -> [= ->]; reflexivity).
  all: try (intros [->|Hn]; [reflexivity|try done]).
  all: try (destruct evaluateConditions; done).
Qed.

(** C9: [LoadLists] either throws and leaves the database as it was, or
    returns and has replaced both documents by the freshly loaded ones; a
    missing file at a non-empty path raises [FileAccessError]. *)
Theorem LoadLists_atomic
    (dh : DatabaseHost) (masterlistPath userlistPath : string) (db : ApiDatabase) :
  (forall e db', LoadLists dh masterlistPath userlistPath db = (Err e, db') -> db' = db) /\
  (masterlistPath <> "" -> path_exists dh masterlistPath = false ->
     LoadLists dh masterlistPath userlistPath db =
       (Err (masterlist_missing masterlistPath), db)) /\
  (userlistPath <> "" -> path_exists dh userlistPath = false ->
     exists e, LoadLists dh masterlistPath userlistPath db = (Err e, db) /\
       (e = userlist_missing userlistPath \/
        e = masterlist_missing masterlistPath \/
        Masterlist_Load dh MetadataList.empty masterlistPath = Err e)) /\
  (forall e, masterlistPath <> "" -> path_exists dh masterlistPath = true ->
     Masterlist_Load dh MetadataList.empty masterlistPath = Err e ->
     LoadLists dh masterlistPath userlistPath db = (Err e, db)) /\
  (forall db', LoadLists dh masterlistPath userlistPath db = (Ok tt, db') ->
     exists temp userTemp,
       db' = assign_userlist userTemp (assign_masterlist temp db) /\
       (masterlistPath = "" /\ temp = MetadataList.empty \/
        masterlistPath <> "" /\ path_exists dh masterlistPath = true /\
        Masterlist_Load dh MetadataList.empty masterlistPath = Ok temp) /\
       (userlistPath = "" /\ userTemp = MetadataList.empty \/
        userlistPath <> "" /\ path_exists dh userlistPath = true /\
        MetadataList_Load dh MetadataList.empty userlistPath = Ok userTemp)).
Proof.
  unfold LoadLists, bind, lift, throw, ret, modify.
  destruct (String.eqb_spec masterlistPath "") as [Hm|Hm];
    destruct (String.eqb_spec userlistPath "") as [Hu|Hu]; simpl;
    destruct (path_exists dh masterlistPath) eqn:Pm;
    destruct (path_exists dh userlistPath) eqn:Pu; simpl;
    destruct (Masterlist_Load dh MetadataList.empty masterlistPath) as [temp|em] eqn:Lm;
    destruct (MetadataList_Load dh MetadataList.empty userlistPath) as [userTemp|eu] eqn:Lu;
    simpl.
  all: split; [by intros e db' ?; simplify_eq|].
  all: split; [by intros; simplify_eq|].
  all: split; [by intros; simplify_eq; eauto 6|].
  all: split; [by intros; simplify_eq|].
  all: intros db' ?; simplify_eq.
  all: eexists _, _; split; [reflexivity|]; split; [tauto|tauto].
Qed.

(** ** Comparing plugins *)

Example ComparePlugins_esm_esp :
  ComparePlugins (PluginSortingData.plain "plug.esm" true None)
                 (PluginSortingData.plain "plug.esp" false None) = Ok (-1)%Z.
Proof. vm_compute. reflexivity. Qed.

Example ComparePlugins_esp_esm :
  ComparePlugins (PluginSortingData.plain "plug.esp" false None)
                 (PluginSortingData.plain "plug.esm" true None) = Ok 1%Z.
Proof. vm_compute. reflexivity. Qed.

Example ComparePlugins_case :
  ComparePlugins (PluginSortingData.plain "Alpha.esp" false None)
                 (PluginSortingData.plain "BETA.ESP" false None) = Ok (-1)%Z.
Proof. vm_compute. reflexivity. Qed.

Example ComparePlugins_indexed_first :
  ComparePlugins (PluginSortingData.plain "zzz.esp" false (Some 7%nat))
                 (PluginSortingData.plain "aaa.esp" false None) = Ok (-1)%Z.
Proof. vm_compute. reflexivity. Qed.

Example ComparePlugins_short_name :
  ComparePlugins (PluginSortingData.plain "ab" false None)
                 (PluginSortingData.plain "AB" false None) = Err OutOfRange.
Proof. vm_compute. reflexivity. Qed.

Lemma substr_basename name :
  (4 <= string_size name < size_t_modulus)%Z ->
  substr name 0 (Some (size_t_sub (string_size name) 4)) = Ok (basename name).
Proof.
  intros Hn. unfold substr, size_t_sub, basename, string_size in *.
  rewrite Z.mod_small by lia.
  destruct (Z.ltb_spec (Z.of_nat (String.length name)) 0) as [|_]; [lia|].
  do 2 f_equal. lia.
Qed.

Lemma substr_extension name :
  (4 <= string_size name < size_t_modulus)%Z ->
  substr name (size_t_sub (string_size name) 4) None = Ok (extension name).
Proof.
  intros Hn. unfold substr, size_t_sub, extension, string_size in *.
  rewrite Z.mod_small by lia.
  destruct (Z.ltb_spec (Z.of_nat (String.length name)) (Z.of_nat (String.length name) - 4))
    as [|_]; [lia|].
  f_equal. f_equal; lia.
Qed.

Lemma ComparePlugins_as_specified p1 p2 :
  named_plugin p1 -> named_plugin p2 ->
  ComparePlugins p1 p2 = Ok (compare_as_specified p1 p2).
Proof.
  intros H1 H2. unfold ComparePlugins, compare_as_specified.
  destruct (PluginSortingData.GetLoadOrderIndex p1) as [i1|],
           (PluginSortingData.GetLoadOrderIndex p2) as [i2|]; try reflexivity.
  - by destruct (i1 <? i2)%nat.
  - rewrite !substr_basename, !substr_extension by assumption.
    by destruct (Z.eqb _ 0).
Qed.

(** *** The order on lowercased names *)

Lemma compare_irrefl a : String_as_OT.compare a a = Lt -> False.
Proof. apply (@StrictOrder_Irreflexive _ _ String_as_OT.lt_strorder a). Qed.

Lemma compare_eq_iff a b : String_as_OT.compare a b = Eq <-> a = b.
Proof.
  destruct (String_as_OT.compare_spec a b) as [E|L|G]; split; try done.
  - intros ->. by apply compare_irrefl in L.
  - intros ->. by apply compare_irrefl in G.
Qed.

Lemma compare_lt_trans a b c :
  String_as_OT.compare a b = Lt -> String_as_OT.compare b c = Lt ->
  String_as_OT.compare a c = Lt.
Proof. apply (StrictOrder_Transitive (R := String_as_OT.lt)). Qed.

Lemma compare_gt_lt a b :
  String_as_OT.compare a b = Gt <-> String_as_OT.compare b a = Lt.
Proof.
  split.
  - intros G. destruct (String_as_OT.compare_spec a b) as [E|L|G']; done.
  - intros L. destruct (String_as_OT.compare_spec a b) as [E|L'|G']; [| |done].
    + unfold String_as_OT.eq in E. subst b.
      by apply compare_irrefl in L.
    + pose proof (compare_lt_trans _ _ _ L L') as Hbb.
      by apply compare_irrefl in Hbb.
Qed.

Lemma CompareFilenames_neg a b :
  (CompareFilenames a b < 0)%Z <-> String_as_OT.compare (to_lower a) (to_lower b) = Lt.
Proof. unfold CompareFilenames. destruct (String_as_OT.compare _ _); split; (done || lia). Qed.

Lemma CompareFilenames_zero a b :
  CompareFilenames a b = 0%Z <-> to_lower a = to_lower b.
Proof.
  rewrite <- compare_eq_iff. unfold CompareFilenames.
  destruct (String_as_OT.compare _ _); split; (done || lia).
Qed.

Lemma to_lower_app a b : to_lower (a +:+ b) = to_lower a +:+ to_lower b.
Proof. induction a as [|x a IH]; simpl; [done|]. by rewrite IH. Qed.

Lemma substring_full s : String.substring 0 (String.length s) s = s.
Proof. induction s as [|x s IH]; simpl; [done|]. by rewrite IH. Qed.

Lemma substring_split s : forall k,
  (k <= String.length s)%nat ->
  String.substring 0 k s +:+ String.substring k (String.length s - k) s = s.
Proof.
  induction s as [|x s IH]; intros k Hk; simpl in *.
  - destruct k; [reflexivity|lia].
  - destruct k as [|k]; simpl.
    + by rewrite substring_full.
    + change (String x (String.substring 0 k s +:+
                        String.substring k (String.length s - k) s) = String x s).
      f_equal. apply IH. lia.
Qed.

Lemma name_split name :
  (4 <= String.length name)%nat -> basename name +:+ extension name = name.
Proof.
  intros Hn. unfold basename, extension.
  pose proof (substring_split name (String.length name - 4) ltac:(lia)) as H.
  replace (String.length name - (String.length name - 4))%nat with 4%nat in H by lia.
  exact H.
Qed.

Lemma compare_as_specified_neg p1 p2 :
  (compare_as_specified p1 p2 < 0)%Z <-> specified_before p1 p2.
Proof.
  unfold compare_as_specified, specified_before, name_key_lt.
  destruct (PluginSortingData.GetLoadOrderIndex p1) as [i1|],
           (PluginSortingData.GetLoadOrderIndex p2) as [i2|]; try (split; (done || lia)).
  - destruct (Nat.ltb_spec i1 i2); split; lia.
  - destruct (Z.eqb_spec (CompareFilenames (basename (PluginSortingData.GetName p1))
                            (basename (PluginSortingData.GetName p2))) 0) as [Hz|Hnz].
    + rewrite CompareFilenames_neg. pose proof Hz as Hz'.
      apply CompareFilenames_zero in Hz'. apply CompareFilenames_zero, compare_eq_iff in Hz.
      rewrite Hz. split; [by right|]. by intros [|[_ ?]].
    + rewrite CompareFilenames_neg. rewrite CompareFilenames_zero in Hnz.
      split; [by left|]. by intros [|[? _]].
Qed.

Lemma orders_before_specified p1 p2 :
  named_plugin p1 -> named_plugin p2 ->
  orders_before p1 p2 <-> specified_before p1 p2.
Proof.
  intros H1 H2. unfold orders_before. rewrite ComparePlugins_as_specified by done.
  rewrite <- compare_as_specified_neg. split.
  - by intros (r & [= <-] & Hr).
  - intros Hr. by eexists.
Qed.

Lemma name_key_lt_irrefl name : ~ name_key_lt name name.
Proof.
  intros [H|[_ H]]; by apply compare_irrefl in H.
Qed.

Lemma name_key_lt_trans n1 n2 n3 :
  name_key_lt n1 n2 -> name_key_lt n2 n3 -> name_key_lt n1 n3.
Proof.
  intros [H12|[E12 H12]] [H23|[E23 H23]].
  - left. by eapply compare_lt_trans.
  - left. by rewrite <- E23.
  - left. by rewrite E12.
  - right. split; [congruence|]. by eapply compare_lt_trans.
Qed.

Lemma name_key_lt_total n1 n2 :
  (4 <= String.length n1)%nat -> (4 <= String.length n2)%nat ->
  to_lower n1 <> to_lower n2 ->
  name_key_lt n1 n2 \/ name_key_lt n2 n1.
Proof.
  intros H1 H2 Hne. unfold name_key_lt.
  destruct (String_as_OT.compare (to_lower (basename n1)) (to_lower (basename n2))) eqn:Eb.
  - apply compare_eq_iff in Eb.
    destruct (String_as_OT.compare (to_lower (extension n1)) (to_lower (extension n2))) eqn:Ee.
    + apply compare_eq_iff in Ee. exfalso. apply Hne.
      rewrite <- (name_split n1 H1), <- (name_split n2 H2), !to_lower_app. congruence.
    + left. by right.
    + right. right. split; [done|]. by apply compare_gt_lt.
  - left. by left.
  - right. left. by apply compare_gt_lt.
Qed.

Lemma specified_before_irrefl p : ~ specified_before p p.
Proof.
  unfold specified_before.
  destruct (PluginSortingData.GetLoadOrderIndex p); [lia|apply name_key_lt_irrefl].
Qed.

Lemma specified_before_trans p1 p2 p3 :
  specified_before p1 p2 -> specified_before p2 p3 -> specified_before p1 p3.
Proof.
  unfold specified_before.
  destruct (PluginSortingData.GetLoadOrderIndex p1),
           (PluginSortingData.GetLoadOrderIndex p2),
           (PluginSortingData.GetLoadOrderIndex p3); try done; try lia.
  apply name_key_lt_trans.
Qed.

Lemma specified_before_total p1 p2 :
  named_plugin p1 -> named_plugin p2 -> distinct_plugins p1 p2 ->
  specified_before p1 p2 \/ specified_before p2 p1.
Proof.
  unfold named_plugin, string_size, distinct_plugins, specified_before.
  intros H1 H2 [Hname Hindex].
  destruct (PluginSortingData.GetLoadOrderIndex p1) as [i|],
           (PluginSortingData.GetLoadOrderIndex p2) as [j|]; auto.
  - specialize (Hindex i j eq_refl eq_refl). lia.
  - apply name_key_lt_total; [lia|lia|]. by rewrite <- CompareFilenames_zero.
Qed.

(** C7: on plugins whose names carry a four-character extension,
    [ComparePlugins] computes the specified comparison (indexed before
    unindexed, lower index first, otherwise case-insensitive basename and
    then extension), and [ComparePlugins(a, b) < 0] is a strict order that
    is total on distinct plugins; [plug.esm] orders before [plug.esp]. *)
Theorem ComparePlugins_strict_total_order :
  (forall p1 p2, named_plugin p1 -> named_plugin p2 ->
     ComparePlugins p1 p2 = Ok (compare_as_specified p1 p2)) /\
  (forall p, named_plugin p -> ~ orders_before p p) /\
  (forall p1 p2, named_plugin p1 -> named_plugin p2 ->
     orders_before p1 p2 -> ~ orders_before p2 p1) /\
  (forall p1 p2 p3, named_plugin p1 -> named_plugin p2 -> named_plugin p3 ->
     orders_before p1 p2 -> orders_before p2 p3 -> orders_before p1 p3) /\
  (forall p1 p2, named_plugin p1 -> named_plugin p2 -> distinct_plugins p1 p2 ->
     orders_before p1 p2 \/ orders_before p2 p1) /\
  (forall master1 master2,
     orders_before (PluginSortingData.plain "plug.esm" master1 None)
                   (PluginSortingData.plain "plug.esp" master2 None)).
Proof.
  split; [exact ComparePlugins_as_specified|].
  split; [|split; [|split; [|split]]].
  - intros p Hp. rewrite orders_before_specified by done. apply specified_before_irrefl.
  - intros p1 p2 H1 H2. rewrite !orders_before_specified by done.
    intros H12 H21. apply (specified_before_irrefl p1).
    by apply (specified_before_trans p1 p2 p1).
  - intros p1 p2 p3 H1 H2 H3. rewrite !orders_before_specified by done.
    apply specified_before_trans.
  - intros p1 p2 H1 H2. rewrite !orders_before_specified by done.
    by apply specified_before_total.
  - intros master1 master2. exists (-1)%Z. split; [|lia]. vm_compute. reflexivity.
Qed.

Lemma named_plugin_plain name master index :
  (4 <=? string_size name)%Z && (string_size name <? size_t_modulus)%Z = true ->
  named_plugin (PluginSortingData.plain name master index).
Proof. unfold named_plugin. simpl. lia. Defined.

Lemma ComparePlugins_strict_total_order_witness :
  ComparePlugins plug_esm plug_esp = Ok (-1)%Z /\
  orders_before plug_esm plug_esp /\
  ~ orders_before plug_esp plug_esm /\
  orders_before skyrim_esm plug_esp /\
  (orders_before plug_esp skyrim_esm \/ orders_before skyrim_esm plug_esp).
Proof.
  destruct ComparePlugins_strict_total_order
    as (Hspec & Hirrefl & Hasym & Htrans & Htotal & Hexample).
  assert (named_plugin plug_esm) as N1 by (by apply named_plugin_plain).
  assert (named_plugin plug_esp) as N2 by (by apply named_plugin_plain).
  assert (named_plugin skyrim_esm) as N3 by (by apply named_plugin_plain).
  assert (orders_before skyrim_esm plug_esm) as H31.
  { exists (-1)%Z. split; [reflexivity|lia]. }
  split; [exact (Hspec plug_esm plug_esp N1 N2)|].
  split; [apply Hexample|].
  split; [apply (Hasym plug_esm plug_esp N1 N2), Hexample|].
  split; [apply (Htrans skyrim_esm plug_esm plug_esp N3 N1 N2 H31), Hexample|].
  apply (Htotal plug_esp skyrim_esm N2 N3). split.
  - vm_compute. discriminate.
  - intros i j Hi. discriminate Hi.
Defined.

(** ** The plugin graph and its paths cache *)

Example chain_cycle_found :
  fst (EdgeCreatesCycle 2 0 chain_sorter) = true.
Proof. vm_compute. reflexivity. Qed.

Example chain_no_cycle :
  fst (EdgeCreatesCycle 0 2 chain_sorter) = false.
Proof. vm_compute. reflexivity. Qed.

Example long_chain_cycle_found :
  fst (EdgeCreatesCycle 3 0 long_chain_sorter) = true.
Proof. vm_compute. reflexivity. Qed.

Example long_chain_cache_grows :
  bool_decide ((0%nat, 2%nat) ∈ pathsCache_ long_chain_sorter) = false /\
  bool_decide ((0%nat, 2%nat) ∈
               pathsCache_ (snd (EdgeCreatesCycle 3 0 long_chain_sorter))) = true.
Proof. split; vm_compute; reflexivity. Qed.

Lemma adjacent_vertices_edge g a b : b ∈ adjacent_vertices a g <-> edge g a b.
Proof.
  unfold adjacent_vertices, edge. rewrite list_elem_of_fmap. split.
  - intros ([[x y] t] & -> & Hin). apply list_elem_of_In, filter_In in Hin.
    destruct Hin as [Hin Heq]. apply Nat.eqb_eq in Heq.
    unfold source, target in *. simpl in *. subst x.
    exists t. by apply list_elem_of_In.
  - intros [t Hin]. exists (a, b, t). split; [done|].
    apply list_elem_of_In, filter_In. split; [by apply list_elem_of_In|].
    apply Nat.eqb_refl.
Qed.

Lemma inv_adjacent_vertices_edge g a b : a ∈ inv_adjacent_vertices b g <-> edge g a b.
Proof.
  unfold inv_adjacent_vertices, edge. rewrite list_elem_of_fmap. split.
  - intros ([[x y] t] & -> & Hin). apply list_elem_of_In, filter_In in Hin.
    destruct Hin as [Hin Heq]. apply Nat.eqb_eq in Heq.
    unfold source, target in *. simpl in *. subst y.
    exists t. by apply list_elem_of_In.
  - intros [t Hin]. exists (a, b, t). split; [done|].
    apply list_elem_of_In, filter_In. split; [by apply list_elem_of_In|].
    apply Nat.eqb_refl.
Qed.

Lemma edge_add_edge g u v t a b : edge g a b -> edge (add_edge u v t g) a b.
Proof. intros [t' Hin]. exists t'. simpl. apply elem_of_app. by left. Qed.

Lemma edge_add_edge_new g u v t : edge (add_edge u v t g) u v.
Proof. exists t. simpl. apply elem_of_app. right. by apply list_elem_of_singleton. Qed.

Lemma path_add_edge g u v t a b : path g a b -> path (add_edge u v t g) a b.
Proof.
  unfold path. apply (tc_congruence (fun x => x)). intros x y. apply edge_add_edge.
Qed.

(** *** Soundness of the search *)

Lemma expand_forward_sound g start adjacent : forall queue visited cache queue' visited' cache',
  expand_forward start adjacent queue visited cache = (queue', visited', cache') ->
  (forall x, x ∈ adjacent -> path g start x) ->
  (forall x, x ∈ queue -> reaches g start x) ->
  (forall x, x ∈ visited -> reaches g start x) ->
  sound_cache g cache ->
  (forall x, x ∈ queue' -> reaches g start x) /\
  (forall x, x ∈ visited' -> reaches g start x) /\
  sound_cache g cache'.
Proof.
  induction adjacent as [|a adjacent IH]; simpl; intros * Hrun Hadj Hq Hv Hc.
  - by injection Hrun as <- <- <-.
  - assert (path g start a) as Ha by (apply Hadj; left).
    assert (forall x, x ∈ adjacent -> path g start x) as Hadj'
      by (intros x Hx; apply Hadj; by right).
    destruct (decide (a ∈ visited)); [by eapply IH|].
    eapply IH; [exact Hrun|exact Hadj'| | |].
    + intros x [Hx|Hx%list_elem_of_singleton]%elem_of_app; [by apply Hq|].
      subst x. by apply tc_rtc.
    + intros x [Hx%elem_of_singleton|Hx]%elem_of_union; [|by apply Hv].
      subst x. by apply tc_rtc.
    + intros x y [Hx%elem_of_singleton|Hx]%elem_of_union; [|by apply Hc].
      by injection Hx as -> ->.
Qed.

Lemma expand_reverse_sound g end_ adjacent : forall queue visited cache queue' visited' cache',
  expand_reverse end_ adjacent queue visited cache = (queue', visited', cache') ->
  (forall x, x ∈ adjacent -> path g x end_) ->
  (forall x, x ∈ queue -> reaches g x end_) ->
  (forall x, x ∈ visited -> reaches g x end_) ->
  sound_cache g cache ->
  (forall x, x ∈ queue' -> reaches g x end_) /\
  (forall x, x ∈ visited' -> reaches g x end_) /\
  sound_cache g cache'.
Proof.
  induction adjacent as [|a adjacent IH]; simpl; intros * Hrun Hadj Hq Hv Hc.
  - by injection Hrun as <- <- <-.
  - assert (path g a end_) as Ha by (apply Hadj; left).
    assert (forall x, x ∈ adjacent -> path g x end_) as Hadj'
      by (intros x Hx; apply Hadj; by right).
    destruct (decide (a ∈ visited)); [by eapply IH|].
    eapply IH; [exact Hrun|exact Hadj'| | |].
    + intros x [Hx|Hx%list_elem_of_singleton]%elem_of_app; [by apply Hq|].
      subst x. by apply tc_rtc.
    + intros x [Hx%elem_of_singleton|Hx]%elem_of_union; [|by apply Hv].
      subst x. by apply tc_rtc.
    + intros x y [Hx%elem_of_singleton|Hx]%elem_of_union; [|by apply Hc].
      by injection Hx as -> ->.
Qed.

Lemma search_loop_sound g start end_ fuel : forall st answer cache,
  search_invariant g start end_ st ->
  search_loop fuel g start end_ st = Some (answer, cache) ->
  sound_cache g cache /\ (answer = true -> reaches g start end_).
Proof.
  induction fuel as [|fuel IH]; intros st answer cache Hinv Hrun; [done|].
  simpl in Hrun. destruct Hinv as [Hfq Hfv Hrq Hrv Hc].
  destruct (forwardQueue st) as [|v forwardRest] eqn:Efq.
  { injection Hrun as <- <-. by split. }
  destruct (reverseQueue st) as [|w reverseRest] eqn:Erq.
  { injection Hrun as <- <-. by split. }
  assert (reaches g start v) as Hv by (apply Hfq; left).
  assert (reaches g w end_) as Hw by (apply Hrq; left).
  destruct (Nat.eqb v end_ || bool_decide (v ∈ reverseVisited st)) eqn:Efound.
  { injection Hrun as <- <-. split; [done|]. intros _.
    apply orb_true_iff in Efound as [->%Nat.eqb_eq|Hin%bool_decide_eq_true]; [done|].
    etrans; [exact Hv|]. by apply Hrv. }
  destruct (expand_forward start (adjacent_vertices v g) forwardRest
              (forwardVisited st) (searchCache st)) as [[fq fv] cache1] eqn:Ef.
  destruct (expand_forward_sound g _ _ _ _ _ _ _ _ Ef) as (Hfq' & Hfv' & Hc1); try done.
  { intros x Hx%adjacent_vertices_edge. eapply tc_rtc_l; [exact Hv|by apply tc_once]. }
  { intros x Hx. apply Hfq. by right. }
  destruct (Nat.eqb w start || bool_decide (w ∈ fv)) eqn:Efound2.
  { injection Hrun as <- <-. split; [done|]. intros _.
    apply orb_true_iff in Efound2 as [->%Nat.eqb_eq|Hin%bool_decide_eq_true]; [done|].
    etrans; [by apply Hfv'|exact Hw]. }
  destruct (expand_reverse end_ (inv_adjacent_vertices w g) reverseRest
              (reverseVisited st) cache1) as [[rq rv] cache2] eqn:Er.
  destruct (expand_reverse_sound g _ _ _ _ _ _ _ _ Er) as (Hrq' & Hrv' & Hc2); try done.
  { intros x Hx%inv_adjacent_vertices_edge. eapply tc_rtc_r; [by apply tc_once|exact Hw]. }
  { intros x Hx. apply Hrq. by right. }
  eapply IH; [|exact Hrun]. by constructor.
Qed.

(** *** The search returns within its budget *)

Lemma size_list_to_set_le (l : list vertex_t) :
  (size (list_to_set l : gset vertex_t) <= List.length l)%nat.
Proof.
  induction l as [|a l IH].
  - rewrite list_to_set_nil, size_empty. simpl. lia.
  - rewrite list_to_set_cons, size_union_alt, size_singleton. simpl.
    pose proof (subseteq_size (list_to_set l ∖ {[a]}) (list_to_set l : gset vertex_t)
                  ltac:(set_solver)).
    lia.
Qed.

Lemma size_unvisited (T visited : gset vertex_t) a :
  a ∈ T -> a ∉ visited ->
  size (T ∖ visited) = S (size (T ∖ ({[a]} ∪ visited))).
Proof.
  intros HT Hv.
  assert (T ∖ visited = {[a]} ∪ (T ∖ ({[a]} ∪ visited))) as ->.
  { apply set_eq. intros x. destruct (decide (x = a)); set_solver. }
  rewrite size_union by set_solver. by rewrite size_singleton.
Qed.

Lemma adjacent_vertices_targets g v x : x ∈ adjacent_vertices v g -> x ∈ targets g.
Proof.
  unfold adjacent_vertices, targets. intros Hx. apply elem_of_list_to_set.
  apply list_elem_of_fmap in Hx as (e & -> & He). apply list_elem_of_fmap.
  exists e. split; [done|]. apply list_elem_of_In, filter_In in He.
  apply list_elem_of_In. tauto.
Qed.

Lemma expand_forward_measure (T : gset vertex_t) start adjacent :
  forall queue visited cache queue' visited' cache',
  expand_forward start adjacent queue visited cache = (queue', visited', cache') ->
  (forall x, x ∈ adjacent -> x ∈ T) ->
  (List.length queue' + size (T ∖ visited') = List.length queue + size (T ∖ visited))%nat.
Proof.
  induction adjacent as [|a adjacent IH]; simpl; intros * Hrun Hadj.
  - by injection Hrun as <- <- <-.
  - assert (forall x, x ∈ adjacent -> x ∈ T) as Hadj'
      by (intros x Hx; apply Hadj; by right).
    destruct (decide (a ∈ visited)) as [|Hnew]; [by eapply IH|].
    rewrite (IH _ _ _ _ _ _ Hrun Hadj'), length_app. simpl.
    rewrite (size_unvisited T visited a); [lia|apply Hadj; left|done].
Qed.

Lemma search_loop_returns g start end_ fuel : forall st,
  (List.length (forwardQueue st) + size (targets g ∖ forwardVisited st) < fuel)%nat ->
  is_Some (search_loop fuel g start end_ st).
Proof.
  induction fuel as [|fuel IH]; intros st Hfuel; [lia|]. simpl.
  destruct (forwardQueue st) as [|v forwardRest] eqn:Efq; [done|].
  destruct (reverseQueue st) as [|w reverseRest] eqn:Erq; [done|].
  destruct (Nat.eqb v end_ || bool_decide (v ∈ reverseVisited st)); [done|].
  destruct (expand_forward start (adjacent_vertices v g) forwardRest
              (forwardVisited st) (searchCache st)) as [[fq fv] cache1] eqn:Ef.
  destruct (Nat.eqb w start || bool_decide (w ∈ fv)); [done|].
  destruct (expand_reverse end_ (inv_adjacent_vertices w g) reverseRest
              (reverseVisited st) cache1) as [[rq rv] cache2] eqn:Er.
  apply IH. simpl.
  pose proof (expand_forward_measure (targets g) _ _ _ _ _ _ _ _ Ef
                (adjacent_vertices_targets g v)) as Hm.
  simpl in Hfuel. lia.
Qed.

Lemma search_loop_fuel_enough g start end_ cache reverse reverseSeen :
  is_Some (search_loop (search_fuel g) g start end_
             {| forwardQueue := [start]; reverseQueue := reverse;
                forwardVisited := {[start]}; reverseVisited := reverseSeen;
                searchCache := cache |}).
Proof.
  apply search_loop_returns. simpl. unfold search_fuel.
  pose proof (subseteq_size (targets g ∖ {[start]}) (targets g) ltac:(set_solver)).
  pose proof (size_list_to_set_le (List.map target (edges g))) as Hle.
  rewrite length_map in Hle. unfold targets in *. lia.
Qed.

(** *** Sorter steps *)

Lemma sorter_step_refl s : sorter_step s s.
Proof. constructor; try done. exists []. by rewrite app_nil_r. Qed.

Lemma sorter_step_trans s1 s2 s3 :
  sorter_step s1 s2 -> sorter_step s2 s3 -> sorter_step s1 s3.
Proof.
  intros [V1 G1 L1 [a1 E1] C1] [V2 G2 L2 [a2 E2] C2]. constructor; try congruence.
  - exists (a1 ++ a2). by rewrite E2, E1, app_assoc.
  - auto.
Qed.

Lemma AddEdge_step fromVertex toVertex edgeType s :
  sorter_step s (AddEdge fromVertex toVertex edgeType s).
Proof.
  unfold AddEdge. destruct (decide _) as [|Hnew]; [apply sorter_step_refl|].
  constructor; simpl; try done.
  - by eexists.
  - intros Hs a b [Hab%elem_of_singleton|Hab]%elem_of_union.
    + injection Hab as -> ->. apply tc_once, edge_add_edge_new.
    + apply path_add_edge. by apply Hs.
Qed.

Lemma EdgeCreatesCycle_run fromVertex toVertex s :
  ((toVertex, fromVertex) ∈ pathsCache_ s /\
   EdgeCreatesCycle fromVertex toVertex s = (true, s)) \/
  (((toVertex, fromVertex) ∉ pathsCache_ s) /\
   exists answer cache,
     search_loop (search_fuel (graph_ s)) (graph_ s) toVertex fromVertex
       {| forwardQueue := [toVertex]; reverseQueue := [fromVertex];
          forwardVisited := {[toVertex]}; reverseVisited := {[fromVertex]};
          searchCache := pathsCache_ s |} = Some (answer, cache) /\
     EdgeCreatesCycle fromVertex toVertex s = (answer, with_cache cache s)).
Proof.
  unfold EdgeCreatesCycle. destruct (decide _) as [Hin|Hout]; [by left|right].
  split; [done|].
  destruct (search_loop_fuel_enough (graph_ s) toVertex fromVertex (pathsCache_ s)
              [fromVertex] {[fromVertex]}) as [[answer cache] Hrun].
  exists answer, cache. by rewrite Hrun.
Qed.

Lemma EdgeCreatesCycle_sound fromVertex toVertex s answer s' :
  EdgeCreatesCycle fromVertex toVertex s = (answer, s') ->
  graph_ s' = graph_ s /\
  sorter_step s s' /\
  (cache_sound s -> answer = true -> reaches (graph_ s) toVertex fromVertex).
Proof.
  intros Hrun.
  destruct (EdgeCreatesCycle_run fromVertex toVertex s)
    as [[Hin Heq]|[Hout (answer' & cache & Hloop & Heq)]];
    rewrite Heq in Hrun; injection Hrun as <- <-.
  - split; [done|]. split; [apply sorter_step_refl|].
    intros Hs _. apply tc_rtc. by apply Hs.
  - assert (cache_sound s ->
            sound_cache (graph_ s) cache /\
            (answer' = true -> reaches (graph_ s) toVertex fromVertex)) as Hsound.
    { intros Hs. eapply search_loop_sound; [|exact Hloop].
      constructor; simpl; try done.
      - by intros x ->%list_elem_of_singleton.
      - by intros x ->%elem_of_singleton.
      - by intros x ->%list_elem_of_singleton.
      - by intros x ->%elem_of_singleton. }
    split; [done|]. split.
    + constructor; simpl; try done.
      * exists []. by rewrite app_nil_r.
      * intros Hs. by apply Hsound.
    + intros Hs. by apply Hsound.
Qed.

(** *** Every phase is made of sorter steps *)

Lemma fold_left_step {A} (f : PluginSorter -> A -> PluginSorter) (l : list A) :
  (forall s x, sorter_step s (f s x)) ->
  forall s, sorter_step s (List.fold_left f l s).
Proof.
  intros Hf. induction l as [|x l IH]; intros s; simpl.
  - apply sorter_step_refl.
  - eapply sorter_step_trans; [apply Hf|apply IH].
Qed.

Lemma preserves_ret {A} (a : A) : preserves (ret a).
Proof. intros s r s' [= <- <-]. apply sorter_step_refl. Qed.

Lemma preserves_throw {A} e : preserves (throw (A := A) e).
Proof. intros s r s' [= <- <-]. apply sorter_step_refl. Qed.

Lemma preserves_lift {A} (x : Result A) : preserves (lift x).
Proof. intros s r s' [= <- <-]. apply sorter_step_refl. Qed.

Lemma preserves_modify f : (forall s, sorter_step s (f s)) -> preserves (modify f).
Proof. intros Hf s r s' [= <- <-]. apply Hf. Qed.

Lemma preserves_bind {A B} (m : StateExn PluginSorter A) (k : A -> StateExn PluginSorter B) :
  preserves m -> (forall a, preserves (k a)) -> preserves (bind m k).
Proof.
  intros Hm Hk s r s' Hrun. unfold bind in Hrun.
  destruct (m s) as [[a|e] s1] eqn:Em.
  - eapply sorter_step_trans; [by eapply Hm|by eapply Hk].
  - injection Hrun as <- <-. by eapply Hm.
Qed.

Lemma preserves_get_bind {B} (k : PluginSorter -> StateExn PluginSorter B) :
  (forall s, preserves (k s)) -> preserves (bind get k).
Proof. intros Hk s r s' Hrun. exact (Hk s s r s' Hrun). Qed.

Lemma EdgeCreatesCycle_step fromVertex toVertex s :
  sorter_step s (snd (EdgeCreatesCycle fromVertex toVertex s)).
Proof.
  destruct (EdgeCreatesCycle fromVertex toVertex s) as [answer s'] eqn:Erun.
  by apply EdgeCreatesCycle_sound in Erun as (_ & Hstep & _).
Qed.

Lemma add_unless_cyclic_step fromVertex toVertex edgeType s :
  sorter_step s
    (let '(cyclic, s) := EdgeCreatesCycle fromVertex toVertex s in
     if negb cyclic then AddEdge fromVertex toVertex edgeType s else s).
Proof.
  pose proof (EdgeCreatesCycle_step fromVertex toVertex s) as Hstep.
  destruct (EdgeCreatesCycle fromVertex toVertex s) as [[] s']; simpl in *; [done|].
  eapply sorter_step_trans; [exact Hstep|apply AddEdge_step].
Qed.

Lemma add_edges_from_named_step names vertex edgeType s :
  sorter_step s (add_edges_from_named names vertex edgeType s).
Proof.
  apply fold_left_step. intros s0 name.
  destruct (GetVertexByName name s0); [apply AddEdge_step|apply sorter_step_refl].
Qed.

Lemma add_master_flag_edges_step vit from_vit s :
  sorter_step s (add_master_flag_edges vit from_vit s).
Proof.
  apply fold_left_step. intros s0 vit2.
  repeat case_match; (apply AddEdge_step || apply sorter_step_refl).
Qed.

Lemma AddSpecificEdges_from_step vits : forall s,
  sorter_step s (AddSpecificEdges_from vits s).
Proof.
  induction vits as [|vit rest IH]; intros s; [apply sorter_step_refl|].
  cbn [AddSpecificEdges_from]. cbv zeta.
  eapply sorter_step_trans; [|apply IH].
  repeat (eapply sorter_step_trans; [|apply add_edges_from_named_step]).
  apply add_master_flag_edges_step.
Qed.

Lemma AddSpecificEdges_step s : sorter_step s (AddSpecificEdges s).
Proof. apply AddSpecificEdges_from_step. Qed.

Lemma add_hardcoded_edges_from_preserves game pluginVertex processed vits :
  preserves (add_hardcoded_edges_from game pluginVertex processed vits).
Proof.
  induction vits as [|vit rest IH]; simpl; [apply preserves_ret|].
  destruct (negb (file_exists game _)); [exact IH|].
  destruct (canonical game _) as [canonicalPath|]; [|apply preserves_throw].
  apply preserves_bind; [|by intros _].
  destruct (existsb _ _); [apply preserves_ret|].
  apply preserves_modify. intros s. apply AddEdge_step.
Qed.

Lemma AddHardcodedPluginEdges_loop_preserves game implicitlyActivePlugins :
  forall processed,
  preserves (AddHardcodedPluginEdges_loop game implicitlyActivePlugins processed).
Proof.
  induction implicitlyActivePlugins as [|plugin rest IH]; intros processed; simpl;
    [apply preserves_ret|].
  destruct (canonical game plugin) as [canonicalPath|]; [|apply IH].
  apply preserves_get_bind. intros s.
  assert (preserves
            match GetVertexByName plugin s with
            | Some pluginVertex =>
                add_hardcoded_edges_from game pluginVertex (canonicalPath :: processed)
                  (indexed_vertices s) ;;;
                AddHardcodedPluginEdges_loop game rest (canonicalPath :: processed)
            | None => AddHardcodedPluginEdges_loop game rest (canonicalPath :: processed)
            end) as Hadd.
  { destruct (GetVertexByName plugin s); [|apply IH].
    apply preserves_bind; [apply add_hardcoded_edges_from_preserves|]. intros _. apply IH. }
  destruct (_ && _); [|exact Hadd].
  destruct (logger_ s); [apply IH|exact Hadd].
Qed.

Lemma AddHardcodedPluginEdges_preserves game : preserves (AddHardcodedPluginEdges game).
Proof. apply AddHardcodedPluginEdges_loop_preserves. Qed.

Lemma scan_after_group_plugin_step s vertex scan pluginName scan' :
  sorter_step s (scanSorter scan) ->
  scan_after_group_plugin vertex (Some scan) pluginName = Some scan' ->
  sorter_step s (scanSorter scan').
Proof.
  intros Hs. unfold scan_after_group_plugin.
  destruct (GetVertexByName pluginName (scanSorter scan)) as [parentVertex|];
    [|by intros [= <-]].
  pose proof (EdgeCreatesCycle_step parentVertex vertex (scanSorter scan)) as Hstep.
  destruct (EdgeCreatesCycle parentVertex vertex (scanSorter scan)) as [cyclic s1].
  simpl in Hstep. assert (sorter_step s s1) as Hs1 by by eapply sorter_step_trans.
  intros Hrun. repeat case_match; simplify_eq; exact Hs1.
Qed.

Lemma fold_scan_none {A} (f : option GroupScan -> A -> option GroupScan) (l : list A) :
  (forall x, f None x = None) -> List.fold_left f l None = None.
Proof. intros Hf. induction l as [|x l IH]; simpl; [done|]. by rewrite Hf. Qed.

Lemma scan_vertex_step s vit scan scan' :
  sorter_step s (scanSorter scan) ->
  scan_vertex (Some scan) vit = Some scan' ->
  sorter_step s (scanSorter scan').
Proof.
  unfold scan_vertex.
  generalize (PluginSortingData.GetAfterGroupPlugins (snd vit)) as names.
  intros names. revert scan.
  induction names as [|name names IH]; intros scan Hs; cbn [List.fold_left].
  - by intros [= <-].
  - destruct (scan_after_group_plugin (fst vit) (Some scan) name) as [scan1|] eqn:E1.
    + apply IH. by eapply scan_after_group_plugin_step.
    + by rewrite fold_scan_none.
Qed.

Lemma scan_vertex_none vit : scan_vertex None vit = None.
Proof. unfold scan_vertex. by apply fold_scan_none. Qed.

Lemma AddGroupEdges_step s s' : AddGroupEdges s = Some s' -> sorter_step s s'.
Proof.
  unfold AddGroupEdges.
  assert (forall vits scan scan',
            sorter_step s (scanSorter scan) ->
            List.fold_left scan_vertex vits (Some scan) = Some scan' ->
            sorter_step s (scanSorter scan')) as Hscan.
  { induction vits as [|vit vits IH]; intros scan scan' Hs; cbn [List.fold_left].
    - by intros [= <-].
    - destruct (scan_vertex (Some scan) vit) as [scan1|] eqn:E1.
      + apply IH. by eapply scan_vertex_step.
      + by rewrite (fold_scan_none _ _ scan_vertex_none). }
  destruct (List.fold_left scan_vertex _ _) as [scan|] eqn:Escan; [|done].
  intros [= <-]. apply Hscan in Escan; [|apply sorter_step_refl].
  eapply sorter_step_trans; [exact Escan|].
  apply fold_left_step. intros s0 edgePair. unfold add_acyclic_group_edge.
  destruct (negb _); [apply AddEdge_step|apply sorter_step_refl].
Qed.

Lemma add_overlap_edge_step vit s vit2 : sorter_step s (add_overlap_edge vit s vit2).
Proof.
  unfold add_overlap_edge. destruct (_ || _); [apply sorter_step_refl|].
  destruct (_ <? _)%nat; apply add_unless_cyclic_step.
Qed.

Lemma AddOverlapEdges_step s : sorter_step s (AddOverlapEdges s).
Proof.
  unfold AddOverlapEdges. generalize (indexed_vertices s) as vits. intros vits. revert s.
  induction vits as [|vit rest IH]; intros s; simpl; [apply sorter_step_refl|].
  destruct (Nat.eqb _ 0); [apply IH|].
  eapply sorter_step_trans; [|apply IH].
  apply fold_left_step. intros s0 vit2. apply add_overlap_edge_step.
Qed.

Lemma add_tie_break_edges_preserves vit later : preserves (add_tie_break_edges vit later).
Proof.
  induction later as [|vit2 rest IH]; simpl; [apply preserves_ret|].
  apply preserves_bind; [apply preserves_lift|]. intros order.
  destruct (order <? 0)%Z;
    (apply preserves_bind; [|by intros _]);
    apply preserves_modify; intros s; apply add_unless_cyclic_step.
Qed.

Lemma AddTieBreakEdges_preserves : preserves AddTieBreakEdges.
Proof.
  apply preserves_get_bind. intros s. generalize (indexed_vertices s) as vits.
  induction vits as [|vit rest IH]; simpl; [apply preserves_ret|].
  apply preserves_bind; [apply add_tie_break_edges_preserves|by intros _].
Qed.

Lemma add_all_edges_step game s r s' :
  add_all_edges game s = Some (r, s') -> sorter_step s s'.
Proof.
  unfold add_all_edges. intros Hrun.
  pose proof (AddSpecificEdges_step s) as H1.
  destruct (AddHardcodedPluginEdges game (AddSpecificEdges s)) as [[[]|e] s2] eqn:E2;
    apply AddHardcodedPluginEdges_preserves in E2.
  - destruct (AddGroupEdges s2) as [s3|] eqn:E3; [|done].
    apply AddGroupEdges_step in E3. injection Hrun as Hrun.
    apply AddTieBreakEdges_preserves in Hrun.
    pose proof (AddOverlapEdges_step s3) as H4.
    repeat (eapply sorter_step_trans; [eassumption|]). apply sorter_step_refl.
  - injection Hrun as <- <-. by eapply sorter_step_trans.
Qed.

Lemma empty_cache_sound s : pathsCache_ s = ∅ -> cache_sound s.
Proof. intros Hempty a b Hab. rewrite Hempty in Hab. set_solver. Qed.

(** C10: the paths cache is sound throughout graph construction. It is
    sound when [Sort] has cleared it; [AddEdge], [EdgeCreatesCycle] and each
    of the five edge-adding phases only add edges and keep a sound cache
    sound, so the cache is sound after the whole construction; and when
    [EdgeCreatesCycle(from, to)] answers true from the cache, there is a
    path from [to] to [from]. *)
Theorem pathsCache_sound_throughout :
  (forall s, pathsCache_ s = ∅ -> cache_sound s) /\
  (forall fromVertex toVertex edgeType s,
     sorter_step s (AddEdge fromVertex toVertex edgeType s)) /\
  (forall fromVertex toVertex s answer s',
     EdgeCreatesCycle fromVertex toVertex s = (answer, s') ->
     graph_ s' = graph_ s /\ sorter_step s s' /\
     (cache_sound s -> answer = true -> reaches (graph_ s) toVertex fromVertex)) /\
  (forall s, sorter_step s (AddSpecificEdges s)) /\
  (forall game s r s', AddHardcodedPluginEdges game s = (r, s') -> sorter_step s s') /\
  (forall s s', AddGroupEdges s = Some s' -> sorter_step s s') /\
  (forall s, sorter_step s (AddOverlapEdges s)) /\
  (forall s r s', AddTieBreakEdges s = (r, s') -> sorter_step s s') /\
  (forall game plugins groups logger r s',
     add_all_edges game (empty_sorter plugins groups logger) = Some (r, s') ->
     cache_sound s') /\
  (forall fromVertex toVertex s,
     cache_sound s -> (toVertex, fromVertex) ∈ pathsCache_ s ->
     EdgeCreatesCycle fromVertex toVertex s = (true, s) /\
     path (graph_ s) toVertex fromVertex).
Proof.
  split; [exact empty_cache_sound|].
  split; [exact AddEdge_step|].
  split; [exact EdgeCreatesCycle_sound|].
  split; [exact AddSpecificEdges_step|].
  split; [exact AddHardcodedPluginEdges_preserves|].
  split; [exact AddGroupEdges_step|].
  split; [exact AddOverlapEdges_step|].
  split; [exact AddTieBreakEdges_preserves|].
  split.
  - intros game plugins groups logger r s' Hrun.
    apply add_all_edges_step in Hrun. apply (step_cache _ _ Hrun).
    by apply empty_cache_sound.
  - intros fromVertex toVertex s Hs Hin. split; [|by apply Hs].
    unfold EdgeCreatesCycle. by destruct (decide _).
Qed.

(** ** The group resolver *)

Module GroupSortFacts.

Import GroupSort.

Example transitive_after_groups_of_chain :
  GetTransitiveAfterGroups chain_groups =
  Some (Ok (<["c" := {["a"; "b"]}]> (<["b" := {["a"]}]> (<["a" := ∅]> ∅)))).
Proof. vm_compute. reflexivity. Qed.

Example undefined_after_group :
  GetTransitiveAfterGroups [make_group "b" ["a"]] = Some (Err (UndefinedGroupError "a")).
Proof. vm_compute. reflexivity. Qed.

Example cycle_found_from_a :
  GetTransitiveAfterGroups cyclic_groups =
  Some (Err (CyclicInteractionError
               [load_after_step "a"; load_after_step "c"; load_after_step "b"])).
Proof. vm_compute. reflexivity. Qed.

Example cycle_found_from_b :
  GetTransitiveAfterGroups
    [make_group "b" ["a"]; make_group "c" ["b"]; make_group "a" ["c"]] =
  Some (Err (CyclicInteractionError
               [load_after_step "b"; load_after_step "a"; load_after_step "c"])).
Proof. vm_compute. reflexivity. Qed.

Example cycle_found_from_c :
  GetTransitiveAfterGroups
    [make_group "c" ["b"]; make_group "a" ["c"]; make_group "b" ["a"]] =
  Some (Err (CyclicInteractionError
               [load_after_step "c"; load_after_step "b"; load_after_step "a"])).
Proof. vm_compute. reflexivity. Qed.

Lemma find_group_name groups name g :
  find_group name groups = Some g -> In g groups /\ group_name g = name.
Proof.
  unfold find_group. intros H. apply find_some in H as [Hin Heq].
  by apply String.eqb_eq in Heq.
Qed.

Lemma find_group_member groups g : In g groups -> defined groups (group_name g).
Proof.
  intros Hin. unfold defined, find_group.
  destruct (List.find _ groups) as [g'|] eqn:E; [by exists g'|].
  apply (find_none _ _ E) in Hin. by rewrite String.eqb_refl in Hin.
Qed.

Lemma on_stack_In name stack : on_stack name stack = true <-> In name stack.
Proof.
  unfold on_stack. rewrite existsb_exists. split.
  - intros (x & Hin & Heq). apply String.eqb_eq in Heq. by subst.
  - intros Hin. exists name. by rewrite String.eqb_refl.
Qed.

Lemma chained_cycle_from groups name stack :
  chained groups stack -> chained groups (cycle_from name stack).
Proof.
  induction stack as [|top rest IH]; intros Hc; [done|].
  cbn [cycle_from]. destruct (String.eqb top name); [done|].
  apply IH. destruct rest; simpl in *; tauto.
Qed.

Lemma cycle_from_head name stack :
  In name stack ->
  exists rest, cycle_from name stack = name :: rest /\
               List.last (cycle_from name stack) "" = List.last stack "".
Proof.
  induction stack as [|top rest IH]; intros Hin; [done|].
  cbn [cycle_from]. destruct (String.eqb_spec top name) as [->|Hne].
  - by exists rest.
  - destruct Hin as [|Hin]; [done|].
    destruct (IH Hin) as (rest' & Hc & Hl). exists rest'. split; [done|].
    rewrite Hl. destruct rest; [done|reflexivity].
Qed.

(** *** Folding over results *)

Section FoldResults.

Context {A B C : Type} (f : A -> option (Result B)) (combine : C -> A -> B -> C).

Lemma fold_results_none l : fold_results f combine l None = None.
Proof. by induction l. Qed.

Lemma fold_results_err l e : fold_results f combine l (Some (Err e)) = Some (Err e).
Proof. by induction l. Qed.

Lemma fold_results_cons x l c :
  fold_results f combine (x :: l) (Some (Ok c)) =
  match f x with
  | Some (Ok b) => fold_results f combine l (Some (Ok (combine c x b)))
  | Some (Err e) => Some (Err e)
  | None => None
  end.
Proof.
  unfold fold_results at 1. cbn [List.fold_left].
  destruct (f x) as [[b|e]|]; [done|apply fold_results_err|apply fold_results_none].
Qed.

Lemma fold_results_returns l : forall c,
  (forall x, In x l -> is_Some (f x)) ->
  is_Some (fold_results f combine l (Some (Ok c))).
Proof.
  induction l as [|x l IH]; intros c Hf; [by eexists|].
  rewrite fold_results_cons.
  destruct (Hf x (or_introl eq_refl)) as [[b|e] Hx]; rewrite Hx; [|by eexists].
  apply IH. intros y Hy. apply Hf. by right.
Qed.

Lemma fold_results_ok l : forall c c',
  fold_results f combine l (Some (Ok c)) = Some (Ok c') ->
  forall x, In x l -> exists b, f x = Some (Ok b).
Proof.
  induction l as [|x l IH]; intros c c' Hrun y Hy; [done|].
  rewrite fold_results_cons in Hrun.
  destruct (f x) as [[b|e]|] eqn:Hx; try done.
  destruct Hy as [<-|Hy]; [by exists b|]. by eapply IH.
Qed.

Lemma fold_results_threw l : forall c e,
  fold_results f combine l (Some (Ok c)) = Some (Err e) ->
  exists x, In x l /\ f x = Some (Err e).
Proof.
  induction l as [|x l IH]; intros c e Hrun; [done|].
  rewrite fold_results_cons in Hrun.
  destruct (f x) as [[b|e']|] eqn:Hx; try done.
  - destruct (IH _ _ Hrun) as (y & Hy & Hfy). exists y. split; [by right|done].
  - injection Hrun as ->. exists x. split; [by left|done].
Qed.

End FoldResults.

(** *** The traversal returns within its budget *)

Lemma stack_bound groups stack :
  List.NoDup stack -> (forall n, In n stack -> defined groups n) ->
  (List.length stack <= List.length groups)%nat.
Proof.
  intros Hnd Hdef. rewrite <- (length_map group_name groups).
  apply List.NoDup_incl_length; [done|]. intros n Hn.
  destruct (Hdef n Hn) as [g Hg]. apply find_group_name in Hg as [Hin <-].
  by apply in_map.
Qed.

Lemma visit_returns groups fuel : forall stack name,
  List.NoDup stack -> (forall n, In n stack -> defined groups n) ->
  (List.length groups < fuel + List.length stack)%nat ->
  is_Some (visit fuel groups stack name).
Proof.
  induction fuel as [|fuel IH]; intros stack name Hnd Hdef Hfuel.
  - pose proof (stack_bound groups stack Hnd Hdef). lia.
  - cbn [visit]. destruct (on_stack name stack) eqn:Hon; [by eexists|].
    destruct (find_group name groups) as [g|] eqn:Hg; [|by eexists].
    apply fold_results_returns. intros afterName _. apply IH.
    + apply List.NoDup_app; [done|repeat constructor; by intros []|].
      intros x Hx [<-|[]]. apply on_stack_In in Hx. congruence.
    + intros n [Hn|[<-|[]]]%in_app_or; [by apply Hdef|by exists g].
    + rewrite length_app. simpl. lia.
Qed.

(** *** What the traversal throws *)

Lemma chained_snoc groups stack name :
  chained groups stack ->
  stack = [] \/ after groups (List.last stack "") name ->
  chained groups (stack ++ [name]).
Proof.
  induction stack as [|a stack IH]; intros Hc Hlink; [done|].
  destruct stack as [|b stack].
  - simpl in *. destruct Hlink as [|Hlink]; [done|]. by split.
  - destruct Hc as [Hab Hc]. split; [done|]. apply IH; [done|].
    right. by destruct Hlink as [|Hlink].
Qed.

Lemma visit_threw groups fuel : forall stack name e,
  visit fuel groups stack name = Some (Err e) ->
  chained groups stack ->
  stack = [] \/ after groups (List.last stack "") name ->
  (exists names, e = CyclicInteractionError (List.map load_after_step names) /\
                 after_cycle groups names) \/
  (exists n, e = UndefinedGroupError n /\ ~ defined groups n /\
             (n = name \/ exists x, after groups x n)).
Proof.
  induction fuel as [|fuel IH]; intros stack name e Hrun Hc Hlink; [done|].
  cbn [visit] in Hrun. destruct (on_stack name stack) eqn:Hon.
  - injection Hrun as <-. left. apply on_stack_In in Hon.
    exists (cycle_from name stack). split; [done|].
    destruct (cycle_from_head name stack Hon) as (rest & Hhead & Hlast).
    split; [by rewrite Hhead|]. split; [by apply chained_cycle_from|].
    rewrite Hlast, Hhead. simpl.
    destruct Hlink as [->|Hlink]; [done|exact Hlink].
  - destruct (find_group name groups) as [g|] eqn:Hg.
    + apply fold_results_threw in Hrun as (afterName & Hin & Hvisit).
      assert (after groups name afterName) as Hafter by by exists g.
      destruct (IH _ _ _ Hvisit) as [Hcyc|(n & -> & Hundef & Hn)].
      * by apply chained_snoc.
      * right. by rewrite List.last_last.
      * by left.
      * right. exists n. split; [done|]. split; [done|]. right.
        destruct Hn as [->|Hn]; [by exists name|done].
    + injection Hrun as <-. right. exists name. split; [done|]. split; [|by left].
      intros [g Hg']. congruence.
Qed.

(** *** A cycle keeps the traversal from finishing *)

Lemma visit_ok_step groups fuel stack x y r :
  visit fuel groups stack x = Some (Ok r) -> after groups x y ->
  exists fuel' r', visit fuel' groups (stack ++ [x]) y = Some (Ok r').
Proof.
  destruct fuel as [|fuel]; [done|]. cbn [visit].
  destruct (on_stack x stack); [done|].
  intros Hrun (g & Hg & Hy). rewrite Hg in Hrun.
  destruct (fold_results_ok _ _ _ _ _ Hrun y Hy) as [r' Hr']. by exists fuel, r'.
Qed.

Lemma visit_ok_walk groups a b :
  tc (after groups) a b ->
  forall fuel stack r,
    visit fuel groups stack a = Some (Ok r) ->
    exists fuel' stack' r',
      (forall n, In n stack -> In n stack') /\ In a stack' /\
      visit fuel' groups stack' b = Some (Ok r').
Proof.
  induction 1 as [a b Hab|a m b Ham Hmb IH]; intros fuel stack r Hrun.
  - destruct (visit_ok_step _ _ _ _ _ _ Hrun Hab) as (fuel' & r' & Hr').
    exists fuel', (stack ++ [a]), r'. split; [|split; [|done]].
    + intros n Hn. apply in_or_app. by left.
    + apply in_or_app. right. by left.
  - destruct (visit_ok_step _ _ _ _ _ _ Hrun Ham) as (fuel1 & r1 & Hr1).
    destruct (IH _ _ _ Hr1) as (fuel' & stack' & r' & Hsub & _ & Hr').
    exists fuel', stack', r'. split; [|split; [|done]].
    + intros n Hn. apply Hsub, in_or_app. by left.
    + apply Hsub, in_or_app. right. by left.
Qed.

Lemma visit_on_stack_not_ok groups fuel stack x r :
  In x stack -> visit fuel groups stack x <> Some (Ok r).
Proof.
  intros Hin. destruct fuel as [|fuel]; [done|]. cbn [visit].
  apply on_stack_In in Hin. by rewrite Hin.
Qed.

Lemma cycle_not_ok groups x fuel stack r :
  tc (after groups) x x -> visit fuel groups stack x <> Some (Ok r).
Proof.
  intros Hcycle Hrun.
  destruct (visit_ok_walk groups x x Hcycle fuel stack r Hrun)
    as (fuel' & stack' & r' & _ & Hin & Hr').
  by apply (visit_on_stack_not_ok groups fuel' stack' x r' Hin).
Qed.

Lemma GetTransitiveAfterGroups_returns groups :
  is_Some (GetTransitiveAfterGroups groups).
Proof.
  apply fold_results_returns. intros g _. apply visit_returns.
  - constructor.
  - by intros n [].
  - simpl. lia.
Qed.

(** A set of groups whose after-relation has a cycle is never mapped: the
    traversal throws, [CyclicInteractionError] with a cycle of the relation
    or [UndefinedGroupError] with an after-group that is referred to and not
    defined, whichever it meets first. *)
Lemma cyclic_after_groups_never_mapped groups x :
  tc (after groups) x x ->
  exists e,
    GetTransitiveAfterGroups groups = Some (Err e) /\
    ((exists names, e = CyclicInteractionError (List.map load_after_step names) /\
                    after_cycle groups names) \/
     (exists y n, e = UndefinedGroupError n /\ after groups y n /\ ~ defined groups n)).
Proof.
  intros Hcycle.
  destruct (GetTransitiveAfterGroups_returns groups) as [[mapped|e] Hrun].
  - exfalso. apply tc_rtc_l with (x := x) in Hcycle as Hx; [|done].
    assert (defined groups x) as [g Hg].
    { inversion Hcycle as [? ? (g & Hg & _)|? ? ? (g & Hg & _)]; by exists g. }
    apply find_group_name in Hg as [Hin <-].
    destruct (fold_results_ok _ _ _ _ _ Hrun g Hin) as [r Hr].
    by apply cycle_not_ok in Hr.
  - exists e. split; [done|]. pose proof Hrun as Hthrew.
    apply fold_results_threw in Hthrew as (g & Hin & Hvisit).
    destruct (visit_threw _ _ _ _ _ Hvisit I (or_introl eq_refl))
      as [(names & -> & Hnames)|(n & -> & Hundef & [->|[y Hy]])].
    + left. by exists names.
    + exfalso. by apply Hundef, find_group_member.
    + right. by exists y, n.
Qed.

(** C8 as stated fails where an after-group is not defined: of the groups b
    after zzz and a after a, whose after-relation has the cycle a after a,
    the traversal in this order throws [UndefinedGroupError] for zzz, and in
    the other order [CyclicInteractionError]. *)
Lemma cyclic_after_groups_with_undefined_group :
  tc (after half_defined_groups) "a" "a" /\
  GetTransitiveAfterGroups half_defined_groups = Some (Err (UndefinedGroupError "zzz")) /\
  GetTransitiveAfterGroups (List.rev half_defined_groups) =
    Some (Err (CyclicInteractionError [load_after_step "a"])).
Proof.
  split; [|split; vm_compute; reflexivity].
  apply tc_once. eexists. split; [reflexivity|by left].
Qed.

(** C8 (as amended): when every after-group that is referred to is defined
    and the after-relation has a cycle, [GetTransitiveAfterGroups] throws
    [CyclicInteractionError]; its payload lists the groups of a cycle of the
    after-relation in order, every step annotated [LoadAfter]. For the
    groups a after c, b after a, c after b the payload has length three. *)
Theorem cyclic_after_groups_throw :
  (forall groups x,
     all_defined groups -> tc (after groups) x x ->
     exists names,
       GetTransitiveAfterGroups groups =
         Some (Err (CyclicInteractionError (List.map load_after_step names))) /\
       after_cycle groups names /\
       Forall (fun v => GetTypeOfEdgeToNextVertex v = LoadAfter)
         (List.map load_after_step names)) /\
  (exists cycle,
     GetTransitiveAfterGroups cyclic_groups = Some (Err (CyclicInteractionError cycle)) /\
     List.length cycle = 3%nat /\
     List.map Vertex_GetName cycle = ["a"; "c"; "b"] /\
     Forall (fun v => GetTypeOfEdgeToNextVertex v = LoadAfter) cycle).
Proof.
  split.
  - intros groups x Hdef Hcycle.
    destruct (GetTransitiveAfterGroups_returns groups) as [[mapped|e] Hrun].
    + exfalso. apply tc_rtc_l with (x := x) in Hcycle as Hx; [|done].
      assert (defined groups x) as [g Hg].
      { inversion Hcycle as [? ? (g & Hg & _)|? ? ? (g & Hg & _)]; by exists g. }
      apply find_group_name in Hg as [Hin <-].
      destruct (fold_results_ok _ _ _ _ _ Hrun g Hin) as [r Hr].
      by apply cycle_not_ok in Hr.
    + pose proof Hrun as Hthrew.
      apply fold_results_threw in Hthrew as (g & Hin & Hvisit).
      destruct (visit_threw _ _ _ _ _ Hvisit I (or_introl eq_refl))
        as [(names & -> & Hnames)|(n & -> & Hundef & [->|[y Hy]])].
      * exists names. split; [done|]. split; [done|].
        apply Forall_forall. by intros v (n & -> & _)%list_elem_of_fmap.
      * exfalso. by apply Hundef, find_group_member.
      * exfalso. by apply Hundef, (Hdef y).
  - eexists. split; [vm_compute; reflexivity|]. split; [done|]. split; [done|].
    by repeat constructor.
Qed.

Lemma cyclic_groups_all_defined : all_defined cyclic_groups.
Proof.
  intros x y (g & Hg & Hy). apply find_group_name in Hg as [Hin <-].
  simpl in Hin. destruct Hin as [<-|[<-|[<-|[]]]]; simpl in Hy;
    destruct Hy as [<-|[]]; by eexists.
Defined.

Lemma cyclic_groups_cycle : tc (after cyclic_groups) "a" "a".
Proof.
  apply tc_l with "c"; [eexists; split; [reflexivity|by left]|].
  apply tc_l with "b"; [eexists; split; [reflexivity|by left]|].
  apply tc_once. eexists. split; [reflexivity|by left].
Defined.

Lemma cyclic_after_groups_throw_witness :
  exists names,
    GetTransitiveAfterGroups cyclic_groups =
      Some (Err (CyclicInteractionError (List.map load_after_step names))) /\
    after_cycle cyclic_groups names /\
    Forall (fun v => GetTypeOfEdgeToNextVertex v = LoadAfter)
      (List.map load_after_step names).
Proof.
  exact (proj1 cyclic_after_groups_throw cyclic_groups "a"
           cyclic_groups_all_defined cyclic_groups_cycle).
Defined.

End GroupSortFacts.

(** ** Hardcoded edges and Skyrim's Update.esm *)

Example hardcoded_edges_with_logger :
  AddHardcodedPluginEdges skyrim_game (skyrim_sorter true) =
  (Ok tt, AddEdge 0 2 hardcoded (AddEdge 0 1 hardcoded (skyrim_sorter true))).
Proof. vm_compute. reflexivity. Qed.

(** C1 fails on the code when no logger is configured: the [continue] that
    skips Update.esm sits inside [if (logger_)]. In a sort of the three
    masters [Skyrim.esm], [Early.esm] and [Update.esm], [AddSpecificEdges]
    adds the master edges from Skyrim.esm, and [AddHardcodedPluginEdges],
    which [Sort] runs next, adds without a logger the hardcoded edge from
    Update.esm (vertex 2) to Early.esm (vertex 1); the edge is in the graph
    the whole edge construction leaves. With a logger the same sort has no
    hardcoded edge from Update.esm. *)
Theorem AddHardcodedPluginEdges_Update_esm_without_logger :
  Type_ masters_game = tes5 /\
  In "Update.esm" (GetImplicitlyActivePlugins (GetLoadOrderHandler masters_game)) /\
  equivalent masters_game "Update.esm" "update.esm" = true /\
  logger_ (AddSpecificEdges (masters_sorter false)) = false /\
  edges (graph_ (AddSpecificEdges (masters_sorter false))) =
    [(0%nat, 1%nat, master); (0%nat, 2%nat, master)] /\
  GetVertexByName "Update.esm" (AddSpecificEdges (masters_sorter false)) = Some 2%nat /\
  GetVertexByName "Early.esm" (AddSpecificEdges (masters_sorter false)) = Some 1%nat /\
  AddHardcodedPluginEdges masters_game (AddSpecificEdges (masters_sorter false)) =
    (Ok tt, AddEdge 2 1 hardcoded (AddSpecificEdges (masters_sorter false))) /\
  edges (graph_ (snd (AddHardcodedPluginEdges masters_game
                        (AddSpecificEdges (masters_sorter false))))) =
    [(0%nat, 1%nat, master); (0%nat, 2%nat, master); (2%nat, 1%nat, hardcoded)] /\
  (exists s',
     add_all_edges masters_game (masters_sorter false) = Some (Ok tt, s') /\
     In (2%nat, 1%nat, hardcoded) (edges (graph_ s'))) /\
  (exists s',
     add_all_edges masters_game (masters_sorter true) = Some (Ok tt, s') /\
     forall toVertex, ~ In (2%nat, toVertex, hardcoded) (edges (graph_ s'))).
Proof.
  split; [reflexivity|]. split; [right; by left|]. split; [reflexivity|].
  split; [reflexivity|]. split; [vm_compute; reflexivity|]. split; [reflexivity|].
  split; [reflexivity|]. split; [vm_compute; reflexivity|].
  split; [vm_compute; reflexivity|]. split.
  - destruct (add_all_edges masters_game (masters_sorter false)) as [[r s']|] eqn:Hrun;
      [|vm_compute in Hrun; discriminate].
    vm_compute in Hrun. injection Hrun as <- <-. eexists. split; [reflexivity|].
    simpl. right. right. by left.
  - destruct (add_all_edges masters_game (masters_sorter true)) as [[r s']|] eqn:Hrun;
      [|vm_compute in Hrun; discriminate].
    vm_compute in Hrun. injection Hrun as <- <-. eexists. split; [reflexivity|].
    simpl. intros toVertex [H|[H|[H|[]]]]; discriminate H.
Qed.

Lemma hardcoded_only_refl game s : hardcoded_only game s s.
Proof. constructor; try done. exists []. by rewrite app_nil_r. Qed.

Lemma hardcoded_only_AddEdge game s0 s pluginVertex v :
  hardcoded_only game s0 s -> hardcoded_source game s0 pluginVertex ->
  hardcoded_only game s0 (AddEdge pluginVertex v hardcoded s).
Proof.
  intros [Hv Hl (added & He & Hall)] Hsrc. unfold AddEdge.
  destruct (decide _); [by constructor; [| |exists added]|].
  constructor; simpl; try done.
  exists (added ++ [(pluginVertex, v, hardcoded)]). rewrite He, app_assoc.
  split; [done|]. apply Forall_app. split; [done|]. by repeat constructor.
Qed.

Lemma add_hardcoded_edges_from_only game s0 pluginVertex processed vits :
  hardcoded_source game s0 pluginVertex ->
  forall s r s',
    hardcoded_only game s0 s ->
    add_hardcoded_edges_from game pluginVertex processed vits s = (r, s') ->
    hardcoded_only game s0 s'.
Proof.
  intros Hsrc. induction vits as [|vit rest IH]; intros s r s' Hs; simpl.
  - by intros [= <- <-].
  - destruct (negb (file_exists game _)); [by apply IH|].
    destruct (canonical game _) as [canonicalPath|]; [|by intros [= <- <-]].
    unfold bind. destruct (existsb _ _); simpl; [by apply IH|].
    apply IH. by apply hardcoded_only_AddEdge.
Qed.

Lemma AddHardcodedPluginEdges_loop_only game s0 plugins :
  Type_ game = tes5 -> logger_ s0 = true ->
  (forall plugin, In plugin plugins ->
     In plugin (GetImplicitlyActivePlugins (GetLoadOrderHandler game))) ->
  forall processed s r s',
    hardcoded_only game s0 s ->
    AddHardcodedPluginEdges_loop game plugins processed s = (r, s') ->
    hardcoded_only game s0 s'.
Proof.
  intros Htes5 Hlogger. induction plugins as [|plugin rest IH];
    intros Hin processed s r s' Hs; simpl.
  - by intros [= <- <-].
  - assert (forall p, In p rest ->
              In p (GetImplicitlyActivePlugins (GetLoadOrderHandler game))) as Hrest
      by (intros p Hp; apply Hin; by right).
    destruct (canonical game plugin) as [canonicalPath|]; [|by apply IH].
    unfold bind at 1. unfold get. rewrite Htes5. simpl.
    rewrite (hardcoded_logger _ _ _ Hs), Hlogger.
    destruct (equivalent game plugin "update.esm") eqn:Hequiv; [by apply IH|].
    unfold GetVertexByName. rewrite (hardcoded_vertices _ _ _ Hs).
    destruct (find_vertex plugin (vertices (graph_ s0)) 0) as [pluginVertex|] eqn:Hfind;
      [|by apply IH].
    unfold bind. intros Hrun.
    destruct (add_hardcoded_edges_from game pluginVertex (canonicalPath :: processed)
                (indexed_vertices s) s) as [[[]|e] s1] eqn:Hinner.
    + eapply IH; [done| |exact Hrun].
      eapply add_hardcoded_edges_from_only; [|exact Hs|exact Hinner].
      exists plugin. split; [apply Hin; by left|done].
    + injection Hrun as <- <-.
      eapply add_hardcoded_edges_from_only; [|exact Hs|exact Hinner].
      exists plugin. split; [apply Hin; by left|done].
Qed.

(** X26: with a logger the skip works as the trace message says: in a Skyrim
    game every edge the phase adds is a hardcoded edge whose source is the
    vertex of an implicitly active plugin that is not equivalent to
    update.esm. *)
Lemma AddHardcodedPluginEdges_skips_Update_esm_with_logger game s r s' :
  Type_ game = tes5 -> logger_ s = true ->
  AddHardcodedPluginEdges game s = (r, s') ->
  exists added,
    edges (graph_ s') = edges (graph_ s) ++ added /\
    forall fromVertex toVertex edgeType,
      In (fromVertex, toVertex, edgeType) added ->
      edgeType = hardcoded /\ hardcoded_source game s fromVertex.
Proof.
  intros Htes5 Hlogger Hrun.
  eapply AddHardcodedPluginEdges_loop_only in Hrun;
    [|done|done|done|apply hardcoded_only_refl].
  destruct Hrun as [_ _ (added & He & Hall)]. exists added. split; [done|].
  intros u v t Hin. rewrite Forall_forall in Hall.
  by apply (Hall (u, v, t)), list_elem_of_In.
Qed.

(** ** Worked runs *)

Lemma pathsCache_sound_throughout_witness :
  cache_sound long_chain_sorter /\
  cache_sound (snd (EdgeCreatesCycle 3 0 long_chain_sorter)) /\
  path (graph_ long_chain_sorter) 0%nat 2%nat /\
  (exists r s', add_all_edges skyrim_game (skyrim_sorter false) = Some (r, s') /\
                cache_sound s').
Proof.
  destruct pathsCache_sound_throughout
    as (Hempty & HAddEdge & HCycle & _ & _ & _ & _ & _ & Hall & _).
  assert (cache_sound long_chain_sorter) as Hchain.
  { unfold long_chain_sorter.
    repeat (apply (step_cache _ _ (HAddEdge _ _ _ _))). by apply Hempty. }
  destruct (EdgeCreatesCycle 3 0 long_chain_sorter) as [answer s'] eqn:Erun.
  destruct (HCycle _ _ _ _ _ Erun) as (Hgraph & Hstep & _).
  pose proof (step_cache _ _ Hstep Hchain) as Hs'.
  split; [exact Hchain|]. split; [exact Hs'|]. split.
  - rewrite <- Hgraph. apply Hs'.
    vm_compute in Erun. injection Erun as _ <-. by vm_compute.
  - destruct (add_all_edges skyrim_game (skyrim_sorter false)) as [[r s1]|] eqn:Eall;
      [|vm_compute in Eall; discriminate].
    exists r, s1. split; [reflexivity|]. by apply (Hall _ _ _ _ _ _ Eall).
Defined.

Example LoadLists_both :
  LoadLists sample_database_host "masterlist.yaml" "userlist.yaml" empty_database =
  (Ok tt, loaded_database).
Proof. reflexivity. Qed.

Lemma LoadLists_atomic_witness :
  LoadLists sample_database_host "masterlist.yaml" "missing.yaml" loaded_database =
    (Err (userlist_missing "missing.yaml"), loaded_database) /\
  LoadLists sample_database_host "missing.yaml" "userlist.yaml" loaded_database =
    (Err (masterlist_missing "missing.yaml"), loaded_database) /\
  LoadLists sample_database_host "masterlist.yaml" "broken.yaml" loaded_database =
    (Err (FileAccessError "userlist parsing failed"), loaded_database).
Proof.
  split; [|split].
  - destruct (LoadLists_atomic sample_database_host "masterlist.yaml" "missing.yaml"
                loaded_database) as (Hatomic & _).
    destruct (LoadLists sample_database_host "masterlist.yaml" "missing.yaml"
                loaded_database) as [[[]|e] db'] eqn:Erun;
      [vm_compute in Erun; discriminate|].
    rewrite (Hatomic e db' eq_refl). vm_compute in Erun. by injection Erun as <- _.
  - destruct (LoadLists_atomic sample_database_host "missing.yaml" "userlist.yaml"
                loaded_database) as (_ & Hmissing & _).
    apply Hmissing; [discriminate|reflexivity].
  - destruct (LoadLists_atomic sample_database_host "masterlist.yaml" "broken.yaml"
                loaded_database) as (Hatomic & _).
    destruct (LoadLists sample_database_host "masterlist.yaml" "broken.yaml"
                loaded_database) as [[[]|e] db'] eqn:Erun;
      [vm_compute in Erun; discriminate|].
    rewrite (Hatomic e db' eq_refl). vm_compute in Erun. by injection Erun as <- _.
Defined.

Example GetPluginMetadata_merged :
  fst (GetPluginMetadata sample_database_host loaded_database "foo.esp" true false
         GameCache.empty) =
  Ok (Some (PluginMetadata.SetMessages
              (PluginMetadata.GetMessages (with_message "Foo.esp" "from the masterlist") ++
               PluginMetadata.GetMessages (with_message "Foo.esp" "from the user"))
              (with_message "Foo.esp" "from the masterlist"))).
Proof. reflexivity. Qed.

Example GetPluginMetadata_masterlist_only :
  fst (GetPluginMetadata sample_database_host loaded_database "foo.esp" false false
         GameCache.empty) =
  Ok (Some (with_message "Foo.esp" "from the masterlist")).
Proof. reflexivity. Qed.

Example GetPluginMetadata_user_only :
  fst (GetPluginMetadata sample_database_host loaded_database "Bar.esp" true true
         GameCache.empty) =
  Ok (Some (with_message "Bar.esp" "only the user")).
Proof. vm_compute. reflexivity. Qed.

Example GetPluginMetadata_absent :
  fst (GetPluginMetadata sample_database_host loaded_database "Baz.esp" true true
         GameCache.empty) = Ok None.
Proof. reflexivity. Qed.
(** ** The cycle test is exact *)

Lemma expand_forward_visits start adjacent : forall queue visited cache queue' visited' cache',
  expand_forward start adjacent queue visited cache = (queue', visited', cache') ->
  (forall x, x ∈ queue -> x ∈ queue') /\
  (forall x, x ∈ visited -> x ∈ visited') /\
  (forall x, x ∈ adjacent -> x ∈ visited') /\
  (forall x, x ∈ visited' -> x ∈ visited \/ x ∈ queue').
Proof.
  induction adjacent as [|a adjacent IH]; simpl; intros * Hrun.
  - injection Hrun as <- <- <-. repeat split; auto. by intros x Hx%elem_of_nil.
  - destruct (decide (a ∈ visited)) as [Hin|Hnew].
    + destruct (IH _ _ _ _ _ _ Hrun) as (Hq & Hv & Ha & Hnew').
      repeat split; auto.
      intros x [->|Hx]%elem_of_cons; auto.
    + destruct (IH _ _ _ _ _ _ Hrun) as (Hq & Hv & Ha & Hnew').
      repeat split.
      * intros x Hx. apply Hq, elem_of_app. by left.
      * intros x Hx. apply Hv, elem_of_union. by right.
      * intros x [->|Hx]%elem_of_cons; [|by apply Ha].
        apply Hv, elem_of_union. left. by apply elem_of_singleton.
      * intros x Hx. destruct (Hnew' x Hx) as [[->%elem_of_singleton|Hxv]%elem_of_union|Hxq];
          auto.
        right. apply Hq, elem_of_app. right. by apply list_elem_of_singleton.
Qed.

Lemma expand_reverse_visits end_ adjacent : forall queue visited cache queue' visited' cache',
  expand_reverse end_ adjacent queue visited cache = (queue', visited', cache') ->
  (forall x, x ∈ queue -> x ∈ queue') /\
  (forall x, x ∈ visited -> x ∈ visited') /\
  (forall x, x ∈ adjacent -> x ∈ visited') /\
  (forall x, x ∈ visited' -> x ∈ visited \/ x ∈ queue').
Proof.
  induction adjacent as [|a adjacent IH]; simpl; intros * Hrun.
  - injection Hrun as <- <- <-. repeat split; auto. by intros x Hx%elem_of_nil.
  - destruct (decide (a ∈ visited)) as [Hin|Hnew].
    + destruct (IH _ _ _ _ _ _ Hrun) as (Hq & Hv & Ha & Hnew').
      repeat split; auto.
      intros x [->|Hx]%elem_of_cons; auto.
    + destruct (IH _ _ _ _ _ _ Hrun) as (Hq & Hv & Ha & Hnew').
      repeat split.
      * intros x Hx. apply Hq, elem_of_app. by left.
      * intros x Hx. apply Hv, elem_of_union. by right.
      * intros x [->|Hx]%elem_of_cons; [|by apply Ha].
        apply Hv, elem_of_union. left. by apply elem_of_singleton.
      * intros x Hx. destruct (Hnew' x Hx) as [[->%elem_of_singleton|Hxv]%elem_of_union|Hxq];
          auto.
        right. apply Hq, elem_of_app. right. by apply list_elem_of_singleton.
Qed.

(** A set that holds the start, is closed under edges and misses the end
    separates the two. *)
Lemma closed_forward_separates g (visited : gset vertex_t) start end_ :
  start ∈ visited ->
  (forall x, x ∈ visited -> x <> end_ /\ forall y, edge g x y -> y ∈ visited) ->
  ~ reaches g start end_.
Proof.
  intros Hstart Hclosed Hreach.
  assert (forall a b, rtc (edge g) a b -> a ∈ visited -> b ∈ visited) as Hin.
  { induction 1 as [|a m b Ham _ IH]; [done|]. intros Ha. apply IH.
    by apply (Hclosed a Ha). }
  by destruct (Hclosed end_ (Hin _ _ Hreach Hstart)).
Qed.

Lemma closed_reverse_separates g (visited : gset vertex_t) start end_ :
  end_ ∈ visited ->
  (forall x, x ∈ visited -> x <> start /\ forall y, edge g y x -> y ∈ visited) ->
  ~ reaches g start end_.
Proof.
  intros Hend Hclosed Hreach.
  assert (forall a b, rtc (edge g) a b -> b ∈ visited -> a ∈ visited) as Hin.
  { induction 1 as [|a m b Ham _ IH]; [done|]. intros Hb.
    by apply (Hclosed m (IH Hb)). }
  by destruct (Hclosed start (Hin _ _ Hreach Hend)).
Qed.

Lemma search_loop_complete g start end_ fuel : forall st cache,
  forward_progress g start end_ st -> reverse_progress g start end_ st ->
  search_loop fuel g start end_ st = Some (false, cache) ->
  ~ reaches g start end_.
Proof.
  induction fuel as [|fuel IH]; intros st cache [Fs Fe] [Rs Re] Hrun; [done|].
  simpl in Hrun.
  destruct (forwardQueue st) as [|v forwardRest] eqn:Efq.
  { apply (closed_forward_separates g (forwardVisited st)); [done|].
    intros x Hx. destruct (Fe x Hx) as [Hq|Hdone]; [|done]. by apply elem_of_nil in Hq. }
  destruct (reverseQueue st) as [|w reverseRest] eqn:Erq.
  { apply (closed_reverse_separates g (reverseVisited st)); [done|].
    intros x Hx. destruct (Re x Hx) as [Hq|Hdone]; [|done]. by apply elem_of_nil in Hq. }
  destruct (Nat.eqb v end_ || bool_decide (v ∈ reverseVisited st)) eqn:Efound; [done|].
  apply orb_false_iff in Efound as [Hv%Nat.eqb_neq _].
  destruct (expand_forward start (adjacent_vertices v g) forwardRest
              (forwardVisited st) (searchCache st)) as [[fq fv] cache1] eqn:Ef.
  destruct (expand_forward_visits _ _ _ _ _ _ _ _ Ef) as (Fq & Fv & Fa & Fnew).
  destruct (Nat.eqb w start || bool_decide (w ∈ fv)) eqn:Efound2; [done|].
  apply orb_false_iff in Efound2 as [Hw%Nat.eqb_neq _].
  destruct (expand_reverse end_ (inv_adjacent_vertices w g) reverseRest
              (reverseVisited st) cache1) as [[rq rv] cache2] eqn:Er.
  destruct (expand_reverse_visits _ _ _ _ _ _ _ _ Er) as (Rq & Rv & Ra & Rnew).
  eapply IH; [| |exact Hrun]; constructor; simpl; auto.
  - intros x Hx. destruct (Fnew x Hx) as [Hold|Hq]; [|by left].
    destruct (Fe x Hold) as [[->|Hrest]%elem_of_cons|[Hne Hsucc]].
    + right. split; [done|]. intros y Hy. by apply Fa, adjacent_vertices_edge.
    + left. by apply Fq.
    + right. split; [done|]. intros y Hy. by apply Fv, Hsucc.
  - intros x Hx. destruct (Rnew x Hx) as [Hold|Hq]; [|by left].
    destruct (Re x Hold) as [[->|Hrest]%elem_of_cons|[Hne Hpred]].
    + right. split; [done|]. intros y Hy. by apply Ra, inv_adjacent_vertices_edge.
    + left. by apply Rq.
    + right. split; [done|]. intros y Hy. by apply Rv, Hpred.
Qed.

Lemma EdgeCreatesCycle_false fromVertex toVertex s s' :
  EdgeCreatesCycle fromVertex toVertex s = (false, s') ->
  ~ reaches (graph_ s) toVertex fromVertex.
Proof.
  intros Hrun.
  destruct (EdgeCreatesCycle_run fromVertex toVertex s)
    as [[_ Heq]|[_ (answer & cache & Hloop & Heq)]]; rewrite Heq in Hrun; [done|].
  injection Hrun as -> _.
  eapply search_loop_complete; [| |exact Hloop]; constructor; simpl.
  - by apply elem_of_singleton.
  - intros x ->%elem_of_singleton. left. by apply list_elem_of_singleton.
  - by apply elem_of_singleton.
  - intros x ->%elem_of_singleton. left. by apply list_elem_of_singleton.
Qed.

(** X1: over a sound paths cache, [EdgeCreatesCycle(from, to)] answers
    true exactly when the graph has a path (of any length, none included)
    from [to] to [from]; a false answer is right whatever the cache holds;
    the graph is not changed. *)
Theorem EdgeCreatesCycle_exact fromVertex toVertex s answer s' :
  EdgeCreatesCycle fromVertex toVertex s = (answer, s') ->
  graph_ s' = graph_ s /\
  (answer = false -> ~ reaches (graph_ s) toVertex fromVertex) /\
  (cache_sound s -> (answer = true <-> reaches (graph_ s) toVertex fromVertex)).
Proof.
  intros Hrun. destruct (EdgeCreatesCycle_sound _ _ _ _ _ Hrun) as (Hg & _ & Htrue).
  split; [done|]. split.
  - intros ->. by eapply EdgeCreatesCycle_false.
  - intros Hs. split; [by apply Htrue|]. intros Hreach.
    destruct answer; [done|]. by apply EdgeCreatesCycle_false in Hrun.
Qed.

Lemma EdgeCreatesCycle_exact_witness :
  fst (EdgeCreatesCycle 3 0 long_chain_sorter) = true /\
  reaches (graph_ long_chain_sorter) 0%nat 3%nat /\
  fst (EdgeCreatesCycle 0 3 long_chain_sorter) = false /\
  ~ reaches (graph_ long_chain_sorter) 3%nat 0%nat.
Proof.
  destruct (EdgeCreatesCycle 3 0 long_chain_sorter) as [a1 s1] eqn:E1.
  destruct (EdgeCreatesCycle 0 3 long_chain_sorter) as [a2 s2] eqn:E2.
  destruct (EdgeCreatesCycle_exact _ _ _ _ _ E1) as (_ & _ & H1).
  destruct (EdgeCreatesCycle_exact _ _ _ _ _ E2) as (_ & H2 & _).
  assert (a1 = true) as -> by (vm_compute in E1; congruence).
  assert (a2 = false) as -> by (vm_compute in E2; congruence).
  assert (cache_sound long_chain_sorter) as Hs.
  { unfold long_chain_sorter.
    repeat (apply (step_cache _ _ (AddEdge_step _ _ _ _))). by apply empty_cache_sound. }
  split; [done|]. split; [by apply (H1 Hs)|]. split; [done|]. by apply H2.
Defined.

(** ** Edges that close no cycle *)

Lemma sorter_step_path s s' a b :
  sorter_step s s' -> path (graph_ s) a b -> path (graph_ s') a b.
Proof.
  intros [_ _ _ (added & He) _]. apply (tc_congruence (fun x => x)).
  intros x y (t & Ht). exists t. rewrite He. apply elem_of_app. by left.
Qed.

Lemma path_add_edge_inv g u v t a b :
  path (add_edge u v t g) a b ->
  path g a b \/ (reaches g a u /\ reaches g v b).
Proof.
  assert (forall x y, edge (add_edge u v t g) x y -> edge g x y \/ (x = u /\ y = v)) as Hedge.
  { intros x y (t' & [Hin|Hin%list_elem_of_singleton]%elem_of_app).
    - left. by exists t'.
    - right. by injection Hin as -> -> _. }
  induction 1 as [x y Hxy|x y z Hxy _ IH].
  - destruct (Hedge _ _ Hxy) as [Hold|[-> ->]]; [left; by apply tc_once|by right].
  - destruct (Hedge _ _ Hxy) as [Hold|[-> ->]]; destruct IH as [Hyz|[Hyu Hvz]].
    + left. by eapply tc_l.
    + right. split; [by eapply rtc_l|done].
    + right. split; [done|]. by apply tc_rtc.
    + by right.
Qed.

Lemma acyclic_add_edge g u v t :
  acyclic g -> ~ reaches g v u -> acyclic (add_edge u v t g).
Proof.
  intros Hg Hvu x [Hx|[Hxu Hvx]]%path_add_edge_inv; [by apply (Hg x)|].
  apply Hvu. by etrans.
Qed.

(** The step all the cycle-avoiding phases share: the edge is added only
    when [EdgeCreatesCycle] said no. *)
Lemma add_unless_cyclic_acyclic fromVertex toVertex edgeType s :
  acyclic (graph_ s) ->
  acyclic (graph_ (let '(cyclic, s) := EdgeCreatesCycle fromVertex toVertex s in
                   if negb cyclic then AddEdge fromVertex toVertex edgeType s else s)).
Proof.
  intros Hs. destruct (EdgeCreatesCycle fromVertex toVertex s) as [cyclic s1] eqn:Hrun.
  pose proof (EdgeCreatesCycle_false fromVertex toVertex s s1) as Hfalse.
  destruct (EdgeCreatesCycle_sound _ _ _ _ _ Hrun) as (Hg & _ & _).
  destruct cyclic; simpl; [by rewrite Hg|].
  unfold AddEdge. destruct (decide _); [by rewrite Hg|]. simpl. rewrite Hg.
  apply acyclic_add_edge; auto.
Qed.

Lemma add_overlap_edge_acyclic vit s vit2 :
  acyclic (graph_ s) -> acyclic (graph_ (add_overlap_edge vit s vit2)).
Proof.
  intros Hs. unfold add_overlap_edge. destruct (_ || _); [done|].
  destruct (_ <? _)%nat; by apply add_unless_cyclic_acyclic.
Qed.

Lemma fold_left_acyclic {A} (f : PluginSorter -> A -> PluginSorter) (l : list A) :
  (forall s a, acyclic (graph_ s) -> acyclic (graph_ (f s a))) ->
  forall s, acyclic (graph_ s) -> acyclic (graph_ (List.fold_left f l s)).
Proof. intros Hf. induction l as [|a l IH]; intros s Hs; simpl; auto. Qed.

Lemma AddOverlapEdges_from_acyclic vits : forall s,
  acyclic (graph_ s) -> acyclic (graph_ (AddOverlapEdges_from vits s)).
Proof.
  induction vits as [|vit rest IH]; intros s Hs; simpl; [done|].
  destruct (Nat.eqb _ 0); apply IH; [done|].
  apply fold_left_acyclic; [|done]. intros s0 vit2. apply add_overlap_edge_acyclic.
Qed.

Lemma add_tie_break_edges_acyclic vit later : forall s r s',
  acyclic (graph_ s) -> add_tie_break_edges vit later s = (r, s') -> acyclic (graph_ s').
Proof.
  induction later as [|vit2 rest IH]; intros s r s' Hs; simpl.
  - by intros [= <- <-].
  - unfold bind at 1, lift.
    destruct (ComparePlugins (snd vit) (snd vit2)) as [order|e]; [|by intros [= <- <-]].
    destruct (order <? 0)%Z; unfold bind, modify; apply IH;
      by apply add_unless_cyclic_acyclic.
Qed.

Lemma AddTieBreakEdges_from_acyclic vits : forall s r s',
  acyclic (graph_ s) -> AddTieBreakEdges_from vits s = (r, s') -> acyclic (graph_ s').
Proof.
  induction vits as [|vit rest IH]; intros s r s' Hs; simpl.
  - by intros [= <- <-].
  - unfold bind.
    destruct (add_tie_break_edges vit rest s) as [[[]|e] s1] eqn:Hhead.
    + apply IH. by eapply add_tie_break_edges_acyclic.
    + intros [= <- <-]. by eapply add_tie_break_edges_acyclic.
Qed.

(** X2: the overlap phase and the tie-break phase never close a cycle: run
    one after the other on a sorter whose graph is acyclic, whatever its
    paths cache holds, they leave an acyclic graph, also when the tie-break
    phase ends with an exception. *)
Theorem overlap_and_tie_break_edges_keep_acyclic s r s' :
  acyclic (graph_ s) ->
  AddTieBreakEdges (AddOverlapEdges s) = (r, s') ->
  acyclic (graph_ (AddOverlapEdges s)) /\ acyclic (graph_ s').
Proof.
  intros Hs Hrun.
  assert (acyclic (graph_ (AddOverlapEdges s))) as Hoverlap
    by by apply AddOverlapEdges_from_acyclic.
  split; [done|]. unfold AddTieBreakEdges, bind, get in Hrun.
  by eapply AddTieBreakEdges_from_acyclic.
Qed.

(** ** What the phases establish *)

Lemma connected_sym g u v : connected g u v -> connected g v u.
Proof. intros [H|H]; [by right|by left]. Qed.

Lemma sorter_step_connected s s' u v :
  sorter_step s s' -> connected (graph_ s) u v -> connected (graph_ s') u v.
Proof. intros Hstep [H|H]; [left|right]; by eapply sorter_step_path. Qed.

Lemma AddEdge_cached fromVertex toVertex edgeType s :
  (fromVertex, toVertex) ∈ pathsCache_ (AddEdge fromVertex toVertex edgeType s).
Proof.
  unfold AddEdge. destruct (decide _); [done|]. simpl.
  apply elem_of_union. left. by apply elem_of_singleton.
Qed.

Lemma AddEdge_path fromVertex toVertex edgeType s :
  cache_sound s -> path (graph_ (AddEdge fromVertex toVertex edgeType s)) fromVertex toVertex.
Proof.
  intros Hs. apply (step_cache _ _ (AddEdge_step fromVertex toVertex edgeType s) Hs).
  apply AddEdge_cached.
Qed.

Lemma reaches_path g a b : reaches g a b -> a <> b -> path g a b.
Proof. intros [->|H]%rtc_tc Hne; done. Qed.

Lemma add_unless_cyclic_connects fromVertex toVertex edgeType s :
  cache_sound s -> fromVertex <> toVertex ->
  connected
    (graph_ (let '(cyclic, s) := EdgeCreatesCycle fromVertex toVertex s in
             if negb cyclic then AddEdge fromVertex toVertex edgeType s else s))
    fromVertex toVertex.
Proof.
  intros Hs Hne. destruct (EdgeCreatesCycle fromVertex toVertex s) as [cyclic s1] eqn:Hrun.
  destruct (EdgeCreatesCycle_sound _ _ _ _ _ Hrun) as (Hg & Hstep & Htrue).
  destruct cyclic; simpl.
  - right. rewrite Hg. apply reaches_path; [by apply Htrue|done].
  - left. apply AddEdge_path. by apply (step_cache _ _ Hstep).
Qed.

Lemma add_tie_break_edges_connects vit later : forall s s',
  cache_sound s ->
  add_tie_break_edges vit later s = (Ok tt, s') ->
  forall vit2, vit2 ∈ later -> fst vit <> fst vit2 ->
    connected (graph_ s') (fst vit) (fst vit2).
Proof.
  induction later as [|head rest IH]; intros s s' Hs; simpl.
  - intros _ vit2 Hin. by apply elem_of_nil in Hin.
  - unfold bind at 1, lift.
    destruct (ComparePlugins (snd vit) (snd head)) as [order|e]; [|done].
    set (ends := if (order <? 0)%Z then (fst vit, fst head) else (fst head, fst vit)).
    destruct ends as [fromVertex toVertex] eqn:Hends. unfold bind at 1, modify.
    set (s1 := let '(cyclic, s) := EdgeCreatesCycle fromVertex toVertex s in
               if negb cyclic then AddEdge fromVertex toVertex tieBreak s else s).
    intros Hrest vit2 [->|Hin]%elem_of_cons Hne.
    + eapply sorter_step_connected;
        [exact (add_tie_break_edges_preserves vit rest _ _ _ Hrest)|].
      subst ends. destruct (order <? 0)%Z; injection Hends as <- <-.
      * by apply add_unless_cyclic_connects.
      * apply connected_sym. apply add_unless_cyclic_connects; [done|]. congruence.
    + eapply IH; [|exact Hrest|done|done].
      by apply (step_cache _ _ (add_unless_cyclic_step fromVertex toVertex tieBreak s)).
Qed.

Lemma AddTieBreakEdges_from_connects vits : forall s s',
  cache_sound s ->
  AddTieBreakEdges_from vits s = (Ok tt, s') ->
  forall vit vit2, vit ∈ vits -> vit2 ∈ vits -> fst vit <> fst vit2 ->
    connected (graph_ s') (fst vit) (fst vit2).
Proof.
  induction vits as [|head rest IH]; intros s s' Hs; simpl.
  - intros _ vit vit2 Hin. by apply elem_of_nil in Hin.
  - unfold bind.
    destruct (add_tie_break_edges head rest s) as [[[]|e] s1] eqn:Hhead; [|done].
    intros Hrest.
    assert (sorter_step s1 s') as Htail.
    { assert (preserves (AddTieBreakEdges_from rest)) as Hp; [|by eapply Hp].
      clear. induction rest as [|vit rest IH]; simpl; [apply preserves_ret|].
      apply preserves_bind; [apply add_tie_break_edges_preserves|by intros _]. }
    assert (cache_sound s1) as Hs1
      by exact (step_cache _ _ (add_tie_break_edges_preserves _ _ _ _ _ Hhead) Hs).
    intros vit vit2 [->|Hin]%elem_of_cons [->|Hin2]%elem_of_cons Hne; [done| | |].
    + eapply sorter_step_connected; [exact Htail|].
      eapply add_tie_break_edges_connects; [exact Hs|exact Hhead|done|done].
    + apply connected_sym. eapply sorter_step_connected; [exact Htail|].
      eapply add_tie_break_edges_connects; [exact Hs|exact Hhead|done|]. congruence.
    + eapply IH; [exact Hs1|exact Hrest|done|done|done].
Qed.

Lemma indexed_vertices_lookup s v :
  (v < List.length (vertices (graph_ s)))%nat ->
  exists plugin, (v, plugin) ∈ indexed_vertices s.
Proof.
  intros Hv. unfold indexed_vertices.
  set (d := PluginSortingData.plain "" false None).
  exists (List.nth v (vertices (graph_ s)) d). apply list_elem_of_In.
  assert (List.nth v (List.combine (List.seq 0 (List.length (vertices (graph_ s))))
                        (vertices (graph_ s))) (0%nat, d) =
          (v, List.nth v (vertices (graph_ s)) d)) as <-.
  { rewrite List.combine_nth by by rewrite List.length_seq.
    by rewrite List.seq_nth. }
  apply List.nth_In. rewrite List.length_combine, List.length_seq. lia.
Qed.

(** X3: the tie-break phase makes the sort unique. When [AddTieBreakEdges]
    returns on a sorter with a sound paths cache and an acyclic graph, the
    paths of the graph it leaves order the vertices strictly and totally: no
    vertex has a path to itself, and of two different vertices exactly one
    has a path to the other. *)
Theorem AddTieBreakEdges_orders_all_vertices s s' :
  cache_sound s -> acyclic (graph_ s) ->
  AddTieBreakEdges s = (Ok tt, s') ->
  acyclic (graph_ s') /\
  forall u v,
    (u < List.length (vertices (graph_ s)))%nat ->
    (v < List.length (vertices (graph_ s)))%nat ->
    u <> v ->
    (path (graph_ s') u v /\ ~ path (graph_ s') v u) \/
    (path (graph_ s') v u /\ ~ path (graph_ s') u v).
Proof.
  intros Hs Hacyclic Hrun. unfold AddTieBreakEdges, bind, get in Hrun.
  assert (acyclic (graph_ s')) as Hacyclic'
    by by eapply AddTieBreakEdges_from_acyclic.
  split; [done|]. intros u v Hu Hv Hne.
  destruct (indexed_vertices_lookup s u Hu) as [pu Hpu].
  destruct (indexed_vertices_lookup s v Hv) as [pv Hpv].
  destruct (AddTieBreakEdges_from_connects _ _ _ Hs Hrun _ _ Hpu Hpv Hne) as [Huv|Hvu].
  - left. split; [done|]. intros Hvu. apply (Hacyclic' u). by etrans.
  - right. split; [done|]. intros Huv. apply (Hacyclic' u). by etrans.
Qed.

Lemma GetVertexByName_step s s' name :
  sorter_step s s' -> GetVertexByName name s' = GetVertexByName name s.
Proof. intros Hstep. unfold GetVertexByName. by rewrite (step_vertices _ _ Hstep). Qed.

Lemma add_edges_from_named_paths vertex edgeType names : forall s,
  cache_sound s ->
  forall name parent, name ∈ names -> GetVertexByName name s = Some parent ->
    path (graph_ (add_edges_from_named names vertex edgeType s)) parent vertex.
Proof.
  induction names as [|head rest IH]; intros s Hs name parent Hin Hfind.
  - by apply elem_of_nil in Hin.
  - set (s1 := match GetVertexByName head s with
               | Some parentVertex => AddEdge parentVertex vertex edgeType s
               | None => s
               end).
    change (add_edges_from_named (head :: rest) vertex edgeType s)
      with (add_edges_from_named rest vertex edgeType s1).
    assert (sorter_step s s1) as Hstep.
    { subst s1. destruct (GetVertexByName head s); [apply AddEdge_step|apply sorter_step_refl]. }
    apply elem_of_cons in Hin as [->|Hin].
    + eapply sorter_step_path; [apply add_edges_from_named_step|].
      subst s1. rewrite Hfind. by apply AddEdge_path.
    + eapply IH; [by apply (step_cache _ _ Hstep)|done|].
      by rewrite (GetVertexByName_step _ _ _ Hstep).
Qed.

Lemma add_master_flag_edges_paths vit from_vit : forall s,
  cache_sound s ->
  forall vit2, vit2 ∈ from_vit ->
    (PluginSortingData.IsMaster (snd vit2) = true ->
     PluginSortingData.IsMaster (snd vit) = false ->
     path (graph_ (add_master_flag_edges vit from_vit s)) (fst vit2) (fst vit)) /\
    (PluginSortingData.IsMaster (snd vit) = true ->
     PluginSortingData.IsMaster (snd vit2) = false ->
     path (graph_ (add_master_flag_edges vit from_vit s)) (fst vit) (fst vit2)).
Proof.
  induction from_vit as [|head rest IH]; intros s Hs vit2 Hin.
  - by apply elem_of_nil in Hin.
  - set (s1 := if Bool.eqb (PluginSortingData.IsMaster (snd vit))
                           (PluginSortingData.IsMaster (snd head))
               then s
               else if PluginSortingData.IsMaster (snd head)
               then AddEdge (fst head) (fst vit) masterFlag s
               else AddEdge (fst vit) (fst head) masterFlag s).
    change (add_master_flag_edges vit (head :: rest) s)
      with (add_master_flag_edges vit rest s1).
    assert (sorter_step s s1) as Hstep.
    { subst s1. destruct (Bool.eqb _ _); [apply sorter_step_refl|].
      destruct (PluginSortingData.IsMaster (snd head)); apply AddEdge_step. }
    apply elem_of_cons in Hin as [->|Hin];
      [|by apply IH; [apply (step_cache _ _ Hstep)|]].
    split; intros H1 H2;
      (eapply sorter_step_path; [apply add_master_flag_edges_step|]);
      subst s1; rewrite H1, H2; simpl; by apply AddEdge_path.
Qed.

(** One round of the outer loop of [AddSpecificEdges], taken apart: the
    master-flag edges of the vertex, then the edges from the plugins it
    names. *)
Lemma AddSpecificEdges_from_cons vit rest s :
  exists s',
    AddSpecificEdges_from (vit :: rest) s = AddSpecificEdges_from rest s' /\
    sorter_step (add_master_flag_edges vit (vit :: rest) s) s' /\
    (cache_sound s ->
     forall name parent, name ∈ specified_parents (snd vit) ->
       GetVertexByName name s = Some parent -> path (graph_ s') parent (fst vit)).
Proof.
  cbn [AddSpecificEdges_from]. cbv zeta.
  set (s1 := add_master_flag_edges vit (vit :: rest) s).
  set (s2 := add_edges_from_named (PluginSortingData.GetMasters (snd vit)) (fst vit) master s1).
  set (s3 := add_edges_from_named _ (fst vit) masterlistRequirement s2).
  set (s4 := add_edges_from_named _ (fst vit) userRequirement s3).
  set (s5 := add_edges_from_named _ (fst vit) masterlistLoadAfter s4).
  set (s6 := add_edges_from_named _ (fst vit) userLoadAfter s5).
  pose proof (add_master_flag_edges_step vit (vit :: rest) s : sorter_step s s1) as H1.
  pose proof (add_edges_from_named_step _ _ _ _ : sorter_step s1 s2) as H2.
  pose proof (add_edges_from_named_step _ _ _ _ : sorter_step s2 s3) as H3.
  pose proof (add_edges_from_named_step _ _ _ _ : sorter_step s3 s4) as H4.
  pose proof (add_edges_from_named_step _ _ _ _ : sorter_step s4 s5) as H5.
  pose proof (add_edges_from_named_step _ _ _ _ : sorter_step s5 s6) as H6.
  assert (sorter_step s s2) as H02 by by eapply sorter_step_trans.
  assert (sorter_step s s3) as H03 by by eapply sorter_step_trans.
  assert (sorter_step s s4) as H04 by by eapply sorter_step_trans.
  assert (sorter_step s s5) as H05 by by eapply sorter_step_trans.
  assert (sorter_step s4 s6) as H46 by by eapply sorter_step_trans.
  assert (sorter_step s3 s6) as H36 by by eapply sorter_step_trans.
  assert (sorter_step s2 s6) as H26 by by eapply sorter_step_trans.
  assert (sorter_step s1 s6) as H16 by by eapply sorter_step_trans.
  exists s6. split; [done|]. split; [done|].
  intros Hs name parent Hin Hfind. unfold specified_parents in Hin.
  repeat rewrite elem_of_app in Hin.
  destruct Hin as [Hin|[Hin|[Hin|[Hin|Hin]]]].
  - eapply sorter_step_path; [exact H26|].
    eapply add_edges_from_named_paths;
      [by apply (step_cache _ _ H1)|exact Hin|by rewrite (GetVertexByName_step _ _ _ H1)].
  - eapply sorter_step_path; [exact H36|].
    eapply add_edges_from_named_paths;
      [by apply (step_cache _ _ H02)|exact Hin|by rewrite (GetVertexByName_step _ _ _ H02)].
  - eapply sorter_step_path; [exact H46|].
    eapply add_edges_from_named_paths;
      [by apply (step_cache _ _ H03)|exact Hin|by rewrite (GetVertexByName_step _ _ _ H03)].
  - eapply sorter_step_path; [exact H6|].
    eapply add_edges_from_named_paths;
      [by apply (step_cache _ _ H04)|exact Hin|by rewrite (GetVertexByName_step _ _ _ H04)].
  - eapply add_edges_from_named_paths;
      [by apply (step_cache _ _ H05)|exact Hin|by rewrite (GetVertexByName_step _ _ _ H05)].
Qed.

Lemma AddSpecificEdges_from_paths vits : forall s,
  cache_sound s ->
  (forall a b, a ∈ vits -> b ∈ vits ->
     PluginSortingData.IsMaster (snd a) = true ->
     PluginSortingData.IsMaster (snd b) = false ->
     path (graph_ (AddSpecificEdges_from vits s)) (fst a) (fst b)) /\
  (forall vit name parent, vit ∈ vits -> name ∈ specified_parents (snd vit) ->
     GetVertexByName name s = Some parent ->
     path (graph_ (AddSpecificEdges_from vits s)) parent (fst vit)).
Proof.
  induction vits as [|vit rest IH]; intros s Hs.
  - split; [intros a b Hin|intros a name parent Hin]; by apply elem_of_nil in Hin.
  - destruct (AddSpecificEdges_from_cons vit rest s) as (s' & -> & Hstep & Hnamed).
    pose proof (add_master_flag_edges_step vit (vit :: rest) s) as Hflags.
    assert (sorter_step s s') as Hstep' by by eapply sorter_step_trans.
    destruct (IH s' (step_cache _ _ Hstep' Hs)) as [IHflags IHnamed].
    pose proof (AddSpecificEdges_from_step rest s') as Hrest.
    split.
    + intros a b [->|Ha]%elem_of_cons Hb Hma Hmb.
      * eapply sorter_step_path; [exact Hrest|]. eapply sorter_step_path; [exact Hstep|].
        by apply (add_master_flag_edges_paths vit (vit :: rest) s Hs b Hb).
      * apply elem_of_cons in Hb as [->|Hb]; [|by apply IHflags].
        eapply sorter_step_path; [exact Hrest|]. eapply sorter_step_path; [exact Hstep|].
        apply (add_master_flag_edges_paths vit (vit :: rest) s Hs a); [|done|done].
        apply elem_of_cons. by right.
    + intros a name parent [->|Ha]%elem_of_cons Hname Hfind.
      * eapply sorter_step_path; [exact Hrest|]. by eapply Hnamed.
      * eapply IHnamed; [done|done|]. by rewrite (GetVertexByName_step _ _ _ Hstep').
Qed.

(** X4: after [AddSpecificEdges], run on a sorter with a sound paths cache,
    every master has a path to every plugin that is not a master. *)
Theorem AddSpecificEdges_masters_before_non_masters s vit vit2 :
  cache_sound s ->
  vit ∈ indexed_vertices s -> vit2 ∈ indexed_vertices s ->
  PluginSortingData.IsMaster (snd vit) = true ->
  PluginSortingData.IsMaster (snd vit2) = false ->
  path (graph_ (AddSpecificEdges s)) (fst vit) (fst vit2).
Proof.
  intros Hs Hin Hin2 Hm Hm2.
  by apply (AddSpecificEdges_from_paths (indexed_vertices s) s Hs).
Qed.

(** X5: after [AddSpecificEdges], run on a sorter with a sound paths cache,
    a plugin's vertex is reached by a path from the vertex of every master,
    requirement and load-after file it names, when that file is a vertex of
    the graph. *)
Theorem AddSpecificEdges_named_files_first s vit name parent :
  cache_sound s ->
  vit ∈ indexed_vertices s ->
  name ∈ specified_parents (snd vit) ->
  GetVertexByName name s = Some parent ->
  path (graph_ (AddSpecificEdges s)) parent (fst vit).
Proof.
  intros Hs Hin Hname Hfind.
  by apply (AddSpecificEdges_from_paths (indexed_vertices s) s Hs) with name.
Qed.

Lemma overlap_only_refl s : overlap_only s s.
Proof. constructor; [done|]. exists []. by rewrite app_nil_r. Qed.

Lemma overlap_only_add s0 s fromVertex toVertex :
  overlap_only s0 s ->
  overlap_edge s0 (fromVertex, toVertex, overlap) ->
  overlap_only s0
    (let '(cyclic, s) := EdgeCreatesCycle fromVertex toVertex s in
     if negb cyclic then AddEdge fromVertex toVertex overlap s else s).
Proof.
  intros [Hv (added & He & Hall)] Hedge.
  destruct (EdgeCreatesCycle fromVertex toVertex s) as [cyclic s1] eqn:Hrun.
  destruct (EdgeCreatesCycle_sound _ _ _ _ _ Hrun) as (Hg & _ & _).
  assert (overlap_only s0 s1) as Hs1.
  { constructor; rewrite Hg; [done|]. by exists added. }
  destruct cyclic; simpl; [done|]. unfold AddEdge. destruct (decide _); [done|].
  constructor; simpl; rewrite Hg; [done|].
  exists (added ++ [(fromVertex, toVertex, overlap)]). rewrite He, app_assoc.
  split; [done|]. apply Forall_app. split; [done|]. by apply Forall_singleton.
Qed.

Lemma add_overlap_edge_only s0 vit s vit2 :
  vit ∈ indexed_vertices s0 -> vit2 ∈ indexed_vertices s0 ->
  overlap_only s0 s -> overlap_only s0 (add_overlap_edge vit s vit2).
Proof.
  intros Hvit Hvit2 Hs. unfold add_overlap_edge.
  destruct (_ || _) eqn:Hskip; [done|].
  repeat (apply orb_false_iff in Hskip as [Hskip ?]).
  match goal with H : Nat.eqb (PluginSortingData.NumOverrideFormIDs _) _ = false |- _ =>
    apply Nat.eqb_neq in H end.
  match goal with H : negb _ = false |- _ => apply negb_false_iff in H end.
  destruct vit as [vertex plugin], vit2 as [otherVertex otherPlugin]; simpl in *.
  destruct (_ <? _)%nat eqn:Hmore; apply overlap_only_add; try done.
  - apply Nat.ltb_lt in Hmore. split; [done|]. exists plugin, otherPlugin. auto.
  - apply Nat.ltb_ge in Hmore. split; [done|]. exists otherPlugin, plugin.
    repeat split; auto. simpl. lia.
Qed.

Lemma AddOverlapEdges_from_only s0 vits : forall s,
  (forall vit, vit ∈ vits -> vit ∈ indexed_vertices s0) ->
  overlap_only s0 s -> overlap_only s0 (AddOverlapEdges_from vits s).
Proof.
  induction vits as [|vit rest IH]; intros s Hin Hs; simpl; [done|].
  assert (forall v, v ∈ rest -> v ∈ indexed_vertices s0) as Hrest
    by (intros v Hv; apply Hin, elem_of_cons; by right).
  destruct (Nat.eqb _ 0); apply IH; try done.
  assert (vit ∈ indexed_vertices s0) as Hvit by (apply Hin, elem_of_cons; by left).
  clear IH Hin. revert s Hs. induction rest as [|vit2 rest IH]; intros s Hs; simpl; [done|].
  apply IH.
  - intros v Hv. apply Hrest, elem_of_cons. by right.
  - apply add_overlap_edge_only; [done| |done]. apply Hrest, elem_of_cons. by left.
Qed.

(** X6: [AddOverlapEdges] keeps the vertices and the edges it finds, and
    every edge it adds is an overlap edge between two plugins whose
    overridden records overlap, from the plugin that overrides more records
    to the one that overrides fewer. *)
Theorem AddOverlapEdges_adds_overlap_edges_only s :
  vertices (graph_ (AddOverlapEdges s)) = vertices (graph_ s) /\
  exists added,
    edges (graph_ (AddOverlapEdges s)) = edges (graph_ s) ++ added /\
    Forall (overlap_edge s) added.
Proof.
  destruct (AddOverlapEdges_from_only s (indexed_vertices s) s) as [Hv Hadded];
    [done|apply overlap_only_refl|].
  by split.
Qed.

(** ** Looking up a vertex, and adding an edge twice *)

Lemma find_vertex_spec name plugins : forall k,
  match find_vertex name plugins k with
  | Some v =>
      (k <= v)%nat /\
      (exists plugin, plugins !! (v - k)%nat = Some plugin /\
         CompareFilenames (PluginSortingData.GetName plugin) name = 0%Z) /\
      (forall u plugin, (u < v - k)%nat -> plugins !! u = Some plugin ->
         CompareFilenames (PluginSortingData.GetName plugin) name <> 0%Z)
  | None =>
      forall plugin, plugin ∈ plugins ->
        CompareFilenames (PluginSortingData.GetName plugin) name <> 0%Z
  end.
Proof.
  induction plugins as [|plugin rest IH]; intros k; simpl.
  - intros plugin Hin. by apply elem_of_nil in Hin.
  - destruct (Z.eqb _ 0) eqn:Hcmp.
    + apply Z.eqb_eq in Hcmp. split; [lia|]. rewrite Nat.sub_diag. split.
      * by exists plugin.
      * intros u p Hu. lia.
    + apply Z.eqb_neq in Hcmp. specialize (IH (S k)).
      destruct (find_vertex name rest (S k)) as [v|].
      * destruct IH as (Hk & (p & Hp & Hmatch) & Hfirst). split; [lia|].
        replace (v - k)%nat with (S (v - S k)) by lia. split.
        -- by exists p.
        -- intros [|u] q Hu Hq; simpl in Hq; [by injection Hq as <-|].
           apply (Hfirst u q); [lia|done].
      * intros p [->|Hp]%elem_of_cons; auto.
Qed.

(** X7: [GetVertexByName] answers with the first vertex whose plugin name
    equals the given name by [CompareFilenames], and with nothing exactly
    when no vertex has such a name. *)
Theorem GetVertexByName_first_match name s :
  match GetVertexByName name s with
  | Some v =>
      (exists plugin, vertices (graph_ s) !! v = Some plugin /\
         CompareFilenames (PluginSortingData.GetName plugin) name = 0%Z) /\
      (forall u plugin, (u < v)%nat -> vertices (graph_ s) !! u = Some plugin ->
         CompareFilenames (PluginSortingData.GetName plugin) name <> 0%Z)
  | None =>
      forall plugin, plugin ∈ vertices (graph_ s) ->
        CompareFilenames (PluginSortingData.GetName plugin) name <> 0%Z
  end.
Proof.
  unfold GetVertexByName.
  pose proof (find_vertex_spec name (vertices (graph_ s)) 0) as Hspec.
  destruct (find_vertex name (vertices (graph_ s)) 0) as [v|]; [|done].
  rewrite Nat.sub_0_r in Hspec. by destruct Hspec as (_ & Hmatch & Hfirst).
Qed.

(** X8: [AddEdge] records the pair it joins in the paths cache, so adding
    the same edge again, whatever its type, changes nothing, and
    [EdgeCreatesCycle] refuses the opposite edge without a search and
    without touching the sorter. *)
Theorem AddEdge_twice_and_back fromVertex toVertex edgeType edgeType' s :
  (fromVertex, toVertex) ∈ pathsCache_ (AddEdge fromVertex toVertex edgeType s) /\
  AddEdge fromVertex toVertex edgeType' (AddEdge fromVertex toVertex edgeType s) =
    AddEdge fromVertex toVertex edgeType s /\
  EdgeCreatesCycle toVertex fromVertex (AddEdge fromVertex toVertex edgeType s) =
    (true, AddEdge fromVertex toVertex edgeType s).
Proof.
  pose proof (AddEdge_cached fromVertex toVertex edgeType s) as Hcached.
  split; [done|]. split.
  - unfold AddEdge at 1. by rewrite decide_True.
  - unfold EdgeCreatesCycle. by rewrite decide_True.
Qed.

(** ** Worked runs of the phases *)

(** A graph whose edges all climb in some rank has no cycle. *)
Lemma acyclic_ranked g (rank : vertex_t -> nat) :
  forallb (fun e => (rank (source e) <? rank (target e))%nat) (edges g) = true ->
  acyclic g.
Proof.
  intros Hall.
  assert (forall a b, path g a b -> (rank a < rank b)%nat) as Hclimb.
  { assert (forall a b, edge g a b -> (rank a < rank b)%nat) as Hedge.
    { intros a b (t & Hin). rewrite forallb_forall in Hall.
      apply list_elem_of_In, Hall, Nat.ltb_lt in Hin. done. }
    induction 1 as [a b Hab|a b c Hab _ IH]; [by apply Hedge|].
    apply Hedge in Hab. lia. }
  intros v Hv%Hclimb. lia.
Qed.

Lemma overriding_sorter_sound : cache_sound overriding_sorter.
Proof. by apply empty_cache_sound. Qed.

Lemma overlap_and_tie_break_edges_keep_acyclic_witness :
  acyclic (graph_ (AddSpecificEdges overriding_sorter)) /\
  acyclic (graph_ (AddOverlapEdges (AddSpecificEdges overriding_sorter))) /\
  acyclic (graph_ (snd (AddTieBreakEdges
                          (AddOverlapEdges (AddSpecificEdges overriding_sorter))))).
Proof.
  assert (acyclic (graph_ (AddSpecificEdges overriding_sorter))) as Hacyclic
    by (apply (acyclic_ranked _ (fun v => if Nat.eqb v 2 then 0 else 1)%nat);
        vm_compute; reflexivity).
  split; [done|].
  destruct (AddTieBreakEdges (AddOverlapEdges (AddSpecificEdges overriding_sorter)))
    as [r s'] eqn:Hrun.
  exact (overlap_and_tie_break_edges_keep_acyclic _ _ _ Hacyclic Hrun).
Defined.

Lemma AddTieBreakEdges_orders_all_vertices_witness :
  cache_sound (AddSpecificEdges overriding_sorter) /\
  acyclic (graph_ (AddSpecificEdges overriding_sorter)) /\
  ~ connected (graph_ (AddSpecificEdges overriding_sorter)) 1%nat 0%nat /\
  fst (AddTieBreakEdges (AddSpecificEdges overriding_sorter)) = Ok tt /\
  edges (graph_ (snd (AddTieBreakEdges (AddSpecificEdges overriding_sorter)))) =
    edges (graph_ (AddSpecificEdges overriding_sorter)) ++ [(1%nat, 0%nat, tieBreak)] /\
  acyclic (graph_ (snd (AddTieBreakEdges (AddSpecificEdges overriding_sorter)))) /\
  ((path (graph_ (snd (AddTieBreakEdges (AddSpecificEdges overriding_sorter)))) 1%nat 0%nat /\
    ~ path (graph_ (snd (AddTieBreakEdges (AddSpecificEdges overriding_sorter)))) 0%nat 1%nat) \/
   (path (graph_ (snd (AddTieBreakEdges (AddSpecificEdges overriding_sorter)))) 0%nat 1%nat /\
    ~ path (graph_ (snd (AddTieBreakEdges (AddSpecificEdges overriding_sorter)))) 1%nat 0%nat)).
Proof.
  assert (cache_sound (AddSpecificEdges overriding_sorter)) as Hs
    by (apply (step_cache _ _ (AddSpecificEdges_step _)); apply overriding_sorter_sound).
  assert (acyclic (graph_ (AddSpecificEdges overriding_sorter))) as Hacyclic
    by (apply (acyclic_ranked _ (fun v => if Nat.eqb v 2 then 0 else 1)%nat);
        vm_compute; reflexivity).
  assert (forall a b, path (graph_ (AddSpecificEdges overriding_sorter)) a b -> a = 2%nat)
    as Hsource.
  { assert (forall a b, edge (graph_ (AddSpecificEdges overriding_sorter)) a b -> a = 2%nat)
      as Hedge.
    { intros a b (t & Hin). apply list_elem_of_In in Hin. vm_compute in Hin.
      destruct Hin as [Hin|[Hin|[]]]; by injection Hin as <- _ _. }
    intros a b Hab. inversion Hab as [? ? Hfirst|? ? ? Hfirst _]; by apply Hedge in Hfirst. }
  split; [done|]. split; [done|].
  split; [intros [H|H]; apply Hsource in H; discriminate H|].
  destruct (AddTieBreakEdges (AddSpecificEdges overriding_sorter)) as [r s'] eqn:Hrun.
  assert (r = Ok tt) as -> by (vm_compute in Hrun; congruence).
  destruct (AddTieBreakEdges_orders_all_vertices _ _ Hs Hacyclic Hrun) as [Hacyclic' Horder].
  split; [done|]. split; [vm_compute in Hrun; injection Hrun as <-; reflexivity|].
  split; [done|]. apply Horder; vm_compute; lia.
Defined.

Lemma AddSpecificEdges_masters_before_non_masters_witness :
  cache_sound overriding_sorter /\
  path (graph_ (AddSpecificEdges overriding_sorter)) 2%nat 0%nat.
Proof.
  split; [apply overriding_sorter_sound|].
  apply (AddSpecificEdges_masters_before_non_masters overriding_sorter
           (2%nat, with_masters_and_overrides "Base.esm" true [] [])
           (0%nat, with_masters_and_overrides "Small.esp" false ["base.esm"] [1%Z]));
    [apply overriding_sorter_sound| | |reflexivity|reflexivity].
  - do 2 apply list_elem_of_further. apply list_elem_of_here.
  - apply list_elem_of_here.
Defined.

Lemma AddSpecificEdges_named_files_first_witness :
  cache_sound overriding_sorter /\
  GetVertexByName "BASE.ESM" overriding_sorter = Some 2%nat /\
  path (graph_ (AddSpecificEdges overriding_sorter)) 2%nat 1%nat.
Proof.
  split; [apply overriding_sorter_sound|]. split; [reflexivity|].
  apply (AddSpecificEdges_named_files_first overriding_sorter
           (1%nat, with_masters_and_overrides "Large.esp" false ["BASE.ESM"] [1%Z; 2%Z])
           "BASE.ESM" 2%nat);
    [apply overriding_sorter_sound| | |reflexivity].
  - apply list_elem_of_further, list_elem_of_here.
  - apply list_elem_of_here.
Defined.

(** ** Names too short for an extension *)

Lemma substr_clipped_basename name :
  (string_size name < size_t_modulus)%Z ->
  substr name 0 (Some (size_t_sub (string_size name) 4)) = Ok (clipped_basename name).
Proof.
  intros Hn. unfold clipped_basename.
  destruct (Z.ltb_spec (string_size name) 4) as [Hshort|Hlong];
    [|by apply substr_basename].
  unfold substr, size_t_sub, string_size, size_t_modulus in *.
  destruct (Z.ltb_spec (Z.of_nat (String.length name)) 0) as [|_]; [lia|].
  rewrite <- (Z.mod_add _ 1) by lia. rewrite Z.mod_small by lia.
  rewrite Z.min_r by lia. rewrite Z.sub_0_r, Nat2Z.id. simpl.
  by rewrite substring_full.
Qed.

Lemma substr_extension_short name :
  (string_size name < 4)%Z -> (string_size name < size_t_modulus)%Z ->
  substr name (size_t_sub (string_size name) 4) None = Err OutOfRange.
Proof.
  intros Hshort Hn. unfold substr, size_t_sub, string_size, size_t_modulus in *.
  rewrite <- (Z.mod_add _ 1) by lia. rewrite Z.mod_small by lia.
  destruct (Z.ltb_spec (Z.of_nat (String.length name))
              (Z.of_nat (String.length name) - 4 + 1 * 2 ^ 64)) as [|]; [done|lia].
Qed.

(** X9: [ComparePlugins] throws [std::out_of_range] exactly when neither
    plugin has a load order position, one of the two names has fewer than
    four characters, and the names compare equal once each has lost its
    last four characters (a shorter name loses none); it throws nothing
    else. *)
Theorem ComparePlugins_throws_iff p1 p2 e :
  (string_size (PluginSortingData.GetName p1) < size_t_modulus)%Z ->
  (string_size (PluginSortingData.GetName p2) < size_t_modulus)%Z ->
  ComparePlugins p1 p2 = Err e <->
  e = OutOfRange /\
  PluginSortingData.GetLoadOrderIndex p1 = None /\
  PluginSortingData.GetLoadOrderIndex p2 = None /\
  CompareFilenames (clipped_basename (PluginSortingData.GetName p1))
                   (clipped_basename (PluginSortingData.GetName p2)) = 0%Z /\
  ((string_size (PluginSortingData.GetName p1) < 4)%Z \/
   (string_size (PluginSortingData.GetName p2) < 4)%Z).
Proof.
  intros H1 H2. unfold ComparePlugins.
  destruct (PluginSortingData.GetLoadOrderIndex p1) as [i1|],
           (PluginSortingData.GetLoadOrderIndex p2) as [i2|];
    try (split; [done|by intros (_ & ? & ? & _)]).
  { destruct (i1 <? i2)%nat; (split; [done|by intros (_ & ? & ? & _)]). }
  rewrite !substr_clipped_basename by done.
  destruct (Z.eqb_spec (CompareFilenames
                          (clipped_basename (PluginSortingData.GetName p1))
                          (clipped_basename (PluginSortingData.GetName p2))) 0)
    as [Heq|Hne]; simpl.
  2:{ split; [done|]. by intros (_ & _ & _ & ? & _). }
  destruct (Z.ltb_spec (string_size (PluginSortingData.GetName p1)) 4) as [Hs1|Hl1].
  { rewrite substr_extension_short by done. split; [|by intros (-> & _)].
    intros [= <-]. split_and!; auto. }
  rewrite substr_extension by lia.
  destruct (Z.ltb_spec (string_size (PluginSortingData.GetName p2)) 4) as [Hs2|Hl2].
  { rewrite substr_extension_short by done. split; [|by intros (-> & _)].
    intros [= <-]. split_and!; auto. }
  rewrite substr_extension by lia. split; [done|].
  intros (_ & _ & _ & _ & [?|?]); lia.
Qed.

Lemma ComparePlugins_throws_iff_witness :
  ComparePlugins (PluginSortingData.plain "ab" false None)
                 (PluginSortingData.plain "cd.esp" false None) = Ok (-1)%Z /\
  ComparePlugins (PluginSortingData.plain "ab" false None)
                 (PluginSortingData.plain "AB.esp" false None) = Err OutOfRange.
Proof.
  split; [reflexivity|].
  apply (ComparePlugins_throws_iff (PluginSortingData.plain "ab" false None)
           (PluginSortingData.plain "AB.esp" false None) OutOfRange).
  - vm_compute. reflexivity.
  - vm_compute. reflexivity.
  - split; [reflexivity|]. split; [reflexivity|]. split; [reflexivity|].
    split; [reflexivity|]. left. vm_compute. reflexivity.
Defined.

(** ** Plugins that group edges leave out *)

(** X10: after [ignorePlugin(pluginName, groups, ignored)],
    [shouldIgnorePlugin] holds for a group and a plugin exactly when it held
    before or the plugin is [pluginName] and the group is one of [groups]. *)
Theorem shouldIgnorePlugin_after_ignorePlugin pluginName groups ignored group name :
  shouldIgnorePlugin group name (ignorePlugin pluginName groups ignored) = true <->
  shouldIgnorePlugin group name ignored = true \/ (group ∈ groups /\ name = pluginName).
Proof.
  unfold ignorePlugin. revert ignored.
  induction groups as [|head rest IH]; intros ignored; simpl.
  - split; [by left|]. intros [H|[Hin _]]; [done|]. by apply elem_of_nil in Hin.
  - rewrite IH. clear IH.
    assert (shouldIgnorePlugin group name
              match ignored !! head with
              | Some pluginsToIgnore => <[head:={[pluginName]} ∪ pluginsToIgnore]> ignored
              | None => <[head:={[pluginName]}]> ignored
              end = true <->
            shouldIgnorePlugin group name ignored = true \/
            (group = head /\ name = pluginName)) as ->.
    { unfold shouldIgnorePlugin. destruct (decide (group = head)) as [->|Hne].
      - destruct (ignored !! head) as [pluginsToIgnore|] eqn:Hold;
          rewrite lookup_insert_eq, bool_decide_eq_true.
        + rewrite bool_decide_eq_true. set_solver.
        + set_solver.
      - destruct (ignored !! head) as [pluginsToIgnore|] eqn:Hold;
          rewrite lookup_insert_ne by done; naive_solver. }
    rewrite elem_of_cons. naive_solver.
Qed.

(** ** Reading the game cache back *)

(** X11: a condition's cached result is the first one stored for exactly
    that condition string: after [CacheCondition(condition', result)] a
    lookup that already found a result finds the same one, a lookup of
    [condition'] that found none finds [result], and any other lookup still
    finds none. *)
Theorem GetCachedCondition_after_CacheCondition condition condition' result c :
  GameCache.GetCachedCondition condition (GameCache.CacheCondition condition' result c) =
  if snd (GameCache.GetCachedCondition condition c)
  then GameCache.GetCachedCondition condition c
  else if String.eqb condition condition' then (result, true) else (false, false).
Proof.
  unfold GameCache.GetCachedCondition, GameCache.CacheCondition, GameCache.map_insert_new.
  simpl. destruct (String.eqb_spec condition condition') as [->|Hne].
  - destruct (GameCache.conditions_ c !! condition') as [old|] eqn:Hold; simpl.
    + by rewrite Hold.
    + by rewrite lookup_insert_eq.
  - destruct (GameCache.conditions_ c !! condition') as [old'|] eqn:Hold'; simpl.
    + by destruct (GameCache.conditions_ c !! condition).
    + rewrite lookup_insert_ne by done.
      by destruct (GameCache.conditions_ c !! condition).
Qed.

(** X12: CRCs are cached under the lowercased file name and the first one
    stored stays: after [CacheCrc(file', crc)], [GetCachedCrc(file)] gives
    what was stored for [file] before if anything was, [crc] if nothing
    was and the two names are equal up to case, and 0 otherwise. *)
Theorem GetCachedCrc_after_CacheCrc file file' crc c :
  GameCache.GetCachedCrc file (GameCache.CacheCrc file' crc c) =
  match GameCache.crcs_ c !! to_lower file with
  | Some old => old
  | None => if String.eqb (to_lower file) (to_lower file') then crc else 0%Z
  end.
Proof.
  unfold GameCache.GetCachedCrc, GameCache.CacheCrc, GameCache.map_insert_new. simpl.
  destruct (String.eqb_spec (to_lower file) (to_lower file')) as [->|Hne].
  - destruct (GameCache.crcs_ c !! to_lower file') as [old|] eqn:Hold.
    + by rewrite Hold.
    + by rewrite lookup_insert_eq.
  - destruct (GameCache.crcs_ c !! to_lower file') as [old'|] eqn:Hold'; [done|].
    by rewrite lookup_insert_ne.
Qed.

(** X13: [AddPlugin] replaces the plugin stored under the same name up to
    case: afterwards [GetPlugin] finds the new plugin under every spelling
    of its name and what it found before under any other name, and an
    earlier [AddPlugin] of a plugin with that name leaves no trace. *)
Theorem GetPlugin_after_AddPlugin plugin plugin' name c :
  GameCache.GetPlugin name (GameCache.AddPlugin plugin c) =
    (if String.eqb (to_lower name) (to_lower (plugin_name plugin))
     then Some plugin else GameCache.GetPlugin name c) /\
  (to_lower (plugin_name plugin') = to_lower (plugin_name plugin) ->
   GameCache.AddPlugin plugin (GameCache.AddPlugin plugin' c) = GameCache.AddPlugin plugin c).
Proof.
  unfold GameCache.GetPlugin, GameCache.AddPlugin. simpl. split.
  - destruct (String.eqb_spec (to_lower name) (to_lower (plugin_name plugin))) as [->|Hne].
    + by rewrite lookup_insert_eq.
    + rewrite lookup_insert_ne by done. by rewrite lookup_delete_ne.
  - intros ->. f_equal. by rewrite delete_insert_eq, delete_delete_eq.
Qed.

(** ** The evaluator and the cache *)

Lemma fileExists_cache host ev filePath c :
  snd (fileExists host ev filePath c) = c.
Proof.
  unfold fileExists, bind, lift, ret, get_cache, get.
  destruct (validatePath filePath); simpl; [|done].
  destruct (shouldParseOnly ev); [done|]. destruct (String.eqb filePath "LOOT"); [done|].
  destruct (GameCache.GetPlugin filePath c); [done|].
  by destruct (hasPluginFileExtension host filePath (gameType_ ev)).
Qed.

Lemma isPluginActive_cache ev pluginName c :
  snd (isPluginActive ev pluginName c) = c.
Proof.
  unfold isPluginActive, bind, lift, ret.
  destruct (validatePath pluginName); simpl; [|done].
  destruct (shouldParseOnly ev); [done|]. destruct (String.eqb pluginName "LOOT"); [done|].
  by destruct (loadOrderHandler_ ev).
Qed.

Lemma getVersion_cache host ev filePath c :
  snd (getVersion host ev filePath c) = c.
Proof.
  unfold getVersion, bind, lift, ret, get_cache, get.
  destruct (String.eqb filePath "LOOT"); [done|]. simpl.
  destruct (GameCache.GetPlugin filePath c); [done|].
  destruct (Plugin_IsValid host (gameType_ ev) (in_data filePath)); [|done].
  by destruct (Plugin_header host (gameType_ ev) (in_data filePath)).
Qed.

(** The caches a run may not touch: the cached conditions and the loaded
    plugins. *)
Lemma getCrc_frame host ev file c :
  GameCache.conditions_ (snd (getCrc host ev file c)) = GameCache.conditions_ c /\
  GameCache.plugins_ (snd (getCrc host ev file c)) = GameCache.plugins_ c.
Proof.
  rewrite getCrc_unfold. destruct (negb _); [done|].
  destruct (if String.eqb file "LOOT" then _ else _) as [crc|e]; [|done]. simpl.
  by destruct (String.eqb file "LOOT" || negb (Z.eqb crc 0)).
Qed.



(** X15: the queries the condition grammar makes of the evaluator leave
    the cache as it is, whatever they answer or throw; only
    [checksumMatches] may change it, and then neither the cached conditions
    nor the loaded plugins. *)
Theorem evaluator_queries_keep_the_cache host ev filePath testVersion comparator checksum c :
  snd (fileExists host ev filePath c) = c /\
  snd (isPluginActive ev filePath c) = c /\
  snd (compareVersions host ev filePath testVersion comparator c) = c /\
  GameCache.conditions_ (snd (checksumMatches host ev filePath checksum c)) =
    GameCache.conditions_ c /\
  GameCache.plugins_ (snd (checksumMatches host ev filePath checksum c)) =
    GameCache.plugins_ c.
Proof.
  split; [apply fileExists_cache|]. split; [apply isPluginActive_cache|]. split.
  - unfold compareVersions, bind.
    pose proof (fileExists_cache host ev filePath c) as Hfile.
    destruct (fileExists host ev filePath c) as [[found|e] c1]; simpl in Hfile; subst c1;
      [|done].
    destruct found; simpl; [|done].
    pose proof (getVersion_cache host ev filePath c) as Hversion.
    by destruct (getVersion host ev filePath c) as [[trueVersion|e] c1].
  - unfold checksumMatches, bind, lift, ret.
    destruct (validatePath filePath); simpl; [|done].
    destruct (shouldParseOnly ev); [done|].
    pose proof (getCrc_frame host ev filePath c) as Hframe.
    by destruct (getCrc host ev filePath c) as [[crc|e] c1].
Qed.

Lemma map_insert_new_lookup {V} (k k' : string) (v : V) (m : gmap string V) :
  GameCache.map_insert_new k' v m !! k =
  match m !! k with
  | Some old => Some old
  | None => if String.eqb k k' then Some v else None
  end.
Proof.
  unfold GameCache.map_insert_new.
  destruct (String.eqb_spec k k') as [->|Hne].
  - destruct (m !! k') eqn:Hold; [by rewrite Hold|by rewrite lookup_insert_eq].
  - destruct (m !! k') eqn:Hold'; [by destruct (m !! k)|].
    rewrite lookup_insert_ne by done. by destruct (m !! k).
Qed.

(** X16: a live evaluator evaluates a condition string once. When the
    grammar's actions leave the cached conditions alone, a run of
    [evaluate] that returns a result leaves a cache from which a second run
    returns the same result without parsing and without changing the cache,
    and no condition result that was cached before has changed. *)
Theorem evaluate_evaluates_once host ev condition c result c' :
  (forall ev' condition' c0,
     GameCache.conditions_ (snd (phrase_parse host ev' condition' c0)) =
     GameCache.conditions_ c0) ->
  shouldParseOnly ev = false ->
  evaluate host ev condition c = (Ok result, c') ->
  evaluate host ev condition c' = (Ok result, c') /\
  (forall other, snd (GameCache.GetCachedCondition other c) = true ->
     GameCache.GetCachedCondition other c' = GameCache.GetCachedCondition other c).
Proof.
  intros Hgrammar Hlive.
  unfold evaluate, parseCondition, bind, get_cache, get, modify_cache, modify, ret, throw.
  rewrite Hlive.
  destruct (String.eqb_spec condition "") as [->|Hne]; [by intros [= <- <-]|].
  destruct (snd (GameCache.GetCachedCondition condition c)) eqn:Hcached.
  { intros [= <- <-]. by rewrite Hcached. }
  specialize (Hgrammar ev condition c).
  destruct (phrase_parse host ev condition c) as [[[[parseResult unconsumed] evaluation]|e] c1];
    [|done].
  simpl in Hgrammar.
  destruct (negb parseResult || negb (String.eqb unconsumed "")); [done|].
  intros [= <- <-].
  assert (forall other,
            GameCache.GetCachedCondition other (GameCache.CacheCondition condition evaluation c1) =
            if snd (GameCache.GetCachedCondition other c)
            then GameCache.GetCachedCondition other c
            else if String.eqb other condition then (evaluation, true) else (false, false))
    as Hlookup.
  { intros other. unfold GameCache.GetCachedCondition, GameCache.CacheCondition. simpl.
    rewrite map_insert_new_lookup, Hgrammar.
    destruct (GameCache.conditions_ c !! other); [done|].
    by destruct (String.eqb other condition). }
  split.
  - rewrite Hlookup, Hcached, String.eqb_refl. done.
  - intros other Hother. by rewrite Hlookup, Hother.
Qed.

Lemma sample_phrase_parse_conditions ev condition c :
  GameCache.conditions_ (snd (phrase_parse sample_host ev condition c)) =
  GameCache.conditions_ c.
Proof.
  simpl. unfold sample_phrase_parse. destruct (_ && _); [|done]. unfold bind.
  pose proof (fileExists_cache sample_host_without_grammar ev
                (String.substring 6 (String.length condition - 8) condition) c) as Hfile.
  destruct (fileExists _ _ _ _) as [[found|e] c1]; simpl in *; by subst c1.
Qed.

Lemma evaluate_evaluates_once_witness :
  exists c',
    evaluate sample_host live_evaluator (file_condition "Foo.esp") GameCache.empty =
      (Ok true, c') /\
    evaluate sample_host live_evaluator (file_condition "Foo.esp") c' = (Ok true, c').
Proof.
  destruct (evaluate sample_host live_evaluator (file_condition "Foo.esp") GameCache.empty)
    as [r c'] eqn:Hrun.
  assert (r = Ok true) as -> by (vm_compute in Hrun; congruence).
  exists c'. split; [done|].
  by destruct (evaluate_evaluates_once sample_host live_evaluator _ _ _ _
                 (sample_phrase_parse_conditions) eq_refl Hrun).
Defined.

(** X17: [compareVersions] answers false for a comparator that is none of
    the six it knows, whether or not the file exists. *)
Theorem compareVersions_unknown_comparator host ev filePath testVersion comparator c b c' :
  comparator ∉ ["=="; "!="; "<"; ">"; "<="; ">="] ->
  compareVersions host ev filePath testVersion comparator c = (Ok b, c') ->
  b = false.
Proof.
  intros Hunknown.
  assert (forall known, known ∈ ["=="; "!="; "<"; ">"; "<="; ">="] ->
            String.eqb comparator known = false) as Hne.
  { intros known Hknown. apply String.eqb_neq. by intros ->. }
  assert (String.eqb comparator "==" = false) as H1 by (apply Hne; set_solver).
  assert (String.eqb comparator "!=" = false) as H2 by (apply Hne; set_solver).
  assert (String.eqb comparator "<" = false) as H3 by (apply Hne; set_solver).
  assert (String.eqb comparator ">" = false) as H4 by (apply Hne; set_solver).
  assert (String.eqb comparator "<=" = false) as H5 by (apply Hne; set_solver).
  assert (String.eqb comparator ">=" = false) as H6 by (apply Hne; set_solver).
  unfold compareVersions, bind, ret. rewrite H1, H2, H3, H4, H5, H6. simpl.
  destruct (fileExists host ev filePath c) as [[[]|e] c1]; simpl; [| |done].
  - destruct (getVersion host ev filePath c1) as [[trueVersion|e] c2]; [|done].
    by intros [= <- _].
  - by intros [= <- _].
Qed.

Lemma compareVersions_unknown_comparator_witness :
  fst (compareVersions sample_host live_evaluator "Foo.esp" "1.0" "=" GameCache.empty) =
  Ok false.
Proof.
  destruct (compareVersions sample_host live_evaluator "Foo.esp" "1.0" "=" GameCache.empty)
    as [r c'] eqn:Hrun.
  assert (exists b, r = Ok b) as [b ->] by (vm_compute in Hrun; injection Hrun as <- _; eauto).
  simpl. f_equal.
  apply (compareVersions_unknown_comparator sample_host live_evaluator "Foo.esp" "1.0" "="
           GameCache.empty b c'); [|exact Hrun].
  intros Hin. repeat (apply elem_of_cons in Hin as [Hin|Hin]; [discriminate Hin|]).
  by apply elem_of_nil in Hin.
Defined.

(** ** What [evaluateAll] keeps *)

Lemma filterM_sublist {A} (test : A -> M bool) (l : list A) : forall c l' c',
  filterM test l c = (Ok l', c') -> sublist l' l.
Proof.
  induction l as [|x l IH]; intros c l' c'; simpl.
  - by intros [= <- _].
  - unfold bind, ret. destruct (test x c) as [[keep|e] c1]; [|done].
    destruct (filterM test l c1) as [[kept|e] c2] eqn:Hrest; [|done].
    intros [= <- _]. apply IH in Hrest.
    destruct keep; [by apply sublist_skip|by apply sublist_cons].
Qed.

(** X18: the metadata [evaluateAll] returns is the given metadata with
    entries taken out: the name, the enabled flag, the group and the
    locations are the given ones, and the load-after files, requirements,
    incompatibilities, messages, tags, dirty info and clean info are the
    given ones in their order with some left out. *)
Theorem evaluateAll_only_removes host ev pluginMetadata c evaluated c' :
  evaluateAll host ev pluginMetadata c = (Ok evaluated, c') ->
  PluginMetadata.GetName evaluated = PluginMetadata.GetName pluginMetadata /\
  PluginMetadata.IsEnabled evaluated = PluginMetadata.IsEnabled pluginMetadata /\
  PluginMetadata.GetGroup evaluated = PluginMetadata.GetGroup pluginMetadata /\
  PluginMetadata.GetLocations evaluated = PluginMetadata.GetLocations pluginMetadata /\
  sublist (PluginMetadata.GetLoadAfterFiles evaluated)
          (PluginMetadata.GetLoadAfterFiles pluginMetadata) /\
  sublist (PluginMetadata.GetRequirements evaluated)
          (PluginMetadata.GetRequirements pluginMetadata) /\
  sublist (PluginMetadata.GetIncompatibilities evaluated)
          (PluginMetadata.GetIncompatibilities pluginMetadata) /\
  sublist (PluginMetadata.GetMessages evaluated) (PluginMetadata.GetMessages pluginMetadata) /\
  sublist (PluginMetadata.GetTags evaluated) (PluginMetadata.GetTags pluginMetadata) /\
  sublist (PluginMetadata.GetDirtyInfo evaluated) (PluginMetadata.GetDirtyInfo pluginMetadata) /\
  sublist (PluginMetadata.GetCleanInfo evaluated) (PluginMetadata.GetCleanInfo pluginMetadata).
Proof.
  unfold evaluateAll. destruct (shouldParseOnly ev).
  { intros [= <- _]. by split_and!. }
  intros Hrun.
  inv_bind Hrun. inv_bind Hrun. inv_bind Hrun. inv_bind Hrun. inv_bind Hrun.
  repeat match goal with
         | H : filterM _ _ _ = (Ok _, _) |- _ => apply filterM_sublist in H
         end.
  simpl in Hrun. destruct (negb (IsRegexPlugin host _)).
  - inv_bind Hrun. inv_bind Hrun. injection Hrun as <- _.
    repeat match goal with
           | H : filterM _ _ _ = (Ok _, _) |- _ => apply filterM_sublist in H
           end.
    destruct (PluginMetadata.GetGroup pluginMetadata); simpl; by split_and!.
  - injection Hrun as <- _.
    destruct (PluginMetadata.GetGroup pluginMetadata); simpl;
      split_and!; try done; apply sublist_nil_l.
Qed.

Lemma evaluateAll_only_removes_witness :
  exists evaluated,
    fst (evaluateAll sample_host live_evaluator foo_metadata GameCache.empty) = Ok evaluated /\
    PluginMetadata.GetName evaluated = "Foo.esp" /\
    sublist (PluginMetadata.GetDirtyInfo evaluated) (PluginMetadata.GetDirtyInfo foo_metadata).
Proof.
  destruct (evaluateAll sample_host live_evaluator foo_metadata GameCache.empty)
    as [r c'] eqn:Hrun.
  assert (exists evaluated, r = Ok evaluated) as [evaluated ->]
    by (vm_compute in Hrun; injection Hrun as <- _; eauto).
  exists evaluated. split; [done|].
  destruct (evaluateAll_only_removes _ _ _ _ _ _ Hrun)
    as (Hname & _ & _ & _ & _ & _ & _ & _ & _ & Hdirty & _).
  by split.
Defined.

(** ** Regex conditions *)

Lemma rfind_spec c s :
  match rfind c s with
  | Some pos =>
      s = String.substring 0 pos s +:+
          String c (String.substring (pos + 1) (String.length s - (pos + 1)) s) /\
      rfind c (String.substring (pos + 1) (String.length s - (pos + 1)) s) = None
  | None => True
  end.
Proof.
  induction s as [|x s IH]; cbn [rfind]; [done|].
  destruct (rfind c s) as [pos|] eqn:Hlast.
  - destruct IH as [Hsplit Hnone].
    replace (S pos + 1)%nat with (S (pos + 1)) by lia.
    cbn [String.substring String.length].
    replace (S (String.length s) - S (pos + 1))%nat
      with (String.length s - (pos + 1))%nat by lia.
    split; [|done].
    change (String x s = String x (String.substring 0 pos s +:+
              String c (String.substring (pos + 1) (String.length s - (pos + 1)) s))).
    by rewrite <- Hsplit.
  - destruct (Ascii.eqb_spec x c) as [->|Hne]; [|done].
    change (0 + 1)%nat with 1%nat. cbn [String.substring String.length].
    replace (S (String.length s) - 1)%nat with (String.length s) by lia.
    rewrite substring_full. by split.
Qed.

Lemma rfind_None c s :
  rfind c s = None <-> forall i, String.get i s <> Some c.
Proof.
  induction s as [|x s IH]; cbn [rfind].
  - split; [by intros _ [|i]|done].
  - destruct (rfind c s) as [pos|] eqn:Hlast.
    + split; [done|]. intros Hnone. assert (Some pos = None) as Habs; [|done].
      apply IH. intros i. apply (Hnone (S i)).
    + destruct (Ascii.eqb_spec x c) as [->|Hne].
      * split; [done|]. intros Hnone. by destruct (Hnone 0%nat).
      * split; [|done]. intros _ [|i]; simpl; [congruence|].
        by apply (proj1 IH).
Qed.

(** X19: [getRegexParentPath] and [getRegexFilename] cut a regex string at
    its last slash: the file name holds no slash; a string that holds no
    slash has the empty parent path and is its own file name; and a string
    that holds a slash is the parent path, a slash and the file name. *)
Theorem regex_string_split_at_last_slash regexString :
  (forall i, String.get i (getRegexFilename regexString) <> Some "/"%char) /\
  ((forall i, String.get i regexString <> Some "/"%char) ->
   getRegexParentPath regexString = "" /\ getRegexFilename regexString = regexString) /\
  ((exists i, String.get i regexString = Some "/"%char) ->
   regexString = getRegexParentPath regexString +:+ "/" +:+ getRegexFilename regexString).
Proof.
  unfold getRegexParentPath, getRegexFilename.
  pose proof (rfind_spec "/"%char regexString) as Hspec.
  pose proof (rfind_None "/"%char regexString) as Hnone.
  destruct (rfind "/"%char regexString) as [pos|] eqn:Hlast.
  - destruct Hspec as [Hsplit Hrest]. split; [by apply rfind_None|]. split.
    + intros Hno. by apply Hnone in Hno.
    + intros _. exact Hsplit.
  - split; [by apply Hnone|]. split; [done|].
    intros [i Hi]. by apply (proj1 Hnone eq_refl i) in Hi.
Qed.

Lemma regex_string_split_at_last_slash_witness :
  getRegexParentPath "meshes/armor/.*\.nif" = "meshes/armor" /\
  getRegexFilename "meshes/armor/.*\.nif" = ".*\.nif" /\
  "meshes/armor/.*\.nif" =
    getRegexParentPath "meshes/armor/.*\.nif" +:+ "/" +:+
    getRegexFilename "meshes/armor/.*\.nif" /\
  getRegexParentPath ".*\.esp" = "" /\ getRegexFilename ".*\.esp" = ".*\.esp".
Proof.
  split; [reflexivity|]. split; [reflexivity|].
  destruct (regex_string_split_at_last_slash "meshes/armor/.*\.nif") as (_ & _ & Hsplit).
  destruct (regex_string_split_at_last_slash ".*\.esp") as (Hfile & Hplain & _).
  split; [apply Hsplit; by exists 6%nat|]. exact (Hplain Hfile).
Defined.

Section RegexFacts.

Context (host : Host) (rhost : RegexHost).

(** The loop of [std::any_of] under the predicate
    [areRegexMatchesInDataDirectory] builds: it succeeds at the second file
    that passes, or at the first when one had been found before. *)
Lemma any_of_second_match (matches condition : string -> bool) (l : list string) :
  forall foundOneFile : bool,
    fst (any_of
           (fun filename st =>
              if matches filename
              then (fun filename foundOneFile =>
                      if condition filename
                      then if foundOneFile : bool then (true, foundOneFile) else (false, true)
                      else (false, foundOneFile)) filename st
              else (false, st))
           l foundOneFile) =
    ((if foundOneFile then 1 else 2) <=?
     List.length (List.filter (fun filename => matches filename && condition filename) l))%nat.
Proof.
  induction l as [|x l IH]; intros foundOneFile; simpl.
  - by destruct foundOneFile.
  - destruct (matches x); simpl; [|apply IH].
    destruct (condition x); simpl; [|apply IH].
    destruct foundOneFile; simpl; [done|]. rewrite IH. simpl.
    by destruct (List.length _).
Qed.

Lemma any_of_first_match (matches condition : string -> bool) (l : list string) :
  fst (any_of
         (fun filename st =>
            if matches filename then stateless condition filename st else (false, st))
         l tt) =
  (1 <=? List.length (List.filter (fun filename => matches filename && condition filename) l))%nat.
Proof.
  induction l as [|x l IH]; simpl; [done|].
  destruct (matches x); simpl; [|apply IH].
  unfold stateless at 1. destruct (condition x); simpl; [done|apply IH].
Qed.

Lemma isRegexMatchInDataDirectory_count (pathRegex : string * regex rhost)
    (condition : string -> bool) :
  fst (isRegexMatchInDataDirectory host rhost pathRegex (stateless condition) tt) =
  (isGameSubdirectory host rhost (fst pathRegex) &&
   (1 <=? List.length (matching_entries rhost pathRegex condition))%nat).
Proof.
  unfold isRegexMatchInDataDirectory, matching_entries.
  destruct (isGameSubdirectory host rhost (fst pathRegex)); simpl; [|done].
  apply (any_of_first_match (fun filename => regex_match rhost filename (snd pathRegex))).
Qed.

Lemma areRegexMatchesInDataDirectory_count (pathRegex : string * regex rhost)
    (condition : string -> bool) :
  areRegexMatchesInDataDirectory host rhost pathRegex condition =
  (isGameSubdirectory host rhost (fst pathRegex) &&
   (2 <=? List.length (matching_entries rhost pathRegex condition))%nat).
Proof.
  unfold areRegexMatchesInDataDirectory, isRegexMatchInDataDirectory, matching_entries.
  destruct (isGameSubdirectory host rhost (fst pathRegex)); simpl; [|done].
  apply (any_of_second_match (fun filename => regex_match rhost filename (snd pathRegex))
           condition _ false).
Qed.

(** X20: [isRegexMatchInDataDirectory], given a condition without state,
    holds exactly when the parent path is a directory of the game with at
    least one entry whose name the expression matches and the condition
    accepts; [areRegexMatchesInDataDirectory], whose condition remembers
    the first such entry, holds exactly when there are at least two. *)
Theorem regex_matches_are_counted (pathRegex : string * regex rhost)
    (condition : string -> bool) :
  fst (isRegexMatchInDataDirectory host rhost pathRegex (stateless condition) tt) =
    (isGameSubdirectory host rhost (fst pathRegex) &&
     (1 <=? List.length (matching_entries rhost pathRegex condition))%nat) /\
  areRegexMatchesInDataDirectory host rhost pathRegex condition =
    (isGameSubdirectory host rhost (fst pathRegex) &&
     (2 <=? List.length (matching_entries rhost pathRegex condition))%nat).
Proof.
  split; [apply isRegexMatchInDataDirectory_count|apply areRegexMatchesInDataDirectory_count].
Qed.

Lemma matching_entries_weaken (pathRegex : string * regex rhost)
    (condition condition' : string -> bool) :
  (forall filename, condition filename = true -> condition' filename = true) ->
  (List.length (matching_entries rhost pathRegex condition) <=
   List.length (matching_entries rhost pathRegex condition'))%nat.
Proof.
  intros Himp. unfold matching_entries.
  induction (directory_entries rhost (in_data (fst pathRegex))) as [|x l IH]; simpl; [done|].
  destruct (regex_match rhost x (snd pathRegex)); simpl; [|done].
  destruct (condition x) eqn:Hx; [rewrite (Himp x Hx); simpl; lia|].
  destruct (condition' x); simpl; lia.
Qed.

(** X21: the four regex conditions are ordered as their names say: when
    [arePluginsActive] holds of a regex string, so do
    [isPluginMatchingRegexActive] and [regexMatchesExist], and when either
    of these holds, so does [regexMatchExists]. *)
Theorem regex_conditions_ordered ev regexString :
  (arePluginsActive host rhost ev regexString = Ok true ->
   isPluginMatchingRegexActive host rhost ev regexString = Ok true /\
   regexMatchesExist host rhost ev regexString = Ok true) /\
  (isPluginMatchingRegexActive host rhost ev regexString = Ok true \/
   regexMatchesExist host rhost ev regexString = Ok true ->
   regexMatchExists host rhost ev regexString = Ok true).
Proof.
  unfold arePluginsActive, isPluginMatchingRegexActive, regexMatchesExist, regexMatchExists.
  destruct (splitRegex rhost regexString) as [pathRegex|e]; [|split; [done|by intros [|]]].
  destruct (shouldParseOnly ev); [split; [done|by intros [|]]|].
  rewrite !isRegexMatchInDataDirectory_count, !areRegexMatchesInDataDirectory_count.
  pose proof (matching_entries_weaken pathRegex (handler_IsPluginActive ev) (fun _ => true)
                ltac:(done)) as Hle.
  destruct (isGameSubdirectory host rhost (fst pathRegex)); cbn [andb];
    [|split; [done|by intros [|]]].
  revert Hle.
  generalize (List.length (matching_entries rhost pathRegex (handler_IsPluginActive ev))).
  generalize (List.length (matching_entries rhost pathRegex (fun _ => true))).
  intros m n Hle. destruct n as [|[|n]], m as [|[|m]]; simpl; try lia;
    (split; [done|by intros [|]]).
Qed.

End RegexFacts.

(** ** Groups of the two lists *)

Lemma find_group_found name groups g :
  find_group name groups = Some g -> g ∈ groups /\ group_name g = name.
Proof.
  unfold find_group. intros Hfind. apply List.find_some in Hfind as [Hin Heq].
  split; [by apply list_elem_of_In|by apply String.eqb_eq].
Qed.

Lemma find_group_missing name groups :
  find_group name groups = None <-> name ∉ group_names groups.
Proof.
  unfold find_group, group_names. induction groups as [|g groups IH]; simpl.
  - split; [intros _; apply not_elem_of_nil|done].
  - rewrite not_elem_of_cons. destruct (String.eqb_spec (group_name g) name) as [Heq|Hne].
    + split; [done|]. by intros [Hne _].
    + rewrite IH. split; [by split|by intros [_ ?]].
Qed.

Lemma group_set_insert_elem g groups r :
  r ∈ group_set_insert g groups <->
  r ∈ groups \/ (r = g /\ group_name g ∉ group_names groups).
Proof.
  unfold group_set_insert.
  destruct (find_group (group_name g) groups) as [old|] eqn:Hfind.
  - split; [by left|]. intros [Hin|[_ Hnew]]; [done|].
    apply find_group_missing in Hnew. congruence.
  - apply find_group_missing in Hfind. rewrite elem_of_app, list_elem_of_singleton.
    naive_solver.
Qed.

Lemma group_set_insert_names g groups name :
  name ∈ group_names (group_set_insert g groups) <->
  name ∈ group_names groups \/ name = group_name g.
Proof.
  unfold group_set_insert.
  destruct (find_group (group_name g) groups) as [old|] eqn:Hfind.
  - apply find_group_found in Hfind as [Hin Heq]. split; [by left|].
    intros [Hname| ->]; [done|]. rewrite <- Heq. unfold group_names.
    apply list_elem_of_fmap. by exists old.
  - unfold group_names. rewrite List.map_app, elem_of_app. simpl.
    by rewrite list_elem_of_singleton.
Qed.

Lemma group_set_insert_NoDup g groups :
  NoDup (group_names groups) -> NoDup (group_names (group_set_insert g groups)).
Proof.
  intros Hnodup. unfold group_set_insert.
  destruct (find_group (group_name g) groups) as [old|] eqn:Hfind; [done|].
  apply find_group_missing in Hfind. unfold group_names in *. rewrite List.map_app. simpl.
  apply NoDup_app. split; [done|]. split.
  - intros x Hx ->%list_elem_of_singleton. done.
  - apply NoDup_singleton.
Qed.

Section InsertAll.

Context (h : Group -> Group) (Hname : forall g, group_name (h g) = group_name g).

Lemma insert_all_names l : forall acc name,
  name ∈ group_names
           (List.fold_left (fun merged g => group_set_insert (h g) merged) l acc) <->
  name ∈ group_names acc \/ name ∈ group_names l.
Proof.
  induction l as [|g l IH]; intros acc name; simpl.
  - split; [by left|]. intros [H|H]; [done|]. by apply elem_of_nil in H.
  - rewrite IH, group_set_insert_names, Hname, elem_of_cons. naive_solver.
Qed.

Lemma insert_all_NoDup l : forall acc,
  NoDup (group_names acc) ->
  NoDup (group_names
           (List.fold_left (fun merged g => group_set_insert (h g) merged) l acc)).
Proof.
  induction l as [|g l IH]; intros acc Hacc; simpl; [done|].
  by apply IH, group_set_insert_NoDup.
Qed.

Lemma insert_all_elem l : forall acc r,
  r ∈ List.fold_left (fun merged g => group_set_insert (h g) merged) l acc ->
  r ∈ acc \/ exists g, g ∈ l /\ r = h g /\ group_name g ∉ group_names acc.
Proof.
  induction l as [|g l IH]; intros acc r; simpl; [by left|].
  intros [[Hacc|[-> Hnew]]%group_set_insert_elem|(g' & Hin & -> & Hnew)]%IH.
  - by left.
  - right. exists g. rewrite Hname in Hnew. split; [apply elem_of_cons; by left|done].
  - right. exists g'. split; [apply elem_of_cons; by right|]. split; [done|].
    intros Hacc. apply Hnew, group_set_insert_names. by left.
Qed.

End InsertAll.

Lemma name_set_insert_range_elem range : forall names x,
  x ∈ name_set_insert_range range names <-> x ∈ names \/ x ∈ range.
Proof.
  unfold name_set_insert_range.
  induction range as [|name range IH]; intros names x; simpl.
  - split; [by left|]. intros [H|H]; [done|]. by apply elem_of_nil in H.
  - rewrite IH, elem_of_cons. unfold name_set_insert.
    destruct (existsb (String.eqb name) names) eqn:Hin.
    + apply existsb_exists in Hin as (y & Hy%list_elem_of_In & ->%String.eqb_eq).
      naive_solver.
    + rewrite elem_of_app, list_elem_of_singleton. naive_solver.
Qed.

Lemma group_names_unique groups g g' :
  NoDup (group_names groups) -> g ∈ groups -> g' ∈ groups ->
  group_name g = group_name g' -> g = g'.
Proof.
  unfold group_names. induction groups as [|x groups IH]; simpl.
  - intros _ H. by apply elem_of_nil in H.
  - intros [Hx Hnodup]%NoDup_cons [->|Hg]%elem_of_cons [->|Hg']%elem_of_cons Heq; auto.
    + destruct Hx. rewrite Heq. apply list_elem_of_fmap. by exists g'.
    + destruct Hx. rewrite <- Heq. apply list_elem_of_fmap. by exists g.
Qed.

Lemma after_in_unique groups g x :
  NoDup (group_names groups) -> g ∈ groups ->
  after_in groups (group_name g) x <-> x ∈ group_after g.
Proof.
  intros Hnodup Hg. split.
  - intros (g' & Hg' & Heq & Hx). by rewrite (group_names_unique groups g g').
  - intros Hx. by exists g.
Qed.

Lemma after_in_absent groups name x :
  name ∉ group_names groups -> ~ after_in groups name x.
Proof.
  intros Habsent (g & Hg & <- & _). apply Habsent. unfold group_names.
  apply list_elem_of_fmap. by exists g.
Qed.

(** X22: [GetGroups(true)] is the union of the two lists' groups by name.
    For lists that hold one group of a name each, the result holds one
    group of every name of the masterlist, of the userlist and of the
    default group, and no other; and the after-groups of each are those the
    masterlist and the userlist give that name, taken together. Without
    the user's metadata the names are the masterlist's and the default
    group's. *)
Theorem GetGroups_unites_by_name lh db :
  NoDup (group_names (Groups lh (masterlist_ db))) ->
  NoDup (group_names (Groups lh (userlist_ db))) ->
  NoDup (group_names (GetGroups lh db true)) /\
  (forall name,
     name ∈ group_names (GetGroups lh db true) <->
     name = default_group_name \/
     name ∈ group_names (Groups lh (masterlist_ db)) \/
     name ∈ group_names (Groups lh (userlist_ db))) /\
  (forall g after,
     g ∈ GetGroups lh db true ->
     after ∈ group_after g <->
     after_in (Groups lh (masterlist_ db)) (group_name g) after \/
     after_in (Groups lh (userlist_ db)) (group_name g) after) /\
  (forall name,
     name ∈ group_names (GetGroups lh db false) <->
     name = default_group_name \/ name ∈ group_names (Groups lh (masterlist_ db))).
Proof.
  intros Hmaster Huser. unfold GetGroups. simpl.
  set (master := Groups lh (masterlist_ db)) in *.
  set (user := Groups lh (userlist_ db)) in *.
  set (h := fun group =>
              match find_group (group_name group) user with
              | Some userlistGroup =>
                  {| group_name := group_name group;
                     group_after := name_set_insert_range (group_after userlistGroup)
                                      (group_after group) |}
              | None => group
              end).
  assert (forall g, group_name (h g) = group_name g) as Hh
    by (intros g; unfold h; by destruct (find_group _ _)).
  assert (forall l acc,
            List.fold_left
              (fun mergedGroups group =>
                 match find_group (group_name group) user with
                 | Some userlistGroup =>
                     group_set_insert
                       {| group_name := group_name group;
                          group_after := name_set_insert_range (group_after userlistGroup)
                                           (group_after group) |} mergedGroups
                 | None => group_set_insert group mergedGroups
                 end) l acc =
            List.fold_left (fun merged g => group_set_insert (h g) merged) l acc) as ->.
  { induction l as [|g l IH]; intros acc; simpl; [done|].
    rewrite IH. f_equal. unfold h. by destruct (find_group (group_name g) user). }
  set (merged1 := List.fold_left (fun merged g => group_set_insert (h g) merged) master []).
  set (merged2 := List.fold_left (fun merged g => group_set_insert g merged) user merged1).
  assert (forall name, name ∈ group_names merged1 <-> name ∈ group_names master) as Hnames1.
  { intros name. unfold merged1. rewrite (insert_all_names h Hh). simpl.
    split; [intros [H|H]; [by apply elem_of_nil in H|done]|by right]. }
  assert (forall name, name ∈ group_names merged2 <->
            name ∈ group_names master \/ name ∈ group_names user) as Hnames2.
  { intros name. unfold merged2. rewrite (insert_all_names (fun g => g) (fun _ => eq_refl)).
    by rewrite Hnames1. }
  split_and!.
  - apply group_set_insert_NoDup. apply (insert_all_NoDup (fun g => g)).
    apply (insert_all_NoDup h). apply NoDup_nil_2.
  - intros name. rewrite group_set_insert_names, Hnames2. simpl. naive_solver.
  - intros g after Hg.
    apply group_set_insert_elem in Hg as [Hg|[-> Hnew]].
    + apply (insert_all_elem (fun g => g) (fun _ => eq_refl)) in Hg
        as [Hg|(u & Hu & -> & Hnew)].
      * apply (insert_all_elem h Hh) in Hg as [Hg|(m & Hm & -> & _)];
          [by apply elem_of_nil in Hg|].
        rewrite Hh, (after_in_unique master m) by done. unfold h.
        destruct (find_group (group_name m) user) as [u|] eqn:Hfind; simpl.
        -- apply find_group_found in Hfind as [Hu Heq].
           rewrite <- Heq, (after_in_unique user u) by done.
           apply name_set_insert_range_elem.
        -- apply find_group_missing in Hfind. split; [by left|].
           intros [H|H]; [done|]. by apply after_in_absent in H.
      * rewrite Hnames1 in Hnew. rewrite (after_in_unique user u) by done.
        split; [by right|]. intros [H|H]; [|done]. by apply after_in_absent in H.
    + rewrite Hnames2 in Hnew. simpl. split; [by intros H%elem_of_nil|].
      intros [H|H]; apply after_in_absent in H; try done; naive_solver.
  - intros name. rewrite group_set_insert_names. simpl. naive_solver.
Qed.

Lemma GetGroups_unites_by_name_witness :
  NoDup (group_names (GetGroups sample_list_host grouped_database true)) /\
  (forall after,
     after ∈ group_after {| group_name := "late"; group_after := ["early"; "mine"] |} <->
     after_in (Groups sample_list_host (masterlist_ grouped_database)) "late" after \/
     after_in (Groups sample_list_host (userlist_ grouped_database)) "late" after).
Proof.
  assert (NoDup (group_names (Groups sample_list_host (masterlist_ grouped_database))))
    as Hmaster.
  { apply NoDup_cons. split; [|apply NoDup_singleton].
    intros Hin%list_elem_of_singleton. discriminate Hin. }
  assert (NoDup (group_names (Groups sample_list_host (userlist_ grouped_database))))
    as Huser.
  { apply NoDup_cons. split; [|apply NoDup_singleton].
    intros Hin%list_elem_of_singleton. discriminate Hin. }
  destruct (GetGroups_unites_by_name sample_list_host grouped_database Hmaster Huser)
    as (Hnodup & _ & Hafter & _).
  split; [done|]. intros after.
  apply (Hafter {| group_name := "late"; group_after := ["early"; "mine"] |}).
  apply list_elem_of_further, list_elem_of_here.
Defined.

(** ** General messages *)

(** X23: [GetGeneralMessages] gives the masterlist's messages followed by
    the userlist's. Without evaluation that is the result and the cache is
    not touched; with evaluation the result is that list, in its order, with
    some messages left out. *)
Theorem GetGeneralMessages_order lh db evaluateConditions c messages c' :
  GetGeneralMessages lh db evaluateConditions c = (Ok messages, c') ->
  sublist messages (Messages lh (masterlist_ db) ++ Messages lh (userlist_ db)) /\
  (evaluateConditions = false ->
   messages = Messages lh (masterlist_ db) ++ Messages lh (userlist_ db) /\ c' = c).
Proof.
  unfold GetGeneralMessages.
  assert (match Messages lh (userlist_ db) with
          | [] => Messages lh (masterlist_ db)
          | _ :: _ => Messages lh (masterlist_ db) ++ Messages lh (userlist_ db)
          end = Messages lh (masterlist_ db) ++ Messages lh (userlist_ db)) as ->.
  { destruct (Messages lh (userlist_ db)); [by rewrite app_nil_r|done]. }
  destruct evaluateConditions.
  - intros Hrun. inv_bind Hrun. by apply filterM_sublist in Hrun.
  - by intros [= <- <-].
Qed.

Lemma GetGeneralMessages_order_witness :
  fst (GetGeneralMessages sample_list_host messages_database false GameCache.empty) =
    Ok [general_message "Foo is installed" (file_condition "Foo.esp");
        general_message "Baz is installed" (file_condition "Baz.esp");
        general_message "a note of the user" ""] /\
  fst (GetGeneralMessages sample_list_host messages_database true GameCache.empty) =
    Ok [general_message "Foo is installed" (file_condition "Foo.esp");
        general_message "a note of the user" ""] /\
  sublist [general_message "Foo is installed" (file_condition "Foo.esp");
           general_message "a note of the user" ""]
    (Messages sample_list_host (masterlist_ messages_database) ++
     Messages sample_list_host (userlist_ messages_database)).
Proof.
  destruct (GetGeneralMessages sample_list_host messages_database false GameCache.empty)
    as [r0 c0] eqn:Hplain.
  destruct (GetGeneralMessages sample_list_host messages_database true GameCache.empty)
    as [r c'] eqn:Hrun.
  assert (r0 = Ok [general_message "Foo is installed" (file_condition "Foo.esp");
                   general_message "Baz is installed" (file_condition "Baz.esp");
                   general_message "a note of the user" ""]) as ->
    by (vm_compute in Hplain; injection Hplain as <- _; reflexivity).
  assert (r = Ok [general_message "Foo is installed" (file_condition "Foo.esp");
                  general_message "a note of the user" ""]) as ->
    by (vm_compute in Hrun; injection Hrun as <- _; reflexivity).
  destruct (GetGeneralMessages_order _ _ _ _ _ _ Hplain) as [_ Hsame].
  destruct (Hsame eq_refl) as [_ Hcache].
  split; [done|]. split; [done|]. by destruct (GetGeneralMessages_order _ _ _ _ _ _ Hrun).
Defined.

(** ** Metadata of one list only *)

(** X24: for a plugin the masterlist has no entry for, [GetPluginMetadata]
    with the user's metadata included is [GetPluginUserMetadata]; for a
    plugin the userlist has no entry for, including the user's metadata
    makes no difference. *)
Theorem GetPluginMetadata_of_one_list dh db plugin evaluateConditions :
  (FindPlugin dh (masterlist_ db) plugin = None ->
   GetPluginMetadata dh db plugin true evaluateConditions =
   GetPluginUserMetadata dh db plugin evaluateConditions) /\
  (FindPlugin dh (userlist_ db) plugin = None ->
   GetPluginMetadata dh db plugin true evaluateConditions =
   GetPluginMetadata dh db plugin false evaluateConditions).
Proof.
  unfold GetPluginMetadata, GetPluginUserMetadata. split.
  - intros ->. by destruct (FindPlugin dh (userlist_ db) plugin).
  - intros ->. by destruct (FindPlugin dh (masterlist_ db) plugin).
Qed.

Lemma GetPluginMetadata_of_one_list_witness :
  FindPlugin sample_database_host (masterlist_ loaded_database) "Bar.esp" = None /\
  GetPluginMetadata sample_database_host loaded_database "Bar.esp" true true =
  GetPluginUserMetadata sample_database_host loaded_database "Bar.esp" true.
Proof.
  split; [reflexivity|].
  by apply (GetPluginMetadata_of_one_list sample_database_host loaded_database "Bar.esp" true).
Defined.

(** ** Group edges *)

Lemma scan_after_group_plugin_ok s0 vertex plugin scan pluginName scan' :
  (vertex, plugin) ∈ indexed_vertices s0 ->
  pluginName ∈ PluginSortingData.GetAfterGroupPlugins plugin ->
  group_scan_ok s0 scan ->
  scan_after_group_plugin vertex (Some scan) pluginName = Some scan' ->
  group_scan_ok s0 scan'.
Proof.
  intros Hvertex Hname [Hgraph Hpairs]. unfold scan_after_group_plugin.
  assert (GetVertexByName pluginName (scanSorter scan) = GetVertexByName pluginName s0)
    as -> by (unfold GetVertexByName; by rewrite Hgraph).
  destruct (GetVertexByName pluginName s0) as [parentVertex|] eqn:Hparent;
    [|by intros [= <-]].
  destruct (EdgeCreatesCycle parentVertex vertex (scanSorter scan)) as [cyclic s1] eqn:Hrun.
  destruct (EdgeCreatesCycle_sound _ _ _ _ _ Hrun) as (Hg & _ & _).
  assert (graph_ s1 = graph_ s0) as Hs1 by congruence.
  destruct cyclic.
  - intros Hscan. repeat case_match; simplify_eq; by constructor.
  - intros [= <-]. constructor; simpl; [done|].
    apply Forall_app. split; [done|]. apply Forall_singleton.
    split; [done|]. exists plugin, pluginName. simpl. split_and!; try done.
    rewrite <- Hgraph. by eapply EdgeCreatesCycle_false.
Qed.

Lemma scan_vertex_ok s0 vit scan scan' :
  vit ∈ indexed_vertices s0 ->
  group_scan_ok s0 scan ->
  scan_vertex (Some scan) vit = Some scan' ->
  group_scan_ok s0 scan'.
Proof.
  destruct vit as [vertex plugin]. intros Hvit. unfold scan_vertex. simpl.
  assert (forall name, name ∈ PluginSortingData.GetAfterGroupPlugins plugin ->
            name ∈ PluginSortingData.GetAfterGroupPlugins plugin) as Hnames by done.
  revert Hnames scan.
  generalize (PluginSortingData.GetAfterGroupPlugins plugin) at 1 3 as names.
  induction names as [|name names IH]; intros Hnames scan Hscan; cbn [List.fold_left].
  - by intros [= <-].
  - destruct (scan_after_group_plugin vertex (Some scan) name) as [scan1|] eqn:E1.
    + apply IH; [intros n Hn; apply Hnames, elem_of_cons; by right|].
      eapply scan_after_group_plugin_ok; [exact Hvit| |exact Hscan|exact E1].
      apply Hnames, elem_of_cons. by left.
    + by rewrite fold_scan_none.
Qed.

Lemma add_acyclic_group_edges_only s0 ignored pairs : forall s,
  Forall (fun edgePair => group_edge s0 (edgePair, group)) pairs ->
  exists added,
    edges (graph_ (List.fold_left (add_acyclic_group_edge ignored) pairs s)) =
      edges (graph_ s) ++ added /\
    Forall (group_edge s0) added.
Proof.
  induction pairs as [|[fromVertex toVertex] pairs IH]; intros s Hpairs; simpl.
  - exists []. by rewrite app_nil_r.
  - apply Forall_cons in Hpairs as [Hpair Hpairs].
    destruct (IH (add_acyclic_group_edge ignored s (fromVertex, toVertex)) Hpairs)
      as (added & -> & Hadded).
    unfold add_acyclic_group_edge. simpl. destruct (negb _); [|by exists added].
    unfold AddEdge. destruct (decide _); [by exists added|]. simpl.
    exists ((fromVertex, toVertex, group) :: added). rewrite <- app_assoc. simpl.
    split; [done|]. by apply Forall_cons.
Qed.

(** X25: every edge [AddGroupEdges] adds is a group edge that leads to a
    plugin's vertex from the vertex of one of the plugin's after-group
    plugins, and when the phase began no path led from the plugin back to
    that vertex; the edges found are kept. *)
Theorem AddGroupEdges_adds_group_edges_only s s' :
  AddGroupEdges s = Some s' ->
  exists added,
    edges (graph_ s') = edges (graph_ s) ++ added /\ Forall (group_edge s) added.
Proof.
  unfold AddGroupEdges.
  assert (forall vits scan scan',
            (forall vit, vit ∈ vits -> vit ∈ indexed_vertices s) ->
            group_scan_ok s scan ->
            List.fold_left scan_vertex vits (Some scan) = Some scan' ->
            group_scan_ok s scan') as Hscan.
  { induction vits as [|vit vits IH]; intros scan scan' Hvits Hok; cbn [List.fold_left].
    - by intros [= <-].
    - destruct (scan_vertex (Some scan) vit) as [scan1|] eqn:E1.
      + apply IH; [intros v Hv; apply Hvits, elem_of_cons; by right|].
        eapply scan_vertex_ok; [|exact Hok|exact E1]. apply Hvits, elem_of_cons. by left.
      + by rewrite (fold_scan_none _ _ scan_vertex_none). }
  destruct (List.fold_left scan_vertex _ _) as [scan|] eqn:Escan; [|done].
  intros [= <-]. apply Hscan in Escan as [Hgraph Hpairs]; [|done|by constructor].
  destruct (add_acyclic_group_edges_only s (groupPluginsToIgnore scan)
              (acyclicEdgePairs scan) (scanSorter scan) Hpairs) as (added & -> & Hadded).
  exists added. by rewrite Hgraph.
Qed.

Lemma AddGroupEdges_adds_group_edges_only_witness :
  AddGroupEdges grouped_sorter = Some (AddEdge 0 1 group grouped_sorter) /\
  exists added,
    edges (graph_ (AddEdge 0 1 group grouped_sorter)) =
      edges (graph_ grouped_sorter) ++ added /\
    Forall (group_edge grouped_sorter) added.
Proof.
  assert (AddGroupEdges grouped_sorter = Some (AddEdge 0 1 group grouped_sorter)) as Hrun
    by (vm_compute; reflexivity).
  split; [done|]. exact (AddGroupEdges_adds_group_edges_only _ _ Hrun).
Defined.

(** ** Further worked runs *)

Lemma AddHardcodedPluginEdges_skips_Update_esm_with_logger_witness :
  Type_ skyrim_game = tes5 /\
  logger_ (skyrim_sorter true) = true /\
  exists added,
    edges (graph_ (snd (AddHardcodedPluginEdges skyrim_game (skyrim_sorter true)))) =
      edges (graph_ (skyrim_sorter true)) ++ added /\
    forall fromVertex toVertex edgeType,
      In (fromVertex, toVertex, edgeType) added ->
      edgeType = hardcoded /\ hardcoded_source skyrim_game (skyrim_sorter true) fromVertex.
Proof.
  split; [reflexivity|]. split; [reflexivity|].
  destruct (AddHardcodedPluginEdges skyrim_game (skyrim_sorter true)) as [r s'] eqn:Hrun.
  exact (AddHardcodedPluginEdges_skips_Update_esm_with_logger
           skyrim_game (skyrim_sorter true) r s' eq_refl eq_refl Hrun).
Defined.

Lemma GetPlugin_after_AddPlugin_witness :
  let older := {| plugin_name := "Foo.esp"; plugin_is_master := false;
                  plugin_masters := []; plugin_override_form_ids := [];
                  plugin_version := None; plugin_crc := None |} in
  let newer := {| plugin_name := "FOO.ESP"; plugin_is_master := false;
                  plugin_masters := []; plugin_override_form_ids := [];
                  plugin_version := Some "2.0"; plugin_crc := None |} in
  GameCache.GetPlugin "foo.esp"
    (GameCache.AddPlugin newer (GameCache.AddPlugin older GameCache.empty)) = Some newer /\
  GameCache.AddPlugin newer (GameCache.AddPlugin older GameCache.empty) =
    GameCache.AddPlugin newer GameCache.empty.
Proof.
  intros older newer.
  destruct (GetPlugin_after_AddPlugin newer older "foo.esp"
              (GameCache.AddPlugin older GameCache.empty)) as [Hget _].
  destruct (GetPlugin_after_AddPlugin newer older "foo.esp" GameCache.empty)
    as [_ Hreplace].
  split; [exact Hget|]. by apply Hreplace.
Defined.

Lemma regex_conditions_ordered_witness :
  arePluginsActive (with_data_directory sample_host) sample_regex_host live_evaluator
    ".*\.esm" = Ok true /\
  isPluginMatchingRegexActive (with_data_directory sample_host) sample_regex_host
    live_evaluator ".*\.esm" = Ok true /\
  regexMatchesExist (with_data_directory sample_host) sample_regex_host live_evaluator
    ".*\.esm" = Ok true /\
  regexMatchExists (with_data_directory sample_host) sample_regex_host live_evaluator
    ".*\.esm" = Ok true.
Proof.
  destruct (regex_conditions_ordered (with_data_directory sample_host) sample_regex_host
              live_evaluator ".*\.esm") as [Hactive Hexist].
  assert (arePluginsActive (with_data_directory sample_host) sample_regex_host
            live_evaluator ".*\.esm" = Ok true) as Hrun by (vm_compute; reflexivity).
  destruct (Hactive Hrun) as [Hone Hmany].
  split; [done|]. split; [done|]. split; [done|]. apply Hexist. by left.
Defined.

(** ** The whole edge construction *)

Lemma indexed_vertices_step s s' :
  sorter_step s s' -> indexed_vertices s' = indexed_vertices s.
Proof. intros Hstep. unfold indexed_vertices. by rewrite (step_vertices _ _ Hstep). Qed.

(** X27: when the edge construction of [Sort] returns, on a sorter with a
    sound paths cache, the graph it leaves links every two different
    vertices by a path one way or the other, has a path from every master
    to every plugin that is not a master, and has a path to every plugin
    from each master, requirement and load-after file it names that is a
    vertex. *)
Theorem add_all_edges_orders_plugins game s s' :
  cache_sound s ->
  add_all_edges game s = Some (Ok tt, s') ->
  (forall u v,
     (u < List.length (vertices (graph_ s)))%nat ->
     (v < List.length (vertices (graph_ s)))%nat ->
     u <> v -> connected (graph_ s') u v) /\
  (forall vit vit2,
     vit ∈ indexed_vertices s -> vit2 ∈ indexed_vertices s ->
     PluginSortingData.IsMaster (snd vit) = true ->
     PluginSortingData.IsMaster (snd vit2) = false ->
     path (graph_ s') (fst vit) (fst vit2)) /\
  (forall vit name parent,
     vit ∈ indexed_vertices s -> name ∈ specified_parents (snd vit) ->
     GetVertexByName name s = Some parent ->
     path (graph_ s') parent (fst vit)).
Proof.
  intros Hs. unfold add_all_edges. intros Hrun.
  pose proof (AddSpecificEdges_step s) as H1.
  destruct (AddHardcodedPluginEdges game (AddSpecificEdges s)) as [[[]|e] s2] eqn:E2;
    [|done].
  apply AddHardcodedPluginEdges_preserves in E2.
  destruct (AddGroupEdges s2) as [s3|] eqn:E3; [|done].
  apply AddGroupEdges_step in E3. injection Hrun as Hrun.
  pose proof (AddOverlapEdges_step s3) as H4.
  pose proof (AddTieBreakEdges_preserves _ _ _ Hrun) as H5.
  assert (sorter_step s (AddOverlapEdges s3)) as Hbefore.
  { eapply sorter_step_trans; [exact H1|]. eapply sorter_step_trans; [exact E2|].
    eapply sorter_step_trans; [exact E3|exact H4]. }
  assert (sorter_step (AddSpecificEdges s) s') as Hafter.
  { eapply sorter_step_trans; [exact E2|]. eapply sorter_step_trans; [exact E3|].
    eapply sorter_step_trans; [exact H4|exact H5]. }
  destruct (AddSpecificEdges_from_paths (indexed_vertices s) s Hs) as [Hflags Hnamed].
  split_and!.
  - intros u v Hu Hv Hne. unfold AddTieBreakEdges, bind, get in Hrun.
    rewrite (indexed_vertices_step _ _ Hbefore) in Hrun.
    destruct (indexed_vertices_lookup s u Hu) as [pu Hpu].
    destruct (indexed_vertices_lookup s v Hv) as [pv Hpv].
    exact (AddTieBreakEdges_from_connects _ _ _ (step_cache _ _ Hbefore Hs) Hrun
             _ _ Hpu Hpv Hne).
  - intros vit vit2 Hvit Hvit2 Hm Hm2. eapply sorter_step_path; [exact Hafter|].
    by apply Hflags.
  - intros vit name parent Hvit Hname Hparent. eapply sorter_step_path; [exact Hafter|].
    by eapply Hnamed.
Qed.

Lemma add_all_edges_orders_plugins_witness :
  cache_sound (skyrim_sorter true) /\
  (exists s', add_all_edges skyrim_game (skyrim_sorter true) = Some (Ok tt, s') /\
              connected (graph_ s') 1%nat 2%nat).
Proof.
  assert (cache_sound (skyrim_sorter true)) as Hs by by apply empty_cache_sound.
  split; [done|].
  destruct (add_all_edges skyrim_game (skyrim_sorter true)) as [[r s']|] eqn:Hrun;
    [|vm_compute in Hrun; discriminate].
  assert (r = Ok tt) as -> by (vm_compute in Hrun; congruence).
  exists s'. split; [done|].
  destruct (add_all_edges_orders_plugins _ _ _ Hs Hrun) as (Hlinked & _ & _).
  apply Hlinked; vm_compute; lia.
Defined.

(** ** Groups between two groups *)

Lemma pathfinder_sound groups targetGroupName fuel : forall g visitedGroups result,
  pathfinder fuel g targetGroupName groups visitedGroups = Some result ->
  (result <> ∅ ->
   exists t, rtc (after_group groups) g t /\ group_name t = targetGroupName) /\
  (forall x, x ∈ result ->
     x ∈ visitedGroups \/
     exists h, group_name h = x /\ rtc (after_group groups) g h /\
       exists t, tc (after_group groups) h t /\ group_name t = targetGroupName).
Proof.
  induction fuel as [|fuel IH]; intros g visitedGroups result; [done|].
  cbn [pathfinder].
  destruct (String.eqb_spec (group_name g) targetGroupName) as [Htarget|Hother].
  { intros [= <-]. split; [intros _; by exists g|by left]. }
  destruct (group_after g) as [|first others] eqn:Hafter.
  { intros [= <-]. split; [done|]. intros x Hx. by apply elem_of_empty in Hx. }
  rewrite <- Hafter. cbv zeta.
  set (visited' := {[group_name g]} ∪ visitedGroups).
  set (step := fun mergedVisitedGroups afterGroupName =>
                 match mergedVisitedGroups, find_group afterGroupName groups with
                 | Some merged, Some afterGroup =>
                     match pathfinder fuel afterGroup targetGroupName groups visited' with
                     | Some recursedVisitedGroups => Some (merged ∪ recursedVisitedGroups)
                     | None => None
                     end
                 | _, _ => None
                 end).
  assert (forall names acc merged,
            (forall name, name ∈ names -> name ∈ group_after g) ->
            List.fold_left step names (Some acc) = Some merged ->
            forall x, x ∈ merged ->
              x ∈ acc \/
              exists afterGroup recursed,
                after_group groups g afterGroup /\
                pathfinder fuel afterGroup targetGroupName groups visited' = Some recursed /\
                x ∈ recursed) as Hfold.
  { induction names as [|name names IHnames]; intros acc merged Hnames; cbn [List.fold_left].
    - intros [= <-]. by left.
    - unfold step at 2.
      destruct (find_group name groups) as [afterGroup|] eqn:Hfind.
      2:{ intros Hnone. exfalso. clear -Hnone. induction names as [|n names IHn];
            simpl in Hnone; [done|]. by apply IHn. }
      destruct (pathfinder fuel afterGroup targetGroupName groups visited')
        as [recursed|] eqn:Hrec.
      2:{ intros Hnone. exfalso. clear -Hnone. induction names as [|n names IHn];
            simpl in Hnone; [done|]. by apply IHn. }
      intros Hrest x Hx.
      destruct (IHnames _ _ (fun n Hn => Hnames n (list_elem_of_further _ _ _ Hn)) Hrest x Hx)
        as [[Hacc|Hnew]%elem_of_union|Hlater]; [by left| |by right].
      right. exists afterGroup, recursed. split; [|done].
      exists name. split; [|done]. apply Hnames, list_elem_of_here. }
  destruct (List.fold_left step (group_after g) (Some ∅)) as [merged|] eqn:Hmerged; [|done].
  specialize (Hfold _ _ _ (fun _ H => H) Hmerged).
  destruct (decide (merged = ∅)) as [Hempty|Hfound].
  { intros [= <-]. split; [done|]. intros x Hx. rewrite Hempty in Hx.
    by apply elem_of_empty in Hx. }
  intros [= <-].
  assert (exists t, tc (after_group groups) g t /\ group_name t = targetGroupName) as Hleads.
  { apply set_choose_L in Hfound as [y Hy].
    destruct (Hfold y Hy) as [Hnone|(afterGroup & recursed & Hstep & Hrec & Hin)];
      [by apply elem_of_empty in Hnone|].
    destruct (IH _ _ _ Hrec) as [Hreach _].
    destruct Hreach as (t & Ht & Hname); [intros ->; by apply elem_of_empty in Hin|].
    exists t. split; [by eapply tc_rtc_r; [apply tc_once|]|done]. }
  split.
  - intros _. destruct Hleads as (t & Ht & Hname). exists t. split; [by apply tc_rtc|done].
  - intros x [[->%elem_of_singleton|Hx]%elem_of_union|Hx]%elem_of_union.
    + right. by exists g.
    + by left.
    + destruct (Hfold x Hx) as [Hnone|(afterGroup & recursed & Hstep & Hrec & Hin)];
        [by apply elem_of_empty in Hnone|].
      destruct (IH _ _ _ Hrec) as [_ Hsound].
      destruct (Hsound x Hin)
        as [[->%elem_of_singleton|Hold]%elem_of_union|(h & Hname & Hreach & Hto)].
      * right. by exists g.
      * by left.
      * right. exists h. split; [done|]. split; [by eapply rtc_l|done].
Qed.

(** X28: every group [getGroupsInPaths] returns lies on a path from the
    last group to the first along after-groups: it is not the last group,
    the last group reaches it by after-groups, and it reaches a group of
    the first name by one after-group or more. *)
Theorem getGroupsInPaths_between groups firstGroupName lastGroupName groupsInPaths :
  getGroupsInPaths groups firstGroupName lastGroupName = Some groupsInPaths ->
  exists lastGroup,
    find_group lastGroupName groups = Some lastGroup /\
    forall x, x ∈ groupsInPaths ->
      x <> lastGroupName /\
      exists h, group_name h = x /\
        rtc (after_group groups) lastGroup h /\
        exists t, tc (after_group groups) h t /\ group_name t = firstGroupName.
Proof.
  unfold getGroupsInPaths.
  destruct (find_group lastGroupName groups) as [lastGroup|]; [|done].
  destruct (pathfinder _ lastGroup firstGroupName groups ∅) as [found|] eqn:Hrun; [|done].
  intros [= <-]. exists lastGroup. split; [done|].
  intros x [Hx Hlast%not_elem_of_singleton]%elem_of_difference. split; [done|].
  destruct (pathfinder_sound _ _ _ _ _ _ Hrun) as [_ Hsound].
  destruct (Hsound x Hx) as [Hnone|Hbetween]; [by apply elem_of_empty in Hnone|done].
Qed.

Lemma getGroupsInPaths_between_witness :
  getGroupsInPaths three_groups "a" "c" = Some {["b"]} /\
  exists lastGroup,
    find_group "c" three_groups = Some lastGroup /\
    forall x, x ∈ ({["b"]} : gset string) ->
      x <> "c" /\
      exists h, group_name h = x /\
        rtc (after_group three_groups) lastGroup h /\
        exists t, tc (after_group three_groups) h t /\ group_name t = "a".
Proof.
  assert (getGroupsInPaths three_groups "a" "c" = Some {["b"]}) as Hrun.
  { vm_compute. reflexivity. }
  split; [exact Hrun|]. exact (getGroupsInPaths_between _ _ _ _ Hrun).
Defined.
